(** * sio-asyncapi: the AsyncAPI document builder of [sio_asyncapi/asyncapi/docs.py]

    A shallow embedding of the reference addressing ([make_ref], [resolve_ref]),
    of the type rewriter ([rebuild_container], [peewee_uuid_ref], [rewrite_type])
    and of the builder operations ([add_global_tag], [add_channel], [add_event])
    of [AsyncAPIDoc], followed by the properties of the specification.

    Conventions of the embedding
    - a Python exception is the [Raise] outcome of a computation; a computation
      that raises hands back the state as it was when the exception left it, so
      that partial writes stay visible;
    - Python [str] is [string], for the strings of ASCII characters: the
      case functions [lower] and [title] are the ASCII part of Python's
      (a character above 127 is left alone and counts as uncased, where
      Python follows Unicode);
    - a Python [dict] whose order matters (the keyword arguments of
      [create_model], [get_type_hints]) is an association list updated in place;
      the tables of the document are finite maps;
    - a class object has an identity: the classes made at run time
      ([create_model], the [PeeweeUUIDRef] class) carry a number drawn from a
      counter, so that two classes made by two calls differ;
    - pydantic is a library, not code of the repository: what its
      [create_model] makes of a field is a parameter of the development
      ([pydantic_field]), and every statement holds whatever pydantic
      decides. *)

From stdpp Require Import base option list gmap strings.
From Stdlib Require Import Ascii String Lia.

Set Warnings "-register-all".
Local Open Scope string_scope.
Local Open Scope list_scope.

(** ** Python values shared by the whole development *)

Module Py.

(** The exceptions the modelled code can raise. [Exception_] is the plain
    [Exception(msg)] of the source. *)
Inductive exn :=
| IndexError
| KeyError
| AttributeError
| TypeError
| UnboundLocalError
| RecursionError
| NameError
| RuntimeError
| ValueError
| Exception_ (msg : string).

Inductive result (A : Type) :=
| Ok (a : A)
| Raise (e : exn).
Arguments Ok {A} a.
Arguments Raise {A} e.

(** State and exceptions: the state that an exception leaves behind is kept. *)
Definition M (S A : Type) : Type := S -> result A * S.

Definition ret {S A} (a : A) : M S A := fun s => (Ok a, s).
Definition raise {S A} (e : exn) : M S A := fun s => (Raise e, s).
Definition bind {S A B} (c : M S A) (k : A -> M S B) : M S B :=
  fun s => match c s with
           | (Ok a, s') => k a s'
           | (Raise e, s') => (Raise e, s')
           end.
Definition get {S} : M S S := fun s => (Ok s, s).
Definition modify {S} (f : S -> S) : M S unit := fun s => (Ok tt, f s).
Definition lift_result {S A} (r : result A) : M S A := fun s => (r, s).

Fixpoint mapM {S A B} (f : A -> M S B) (l : list A) : M S (list B) :=
  match l with
  | [] => ret []
  | x :: l' => bind (f x) (fun y => bind (mapM f l') (fun ys => ret (y :: ys)))
  end.

(** *** [str] methods *)

Definition is_upper (c : ascii) : bool :=
  let n := nat_of_ascii c in (65 <=? n)%nat && (n <=? 90)%nat.
Definition is_lower (c : ascii) : bool :=
  let n := nat_of_ascii c in (97 <=? n)%nat && (n <=? 122)%nat.
Definition is_cased (c : ascii) : bool := is_upper c || is_lower c.
Definition to_lower (c : ascii) : ascii :=
  if is_upper c then ascii_of_nat (nat_of_ascii c + 32) else c.
Definition to_upper (c : ascii) : ascii :=
  if is_lower c then ascii_of_nat (nat_of_ascii c - 32) else c.

(** [s.lower()] *)
Fixpoint lower (s : string) : string :=
  match s with
  | EmptyString => EmptyString
  | String c s' => String (to_lower c) (lower s')
  end.

(** [s.title()]: a cased character is upper-cased when the character before
    it is not cased, lower-cased otherwise. *)
Fixpoint title_from (previous_is_cased : bool) (s : string) : string :=
  match s with
  | EmptyString => EmptyString
  | String c s' =>
      String (if previous_is_cased then to_lower c else to_upper c)
             (title_from (is_cased c) s')
  end.
Definition title (s : string) : string := title_from false s.

(** [s.startswith(p)] *)
Fixpoint startswith (p s : string) : bool :=
  match p, s with
  | EmptyString, _ => true
  | String a p', String b s' => if Ascii.eqb a b then startswith p' s' else false
  | String _ _, EmptyString => false
  end.

(** The slice [s[n:]] *)
Fixpoint slice_from (n : nat) (s : string) : string :=
  match n, s with
  | O, _ => s
  | S n', String _ s' => slice_from n' s'
  | S _, EmptyString => EmptyString
  end.

(** [s.replace(c, "")] for a one-character [c] *)
Fixpoint remove_char (c : ascii) (s : string) : string :=
  match s with
  | EmptyString => EmptyString
  | String a s' => if Ascii.eqb a c then remove_char c s' else String a (remove_char c s')
  end.

(** [s.split(sep)] for a one-character separator: never the empty list. *)
Fixpoint split (sep : ascii) (s : string) : list string :=
  match s with
  | EmptyString => [EmptyString]
  | String a s' =>
      if Ascii.eqb a sep then EmptyString :: split sep s'
      else match split sep s' with
           | hd :: tl => String a hd :: tl
           | [] => [String a EmptyString]
           end
  end.

(** Truth value of an [Optional[str]]: [None] and [""] are false. *)
Definition str_truthy (o : option string) : bool :=
  match o with
  | Some (String _ _) => true
  | _ => false
  end.

(** [o if o else d] for an [Optional[str]] [o] *)
Definition or_else (o : option string) (d : string) : string :=
  match o with
  | Some (String c s) => String c s
  | _ => d
  end.

(** *** Insertion-ordered [dict] with [str] keys *)

Definition dict (A : Type) : Type := list (string * A).

(** [d[k] = v]: the value is replaced where the key stands, or appended. *)
Fixpoint dict_set {A} (d : dict A) (k : string) (v : A) : dict A :=
  match d with
  | [] => [(k, v)]
  | (k', v') :: d' =>
      if String.eqb k' k then (k, v) :: d' else (k', v') :: dict_set d' k v
  end.

Fixpoint dict_get {A} (d : dict A) (k : string) : option A :=
  match d with
  | [] => None
  | (k', v') :: d' => if String.eqb k' k then Some v' else dict_get d' k
  end.

Definition dict_keys {A} (d : dict A) : list string := map fst d.

End Py.

Import Py.

Declare Scope py_scope.
Delimit Scope py_scope with py.
Notation "x <- c ;; k" := (bind c (fun x => k))
  (at level 100, c at next level, right associativity) : py_scope.
Notation "c ;; k" := (bind c (fun _ => k))
  (at level 100, right associativity) : py_scope.

(** ** The type rewriter *)

Module Rewriter.

(** What [typing.get_origin] answers for a parameterised or bare generic:
    [list], [set], [dict], [tuple], [typing.Union], or any other origin
    ([frozenset], [collections.abc.Callable], [types.UnionType], ...). *)
Inductive origin :=
| o_list
| o_set
| o_dict
| o_tuple
| o_Union
| o_other (name : string).

(** Type descriptors, as [rewrite_type] tells them apart.
    - [Leaf]: anything whose [get_origin] is [None] and that is neither a
      peewee model nor a dataclass: a type ([int], [str], [typing.Any], a
      hand-written pydantic model, a class of the application, ...) or,
      under an origin that takes values, a value (a literal value inside
      [Literal[...]]); as an argument of a container or of a union, where
      [typing] wants types, it is a type;
    - [NoneType] and [Ellipsis_] are the two leaves the code compares against;
    - [PeeweeModel cls] and [Dataclass cls] are classes, named by [__name__];
      a class is identified with its name; a [PeeweeModel] exists only where
      the module [peewee] could be imported, so that the test on [peewee] in
      [rewrite_type] holds for it;
    - [Generic o args]: [get_origin] is [o] and [get_args] is [args]; the bare
      [typing.List] is [Generic o_list []]. A generic is told from another by
      its origin and its arguments alone: [list[int]] and [typing.List[int]]
      are one descriptor, and equality of descriptors is not Python's [==]
      between two spellings;
    - [UUIDRef] and [Model] are the classes made at run time by
      [peewee_uuid_ref] and by pydantic's [create_model]; for [rewrite_type]
      they are leaves. *)
Inductive ty :=
| Leaf (name : string)
| NoneType
| Ellipsis_
| PeeweeModel (cls : string)
| Dataclass (cls : string)
| Generic (o : origin) (args : list ty)
| UUIDRef (id : nat) (name : string)
| Model (id : nat) (name : string) (fields : list (string * ty)).

Definition is_Ellipsis (t : ty) : bool :=
  match t with Ellipsis_ => true | _ => false end.
Definition is_NoneType (t : ty) : bool :=
  match t with NoneType => true | _ => false end.

Definition bool_ : ty := Leaf "bool".
Definition Any : ty := Leaf "Any".
(** [Optional[t]] is [Union[t, None]] *)
Definition Optional (t : ty) : ty := Generic o_Union [t; NoneType].

(** The process-wide state of the module: the two caches [_ref_cache] and
    [_dc_cache], keyed by class, and the counter that numbers the classes
    made at run time. *)
Record caches := mk_caches {
  next_id : nat;
  _ref_cache : gmap string ty;
  _dc_cache : gmap string ty
}.

Definition no_caches : caches := mk_caches 0 ∅ ∅.

(** A pydantic model class: its identity, its [__name__] and its fields. *)
Record model_cls := mk_model {
  model_id : nat;
  model_name : string;
  model_fields : dict ty
}.

Definition class_of (m : model_cls) : ty :=
  Model (model_id m) (model_name m) (model_fields m).

(** [peewee_uuid_ref], on a peewee model class (the only use in the module,
    so that the guard that hands other classes back never fires). *)
Definition peewee_uuid_ref (model_cls : string) : M caches ty :=
  fun c =>
    match _ref_cache c !! model_cls with
    | Some R => (Ok R, c)
    | None =>
        let PeeweeUUIDRef := UUIDRef (next_id c) (model_cls +:+ "UUIDRef") in
        (Ok PeeweeUUIDRef,
         mk_caches (S (next_id c))
                   (<[model_cls := PeeweeUUIDRef]> (_ref_cache c))
                   (_dc_cache c))
    end.

(** [rebuild_container]: [Some] rebuilt type, [None] for an origin that is
    not a container, [IndexError] where [args[0]] or [args[1]] is missing. *)
Definition rebuild_container (o : origin) (args : list ty) : result (option ty) :=
  match o with
  | o_list =>
      match args with
      | a0 :: _ => Ok (Some (Generic o_list [a0]))
      | [] => Raise IndexError
      end
  | o_set =>
      match args with
      | a0 :: _ => Ok (Some (Generic o_set [a0]))
      | [] => Raise IndexError
      end
  | o_dict =>
      match args with
      | a0 :: a1 :: _ => Ok (Some (Generic o_dict [a0; a1]))
      | _ => Raise IndexError
      end
  | o_tuple =>
      match args with
      | [a0; a1] =>
          if is_Ellipsis a1 then Ok (Some (Generic o_tuple [a0; Ellipsis_]))
          else Ok (Some (Generic o_tuple args))
      | _ => Ok (Some (Generic o_tuple args))
      end
  | _ => Ok None
  end.

(** *** What a schema shows of a type

    [erase] forgets the identity of the classes made at run time and keeps
    what a schema shows: names, fields and field types. *)
Fixpoint erase (t : ty) : ty :=
  match t with
  | Generic o args => Generic o (map erase args)
  | UUIDRef _ name => UUIDRef 0 name
  | Model _ name fields => Model 0 name (map (fun p => (fst p, erase (snd p))) fields)
  | _ => t
  end.

(** *** pydantic and the classes of the application

    What [create_model] makes of one keyword argument (pydantic 1.x, the
    loop over the annotations in [ModelMetaclass.__new__]):
    - [Ignore]: the keyword is no field of the model; so it is with a name
      that starts with an underscore, which [create_model] announces with
      a warning;
    - [Refuse e]: pydantic raises [e], a [NameError] for a name that shadows
      an attribute of [BaseModel] ([json], [dict], [copy], ...), a
      [RuntimeError] for a type it finds no validator for (a class it does
      not know);
    - [Take]: the keyword becomes a field of the model. *)
Inductive verdict :=
| Take
| Ignore
| Refuse (e : exn).

(** What the module is run against: the dataclasses of the application and
    pydantic.
    - [dataclass_fields]: the declared fields of a dataclass, with their
      resolved annotations, [dataclasses.fields(tp)] read through
      [get_type_hints(tp)];
    - [pydantic_field]: pydantic's verdict on a field, given its name and its
      type as a schema shows it (the numbers that tell the run-time classes
      apart are the model's own, pydantic does not see them). *)
Record class_env := mk_class_env {
  dataclass_fields : string -> list (string * ty);
  pydantic_field : string -> ty -> verdict
}.

Section WithClasses.

Variable classes : class_env.

(** The keyword arguments that pydantic takes as fields, in their order, or
    the exception of the first one it refuses. *)
Fixpoint taken (fields : dict ty) : result (dict ty) :=
  match fields with
  | [] => Ok []
  | (name, t) :: rest =>
      match pydantic_field classes name (erase t) with
      | Refuse e => Raise e
      | Ignore => taken rest
      | Take =>
          match taken rest with
          | Ok kept => Ok ((name, t) :: kept)
          | Raise e => Raise e
          end
      end
  end.

(** A field named [__root__] makes a model with a custom root type, which
    has no other field: with other fields pydantic raises [ValueError], once
    all of them are made. *)
Definition custom_root_mixed (kept : dict ty) : bool :=
  existsb (fun p => String.eqb (fst p) "__root__") kept && (1 <? List.length kept)%nat.

Definition pydantic_fields (fields : dict ty) : result (dict ty) :=
  match taken fields with
  | Ok kept => if custom_root_mixed kept then Raise ValueError else Ok kept
  | Raise e => Raise e
  end.

(** pydantic's [create_model(name, **fields)]: a new class with the fields
    that pydantic takes, or pydantic's exception and no class. *)
Definition create_model (name : string) (fields : dict ty) : M caches model_cls :=
  fun c =>
    match pydantic_fields fields with
    | Ok kept =>
        (Ok (mk_model (next_id c) name kept),
         mk_caches (S (next_id c)) (_ref_cache c) (_dc_cache c))
    | Raise e => (Raise e, c)
    end.

(** The loop [for f in dataclasses.fields(tp): dc_fields[f.name] = ...] *)
Fixpoint for_fields (rw : ty -> M caches ty) (fs : list (string * ty))
    (dc_fields : dict ty) : M caches (dict ty) :=
  match fs with
  | [] => ret dc_fields
  | (name, ann) :: fs' =>
      bind (rw ann) (fun t => for_fields rw fs' (dict_set dc_fields name t))
  end.

(** [rewrite_type]. [depth] is the number of nested calls the interpreter
    still allows: at [0] Python raises [RecursionError]. [Union[args]] is
    written as the union of the rewritten members, in their order; that
    [typing] merges members that are equal, which rewritten members are only
    when one member is the schema type of another, is left out. *)
Fixpoint rewrite_type (depth : nat) (tp : ty) : M caches ty :=
  match depth with
  | O => raise RecursionError
  | S d =>
      match tp with
      | PeeweeModel cls => peewee_uuid_ref cls
      | Dataclass cls =>
          fun c =>
            match _dc_cache c !! cls with
            | Some M => (Ok M, c)
            | None =>
                (dc_fields <- for_fields (rewrite_type d) (dataclass_fields classes cls) [] ;;
                 M <- create_model (cls +:+ "Schema") dc_fields ;;
                 modify (fun c' => mk_caches (next_id c') (_ref_cache c')
                                             (<[cls := class_of M]> (_dc_cache c'))) ;;
                 ret (class_of M))%py c
            end
      | Generic o targs =>
          (args <- mapM (rewrite_type d) targs ;;
           match o with
           | o_Union => ret (Generic o_Union args)
           | _ =>
               rebuilt <- lift_result (rebuild_container o args) ;;
               match rebuilt with
               | Some t => ret t
               | None => ret tp
               end
           end)%py
      | _ => ret tp
      end
  end.

(** *** The shape of a schema type *)

Fixpoint shape_fields (sh : ty -> option ty) (fs : list (string * ty))
    (acc : dict ty) : option (dict ty) :=
  match fs with
  | [] => Some acc
  | (name, ann) :: fs' =>
      match sh ann with
      | Some t => shape_fields sh fs' (dict_set acc name t)
      | None => None
      end
  end.

Fixpoint shape_args (sh : ty -> option ty) (l : list ty) : option (list ty) :=
  match l with
  | [] => Some []
  | x :: l' =>
      match sh x, shape_args sh l' with
      | Some y, Some ys => Some (y :: ys)
      | _, _ => None
      end
  end.

(** [schema_shape n tp]: the shape of the schema type of [tp], read off the
    class declarations and pydantic's verdicts alone (no cache, no
    identity); [None] when [tp] has no shape within [n] levels or pydantic
    refuses a field on the way. *)
Fixpoint schema_shape (n : nat) (tp : ty) : option ty :=
  match n with
  | O => None
  | S d =>
      match tp with
      | PeeweeModel cls => Some (UUIDRef 0 (cls +:+ "UUIDRef"))
      | Dataclass cls =>
          match shape_fields (schema_shape d) (dataclass_fields classes cls) [] with
          | Some fs =>
              match pydantic_fields fs with
              | Ok kept => Some (Model 0 (cls +:+ "Schema") kept)
              | Raise _ => None
              end
          | None => None
          end
      | Generic o targs =>
          match shape_args (schema_shape d) targs with
          | Some args =>
              match o with
              | o_Union => Some (Generic o_Union args)
              | _ =>
                  match rebuild_container o args with
                  | Ok (Some t) => Some t
                  | Ok None => Some (erase tp)
                  | Raise _ => None
                  end
              end
          | None => None
          end
      | _ => Some (erase tp)
      end
  end.

End WithClasses.

End Rewriter.

Import Rewriter.

(** ** The document model

    The pydantic models of [sio_asyncapi/asyncapi/models], with the fields
    the builder reads or writes. A field that pydantic declares
    [Optional[...] = None] is an [option]. *)

Module Docs.

(** [Reference]: the field [ref], serialised as ["$ref"]. *)
Record Reference := mk_Reference { ref : string }.

Record Tag := mk_Tag {
  tag_name : string;
  tag_description : option string
}.

Record Message := mk_Message {
  msg_name : option string;
  msg_title : option string;
  msg_summary : option string;
  msg_description : option string;
  msg_payload : option Reference;
  msg_tags : option (list Tag)
}.

Record OperationReply := mk_OperationReply {
  reply_channel : option Reference;
  reply_messages : option (list Reference)
}.

Record Operation := mk_Operation {
  op_action : string;
  op_channel : Reference;
  op_title : option string;
  op_summary : option string;
  op_messages : option (list Reference);
  op_reply : option OperationReply;
  op_tags : option (list Tag)
}.

(** [ChannelItem.messages] is declared [Dict[str, Operation]]; the builder
    stores [Message] objects there by plain item assignment. *)
Record ChannelItem := mk_ChannelItem {
  ch_address : option string;
  ch_messages : option (gmap string Message);
  ch_title : option string;
  ch_summary : option string;
  ch_description : option string;
  ch_servers : option (list Reference)
}.

(** What [components.schemas] holds: a hand-written schema (the [NoSpec]
    node of [default_components]) or the schema of a pydantic model,
    [model.schema()], after [add_ref_prepath] re-rooted its inner pointers
    at [prepath]. *)
Inductive schema_node :=
| RawSchema (description : string)
| PydanticSchema (m : model_cls) (prepath : string).

Record Components := mk_Components {
  comp_messages : gmap string Message;
  comp_schemas : gmap string schema_node
}.

Record Info := mk_Info {
  info_title : string;
  info_version : string;
  info_description : option string;
  info_tags : option (list Tag)
}.

Record Server := mk_Server {
  server_host : string;
  server_protocol : string
}.

Record AsyncAPIDoc := mk_AsyncAPIDoc {
  info : Info;
  servers : gmap string Server;
  asyncapi : string;
  channels : gmap string ChannelItem;
  operations : gmap string Operation;
  components : Components
}.

(** *** The document as Python sees it

    [getattr] does not know the static types: it walks objects. [node] is the
    object graph under the document: an object with its attributes, a [dict],
    a [list], a [str], [None], or a schema (a leaf here). Attributes are the
    fields that the models declare, [None] where the builder never sets one.
    What the classes carry besides, the methods ([keys] of a [dict], [json]
    of a model) and the special attributes ([__class__], [__len__]), is not
    part of the graph: a pointer with such a name as a segment is outside
    the model, and what is stated about [resolve_ref] is stated for pointers
    whose segments are names of fields and keys of tables. *)
Inductive node :=
| NNone
| NStr (s : string)
| NList (l : list node)
| NDict (d : gmap string node)
| NObj (cls : string) (attrs : dict node)
| NSchema (s : schema_node).

Definition node_of_opt {A} (f : A -> node) (o : option A) : node :=
  match o with Some a => f a | None => NNone end.

Definition node_of_Reference (r : Reference) : node :=
  NObj "Reference" [("ref", NStr (ref r))].

Definition node_of_Tag (t : Tag) : node :=
  NObj "Tag" [("name", NStr (tag_name t));
              ("description", node_of_opt NStr (tag_description t))].

Definition node_of_tags (l : list Tag) : node := NList (map node_of_Tag l).
Definition node_of_refs (l : list Reference) : node := NList (map node_of_Reference l).

Definition node_of_Message (m : Message) : node :=
  NObj "Message" [("name", node_of_opt NStr (msg_name m));
                  ("title", node_of_opt NStr (msg_title m));
                  ("summary", node_of_opt NStr (msg_summary m));
                  ("description", node_of_opt NStr (msg_description m));
                  ("payload", node_of_opt node_of_Reference (msg_payload m));
                  ("tags", node_of_opt node_of_tags (msg_tags m))].

Definition node_of_messages (d : gmap string Message) : node :=
  NDict (node_of_Message <$> d).

Definition node_of_OperationReply (r : OperationReply) : node :=
  NObj "OperationReply"
       [("address", NNone);
        ("channel", node_of_opt node_of_Reference (reply_channel r));
        ("messages", node_of_opt node_of_refs (reply_messages r))].

Definition node_of_Operation (o : Operation) : node :=
  NObj "Operation"
       [("action", NStr (op_action o));
        ("channel", node_of_Reference (op_channel o));
        ("title", node_of_opt NStr (op_title o));
        ("summary", node_of_opt NStr (op_summary o));
        ("description", NNone);
        ("security", NNone);
        ("tags", node_of_opt node_of_tags (op_tags o));
        ("externalDocs", NNone);
        ("bindings", NNone);
        ("traits", NNone);
        ("messages", node_of_opt node_of_refs (op_messages o));
        ("reply", node_of_opt node_of_OperationReply (op_reply o))].

Definition node_of_ChannelItem (c : ChannelItem) : node :=
  NObj "ChannelItem"
       [("address", node_of_opt NStr (ch_address c));
        ("messages", node_of_opt node_of_messages (ch_messages c));
        ("title", node_of_opt NStr (ch_title c));
        ("summary", node_of_opt NStr (ch_summary c));
        ("description", node_of_opt NStr (ch_description c));
        ("servers", node_of_opt node_of_refs (ch_servers c));
        ("parameters", NNone);
        ("tags", NNone);
        ("externalDocs", NNone);
        ("bindings", NNone)].

Definition node_of_Components (c : Components) : node :=
  NObj "Components"
       [("messages", node_of_messages (comp_messages c));
        ("schemas", NDict (NSchema <$> comp_schemas c))].

Definition node_of_Info (i : Info) : node :=
  NObj "Info" [("title", NStr (info_title i));
               ("version", NStr (info_version i));
               ("description", node_of_opt NStr (info_description i));
               ("termsOfService", NNone);
               ("contact", NNone);
               ("license", NNone);
               ("tags", node_of_opt node_of_tags (info_tags i));
               ("externalDocs", NNone)].

Definition node_of_Server (s : Server) : node :=
  NObj "Server" [("host", NStr (server_host s));
                 ("protocol", NStr (server_protocol s))].

Definition node_of_doc (d : AsyncAPIDoc) : node :=
  NObj "AsyncAPIDoc"
       [("info", node_of_Info (info d));
        ("servers", NDict (node_of_Server <$> servers d));
        ("asyncapi", NStr (asyncapi d));
        ("channels", NDict (node_of_ChannelItem <$> channels d));
        ("operations", NDict (node_of_Operation <$> operations d));
        ("components", node_of_Components (components d))].

(** [getattr(current, p)], for a name [p] that is no method and no special
    attribute: a field of an object; a [dict], a [list], a [str] or [None]
    has no attribute named after a key, an index or anything else. *)
Definition getattr (current : node) (p : string) : result node :=
  match current with
  | NObj _ attrs =>
      match dict_get attrs p with
      | Some v => Ok v
      | None => Raise AttributeError
      end
  | _ => Raise AttributeError
  end.

(** The loop [for p in parts: current = getattr(current, p)] *)
Fixpoint walk (current : node) (parts : list string) : result node :=
  match parts with
  | [] => Ok current
  | p :: parts' =>
      match getattr current p with
      | Ok next => walk next parts'
      | Raise e => Raise e
      end
  end.

(** The argument of [resolve_ref]: a pointer string, a [Reference], or any
    other object (which has no [ref] attribute). *)
Inductive ref_arg (T : Type) :=
| ArgStr (s : string)
| ArgRef (r : Reference)
| ArgObj (o : T).
Arguments ArgStr {T} s.
Arguments ArgRef {T} r.
Arguments ArgObj {T} o.

(** Its result: the object itself, handed back, or the node a pointer
    leads to. *)
Inductive resolved (T : Type) :=
| Same (o : T)
| Target (n : node).
Arguments Same {T} o.
Arguments Target {T} n.

Definition make_ref (path : string) : Reference := mk_Reference ("#" +:+ path).

Definition resolve_ref {T} (self : AsyncAPIDoc) (obj : ref_arg T) : result (resolved T) :=
  match obj with
  | ArgObj o => Ok (Same o)
  | ArgRef _ | ArgStr _ =>
      let ref := match obj with ArgRef r => ref r | ArgStr s => s | ArgObj _ => "" end in
      if negb (startswith "#/" ref) then Raise (Exception_ ("Unsupported ref " +:+ ref))
      else
        let parts := split "/" (slice_from 2 ref) in
        match walk (node_of_doc self) parts with
        | Ok current => Ok (Target current)
        | Raise e => Raise e
        end
  end.

(** *** What the specification calls the node at a path

    "Each segment is used to navigate from the document root by attribute/key
    lookup": an attribute of an object, a key of a table. *)
Definition lookup_segment (current : node) (p : string) : option node :=
  match current with
  | NObj _ attrs => dict_get attrs p
  | NDict d => d !! p
  | _ => None
  end.

Fixpoint follow (current : node) (parts : list string) : option node :=
  match parts with
  | [] => Some current
  | p :: parts' =>
      match lookup_segment current p with
      | Some next => follow next parts'
      | None => None
      end
  end.

(** The node at [path], a path of the form [/segment/segment/...]. *)
Definition node_at (self : AsyncAPIDoc) (path : string) : option node :=
  if startswith "/" path then follow (node_of_doc self) (split "/" (slice_from 1 path))
  else None.

(** *** The builder *)

Definition sanitize_id (id : string) : string := remove_char "/" id.

Definition default_components : Components :=
  mk_Components ∅ {["NoSpec" := RawSchema "Specification is not provided"]}.

Definition add_description : string :=
  String "010" ("<br/> AsyncAPI currently does not support Socket.IO binding and Web Socket like syntax used for now." +:+
  String "010" ("In order to add support for Socket.IO ACK value, AsyncAPI is extended with with x-ack keyword." +:+
  String "010" ("This documentation should **NOT** be used for generating code due to these limitations." +:+
  String "010" ""))).

Definition default_init (version title description server_url server_name server_protocol : string)
  : AsyncAPIDoc :=
  mk_AsyncAPIDoc
    (mk_Info title version (Some (description +:+ add_description)) (Some []))
    {[server_name := mk_Server server_url server_protocol]}
    "3.0.0" ∅ ∅ default_components.

(** The loop of [add_global_tag]: [Some] updated list when a tag of that
    name was found (the [return] inside the loop), [None] when the loop ran
    to its end. *)
Fixpoint update_tag (tags : list Tag) (name : string) (description : option string)
  : option (list Tag) :=
  match tags with
  | [] => None
  | t :: tags' =>
      if String.eqb (tag_name t) name then Some (mk_Tag (tag_name t) description :: tags')
      else match update_tag tags' name description with
           | Some r => Some (t :: r)
           | None => None
           end
  end.

Definition set_tags (self : AsyncAPIDoc) (tags : list Tag) : AsyncAPIDoc :=
  mk_AsyncAPIDoc
    (mk_Info (info_title (info self)) (info_version (info self))
             (info_description (info self)) (Some tags))
    (servers self) (asyncapi self) (channels self) (operations self) (components self).

Definition add_global_tag (name : string) (description : option string)
  : M AsyncAPIDoc unit :=
  fun self =>
    match info_tags (info self) with
    | None => (Raise TypeError, self)
    | Some tags =>
        match update_tag tags name description with
        | Some tags' => (Ok tt, set_tags self tags')
        | None => (Ok tt, set_tags self (tags ++ [mk_Tag name description]))
        end
    end.

Definition set_channels (self : AsyncAPIDoc) (chs : gmap string ChannelItem) : AsyncAPIDoc :=
  mk_AsyncAPIDoc (info self) (servers self) (asyncapi self) chs
                 (operations self) (components self).

Definition add_channel (id : string) (address title summary description : option string)
    (servers : option (list string)) : M AsyncAPIDoc unit :=
  fun self =>
    let address := if negb (str_truthy address) then Some id else address in
    let id := sanitize_id id in
    match channels self !! id with
    | None =>
        let channel_obj :=
          mk_ChannelItem address None
            (if str_truthy title then title else Some (Py.title id))
            summary description
            (match servers with
             | Some (s :: ss) =>
                 Some (map (fun s => make_ref ("/servers/" +:+ s)) (s :: ss))
             | _ => None
             end) in
        (Ok tt, set_channels self (<[id := channel_obj]> (channels self)))
    | Some _ => (Raise (Exception_ ("Channel " +:+ id +:+ " already exists")), self)
    end.

(** The message registered under [k] in the channel [c], if any. *)
Definition message_at (self : AsyncAPIDoc) (c k : string) : option Message :=
  match channels self !! c with
  | Some ch =>
      match ch_messages ch with
      | Some msgs => msgs !! k
      | None => None
      end
  | None => None
  end.

End Docs.

Import Docs.

(** ** [add_event] *)

Module Events.

(** A handler, as [add_event] looks at it: [__name__], [__doc__] and the
    annotations that [get_type_hints] reports: the annotated parameters in
    order, then the key ["return"] when the handler declares a return type. *)
Record Handler := mk_Handler {
  handler_name : string;
  handler_doc : option string;
  handler_params : list (string * ty);
  handler_return : option ty
}.

Definition get_type_hints (handler : Handler) : dict ty :=
  handler_params handler ++
  match handler_return handler with
  | Some t => [("return", t)]
  | None => []
  end.

(** [Optional[Union[Type[BaseModel], NotProvidedType]]]: the string
    ["NotProvided"] or a pydantic model class. *)
Inductive model_arg :=
| NotProvided
| ModelClass (m : model_cls).

(** [model.__name__]: a [str] has no such attribute. *)
Definition name_of (m : model_arg) : result string :=
  match m with
  | ModelClass c => Ok (model_name c)
  | NotProvided => Raise AttributeError
  end.

Record add_event_args := mk_args {
  arg_channel : string;
  arg_id : string;
  arg_handler : option Handler;
  arg_title : option string;
  arg_name : option string;
  arg_summary : option string;
  arg_description : option string;
  arg_tags : option (list string);
  arg_ack_data_model : option model_arg;
  arg_payload_model : option model_arg;
  arg_action : string
}.

(** The state [add_event] works on: the document and the module's caches. *)
Record world := mk_world {
  doc : AsyncAPIDoc;
  mem : caches
}.

Definition on_mem {A} (c : M caches A) : M world A :=
  fun w => match c (mem w) with (r, m') => (r, mk_world (doc w) m') end.

Definition on_doc {A} (c : M AsyncAPIDoc A) : M world A :=
  fun w => match c (doc w) with (r, d') => (r, mk_world d' (mem w)) end.

(** [self.channels[channel]] *)
Definition channels_getitem (channel : string) : M AsyncAPIDoc ChannelItem :=
  fun self =>
    match channels self !! channel with
    | Some c => (Ok c, self)
    | None => (Raise KeyError, self)
    end.

Definition set_messages (c : ChannelItem) (msgs : gmap string Message) : ChannelItem :=
  mk_ChannelItem (ch_address c) (Some msgs) (ch_title c) (ch_summary c)
                 (ch_description c) (ch_servers c).

(** [channel_obj] is the object stored under [self.channels[channel]], not a
    copy: a write to [channel_obj.messages] is a write to the document. *)
Definition channel_obj_set_messages (channel : string) (msgs : gmap string Message)
  : M AsyncAPIDoc unit :=
  fun self =>
    (Ok tt, set_channels self (alter (fun c => set_messages c msgs) channel (channels self))).

(** [channel_obj.messages], once it is a dict *)
Definition channel_obj_messages (channel : string) : M AsyncAPIDoc (gmap string Message) :=
  fun self =>
    match channels self !! channel with
    | Some c =>
        match ch_messages c with
        | Some msgs => (Ok msgs, self)
        | None => (Raise TypeError, self)
        end
    | None => (Raise KeyError, self)
    end.

(** [channel_obj.messages[k] = m] *)
Definition channel_obj_messages_setitem (channel k : string) (m : Message)
  : M AsyncAPIDoc unit :=
  (msgs <- channel_obj_messages channel ;;
   channel_obj_set_messages channel (<[k := m]> msgs))%py.

(** [self.components.schemas[name] = schema] *)
Definition schemas_setitem (name : string) (schema : schema_node) : M AsyncAPIDoc unit :=
  fun self =>
    (Ok tt,
     mk_AsyncAPIDoc (info self) (servers self) (asyncapi self) (channels self)
       (operations self)
       (mk_Components (comp_messages (components self))
                      (<[name := schema]> (comp_schemas (components self))))).

(** [self.operations[id] = op] *)
Definition operations_setitem (id : string) (op : Operation) : M AsyncAPIDoc unit :=
  fun self =>
    (Ok tt,
     mk_AsyncAPIDoc (info self) (servers self) (asyncapi self) (channels self)
                    (<[id := op]> (operations self)) (components self)).

(** Truth value of a dict-valued optional field: [None] and [{}] are false. *)
Definition messages_truthy (o : option (gmap string Message)) : bool :=
  match o with
  | Some msgs => negb (bool_decide (msgs = ∅))
  | None => false
  end.

Definition tags_of (tags : option (list string)) : option (list Tag) :=
  match tags with
  | Some (t :: ts) => Some (map (fun t => mk_Tag t None) (t :: ts))
  | _ => None
  end.

(** The id under which the event is registered: a leading ["on_"], in any
    case, is cut off. *)
Definition event_id (id : string) : string :=
  if startswith "on_" (lower id) then slice_from 3 id else id.

(** [payload_prefix = id.title().replace("_", "")] *)
Definition payload_prefix (id : string) : string := remove_char "_" (title id).

(** pydantic checks [Operation.action] against [Literal['send', 'receive']]. *)
Definition valid_action (action : string) : bool :=
  String.eqb action "send" || String.eqb action "receive".

(** The local variables that the handler block may assign. [ack_title] is
    bound nowhere else: [None] is the unbound variable. *)
Record locals := mk_locals {
  l_name : option string;
  l_description : option string;
  l_payload_model : option model_arg;
  l_ack_data_model : option model_arg;
  l_ack_title : option string
}.

Section WithClasses.

Variable classes : class_env.

(** The interpreter's recursion limit, counted in nested [rewrite_type]
    calls. *)
Variable recursion_limit : nat.

Definition rewrite := rewrite_type classes recursion_limit.

(** The loop [for param_name in param_names: fields[param_name] = ...] *)
Fixpoint for_params (type_hints : dict ty) (param_names : list string)
    (fields : dict ty) : M caches (dict ty) :=
  match param_names with
  | [] => ret fields
  | param_name :: rest =>
      match dict_get type_hints param_name with
      | None => raise KeyError
      | Some param_type =>
          (field_type <- rewrite param_type ;;
           for_params type_hints rest (dict_set fields param_name field_type))%py
      end
  end.

(** The acknowledgement branch of the handler block, inside its [try]:
    [ack_title] is assigned before [rewrite_type] runs, so an exception of
    [rewrite_type] leaves it bound and the model absent. *)
Definition synthesize_ack (prefix : string) (return_type : ty)
  : M caches (option string * option model_arg) :=
  if negb (is_NoneType return_type) then
    fun c =>
      let ack_title := prefix +:+ "Ack" in
      match rewrite return_type c with
      | (Ok return_type', c1) =>
          match create_model classes (prefix +:+ "Ack")
                  [("success", bool_); ("error", Optional Any); ("data", return_type')] c1 with
          | (Ok M, c2) => (Ok (Some ack_title, Some (ModelClass M)), c2)
          | (Raise _, c2) => (Ok (Some ack_title, None), c2)
          end
      | (Raise _, c1) => (Ok (Some ack_title, None), c1)
      end
  else ret (None, None).

(** The first half of the block [if handler: ...]: the defaults of [name]
    and [description], and the payload model. The loop over the parameters
    stands outside the [try]: an exception of [rewrite_type] leaves
    [add_event]. The [try] around [create_model] swallows what it raises. *)
Definition handler_payload (handler : Handler) (id : string) (a : add_event_args)
  : M caches locals :=
  (let name := Some (or_else (arg_name a) (handler_name handler)) in
   let description := if negb (str_truthy (arg_description a)) then handler_doc handler
                      else arg_description a in
   let type_hints := get_type_hints handler in
   let param_names := removelast (dict_keys type_hints) in
   fields <- for_params type_hints param_names [] ;;
   payload_model <-
     match arg_payload_model a with
     | None =>
         fun c =>
           match create_model classes (payload_prefix id +:+ "Payload") fields c with
           | (Ok M, c') => (Ok (Some (ModelClass M)), c')
           | (Raise _, c') => (Ok None, c')
           end
     | Some m => ret (Some m)
     end ;;
   ret (mk_locals name description payload_model (arg_ack_data_model a) None))%py.

(** The block [if handler: ...] *)
Definition handler_block (handler : Handler) (id : string) (a : add_event_args)
  : M caches locals :=
  (l <- handler_payload handler id a ;;
   match dict_get (get_type_hints handler) "return", arg_ack_data_model a with
   | Some return_type, None =>
       ack <- synthesize_ack (payload_prefix id) return_type ;;
       ret (mk_locals (l_name l) (l_description l) (l_payload_model l) (snd ack) (fst ack))
   | _, _ => ret l
   end)%py.

Definition schema_path (name : string) : string := "/components/schemas/" +:+ name.

(** The block [if payload_model: ...]; it answers the local [payload]. *)
Definition register_payload (payload_model : option model_arg)
  : M AsyncAPIDoc (option Reference) :=
  match payload_model with
  | None => ret None
  | Some pm =>
      match name_of pm, pm with
      | Ok payload_schema_name, ModelClass m =>
          (schemas_setitem payload_schema_name
             (PydanticSchema m (schema_path payload_schema_name)) ;;
           ret (Some (make_ref (schema_path payload_schema_name))))%py
      | Raise e, _ => raise e
      | Ok _, NotProvided => raise AttributeError
      end
  end.

(** The block [if ack_data_model: ...]; it answers the local [reply]. *)
Definition register_ack (channel id name : string) (channel_ref : Reference)
    (payload : option Reference) (tags : option (list string))
    (ack_data_model : option model_arg) (ack_title : option string)
  : M AsyncAPIDoc (option OperationReply) :=
  match ack_data_model with
  | None => ret None
  | Some am =>
      match name_of am, am with
      | Ok ack_schema_name, ModelClass m =>
          (let ack := make_ref (schema_path ack_schema_name) in
           schemas_setitem ack_schema_name
             (PydanticSchema m (schema_path ack_schema_name)) ;;
           match ack_title with
           | None => raise UnboundLocalError
           | Some ack_title =>
               let ack_message_obj :=
                 mk_Message (Some (name +:+ "_ack")) (Some ack_title) None None
                            (match payload with Some _ => Some ack | None => None end)
                            (tags_of tags) in
               let ack_id := id +:+ "Ack" in
               channel_obj_messages_setitem channel ack_id ack_message_obj ;;
               let ack_msg_ref :=
                 make_ref ("/channels/" +:+ channel +:+ "/messages/" +:+ ack_id) in
               ret (Some (mk_OperationReply (Some channel_ref) (Some [ack_msg_ref])))
           end)%py
      | Raise e, _ => raise e
      | Ok _, NotProvided => raise AttributeError
      end
  end.

(** The local variables after the block [if handler: ...], taken or not. *)
Definition event_locals (id : string) (a : add_event_args) : M caches locals :=
  match arg_handler a with
  | Some handler => handler_block handler id a
  | None => ret (mk_locals (arg_name a) (arg_description a)
                           (arg_payload_model a) (arg_ack_data_model a) None)
  end.

(** [name] and [title] after their last defaults. *)
Definition event_name (id : string) (l : locals) : string := or_else (l_name l) id.
Definition event_title (id : string) (a : add_event_args) (l : locals) : string :=
  or_else (arg_title a) (event_name id l).

(** The dict [message_obj], as [Message.parse_obj] reads it. *)
Definition message_obj (id : string) (a : add_event_args) (l : locals)
    (payload : option Reference) : Message :=
  mk_Message (Some (event_name id l)) (Some (event_title id a l)) (arg_summary a)
             (l_description l) payload (tags_of (arg_tags a)).

(** The dict [operation_obj], as [Operation.parse_obj] reads it. *)
Definition operation_obj (channel id : string) (a : add_event_args) (l : locals)
    (reply : option OperationReply) : Operation :=
  mk_Operation (arg_action a) (make_ref ("/channels/" +:+ channel))
               (Some (event_title id a l)) (Some id)
               (Some [make_ref ("/channels/" +:+ channel +:+ "/messages/" +:+ id)])
               reply (tags_of (arg_tags a)).

(** What [add_event] does once the channel is found and the id is new. *)
Definition register_event (channel id : string) (a : add_event_args) : M world unit :=
  (let channel_ref := make_ref ("/channels/" +:+ channel) in
   l <- on_mem (event_locals id a) ;;
   payload <- on_doc (register_payload (l_payload_model l)) ;;
   reply <- on_doc (register_ack channel id (event_name id l) channel_ref payload
                                 (arg_tags a) (l_ack_data_model l) (l_ack_title l)) ;;
   on_doc (channel_obj_messages_setitem channel id (message_obj id a l payload)) ;;
   if negb (valid_action (arg_action a))
   then raise (Exception_ "ValidationError")
   else on_doc (operations_setitem (channel +:+ "/" +:+ id)
                                   (operation_obj channel id a l reply)))%py.

(** [add_event]. [resolve_ref] is given the stored [ChannelItem], an object
    without a [ref] attribute, and hands it back; the branch for a resolved
    pointer is there for the type only. *)
Definition add_event (a : add_event_args) : M world unit :=
  (let id := event_id (arg_id a) in
   let channel := sanitize_id (arg_channel a) in
   stored <- on_doc (channels_getitem channel) ;;
   w <- get ;;
   resolved <- lift_result (resolve_ref (doc w) (ArgObj stored)) ;;
   match resolved with
   | Target _ => raise TypeError
   | Same channel_obj =>
       (if negb (messages_truthy (ch_messages channel_obj))
        then on_doc (channel_obj_set_messages channel ∅) else ret tt) ;;
       messages <- on_doc (channel_obj_messages channel) ;;
       if bool_decide (is_Some (messages !! id))
       then raise (Exception_ ("Message " +:+ id +:+ " already in " +:+ channel))
       else register_event channel id a
   end)%py.

End WithClasses.

End Events.

Import Events.

(** ** Invariants of the caches *)

Module Invariants.

Section WithClasses.

Variable classes : class_env.

(** The caches only grow: an entry, once written, stays as it is. *)
Definition caches_le (c c' : caches) : Prop :=
  next_id c <= next_id c' /\
  _ref_cache c ⊆ _ref_cache c' /\
  _dc_cache c ⊆ _dc_cache c'.

Definition erase_fields (d : dict ty) : dict ty :=
  map (fun p => (fst p, erase (snd p))) d.

(** Every cached class has the shape of the schema type of its key. *)
Definition shapes_cached (c : caches) : Prop :=
  (forall cls R, _ref_cache c !! cls = Some R ->
     erase R = UUIDRef 0 (cls +:+ "UUIDRef")) /\
  (forall cls M, _dc_cache c !! cls = Some M ->
     exists n, schema_shape classes n (Dataclass cls) = Some (erase M)).

(** The keyword arguments built from field names and field types, by
    successive item assignment. *)
Fixpoint dict_fill (acc : dict ty) (names : list string) (types : list ty) : dict ty :=
  match names, types with
  | k :: names', t :: types' => dict_fill (dict_set acc k t) names' types'
  | _, _ => acc
  end.

(** Every cached model is the model of its key: named after it, with the
    fields that pydantic takes of the fields of the dataclass, each typed
    as [rewrite_type] now types it. *)
Definition models_cached (c : caches) : Prop :=
  forall cls M, _dc_cache c !! cls = Some M ->
    exists id types kept,
      pydantic_fields classes
        (dict_fill [] (map fst (dataclass_fields classes cls)) types) = Ok kept /\
      M = Model id (cls +:+ "Schema") kept /\
      Forall2 (fun f t => exists n, rewrite_type classes n (snd f) c = (Ok t, c))
              (dataclass_fields classes cls) types.

Definition caches_sound (c : caches) : Prop :=
  shapes_cached c /\ models_cached c.

End WithClasses.

End Invariants.

Import Invariants.

(** ** The document between the checks of [add_event] and the registration *)

(** [self] once [channel_obj.messages] is a dict: a missing or empty table
    of messages has been replaced by a new empty one. *)
Definition with_messages_dict (channel : string) (self : AsyncAPIDoc) : AsyncAPIDoc :=
  match channels self !! channel with
  | Some ch =>
      if messages_truthy (ch_messages ch) then self
      else set_channels self (alter (fun c => set_messages c ∅) channel (channels self))
  | None => self
  end.

(** The block [if ack_data_model: ...] in one piece: what it answers and
    the document it leaves. *)
Definition register_ack_result (channel id name : string) (channel_ref : Reference)
    (payload : option Reference) (tags : option (list string))
    (ack_data_model : option model_arg) (ack_title : option string)
    (self : AsyncAPIDoc) : result (option OperationReply) * AsyncAPIDoc :=
  match ack_data_model with
  | None => (Ok None, self)
  | Some NotProvided => (Raise AttributeError, self)
  | Some (ModelClass m) =>
      let self1 := snd (schemas_setitem (model_name m)
                          (PydanticSchema m (schema_path (model_name m))) self) in
      match ack_title with
      | None => (Raise UnboundLocalError, self1)
      | Some ack_title =>
          match channel_obj_messages_setitem channel (id +:+ "Ack")
                  (mk_Message (Some (name +:+ "_ack")) (Some ack_title) None None
                     (match payload with
                      | Some _ => Some (make_ref (schema_path (model_name m)))
                      | None => None
                      end)
                     (tags_of tags)) self1 with
          | (Ok _, self2) =>
              (Ok (Some (mk_OperationReply (Some channel_ref)
                           (Some [make_ref ("/channels/" +:+ channel +:+ "/messages/"
                                            +:+ (id +:+ "Ack"))]))), self2)
          | (Raise e, self2) => (Raise e, self2)
          end
      end
  end.

(** ** The states the builder reaches *)

Section Reachable.

Variable classes : class_env.
Variable recursion_limit : nat.

(** A document made by [default_init], with the caches of a fresh process,
    and whatever [add_global_tag], [add_channel], [add_event] and
    [rewrite_type] make of it, whether they return or raise. *)
Inductive built : world -> Prop :=
| built_init version title description server_url server_name server_protocol :
    built (mk_world (default_init version title description
                                  server_url server_name server_protocol) no_caches)
| built_global_tag w name description r self' :
    built w ->
    add_global_tag name description (doc w) = (r, self') ->
    built (mk_world self' (mem w))
| built_channel w id address title summary description servers r self' :
    built w ->
    add_channel id address title summary description servers (doc w) = (r, self') ->
    built (mk_world self' (mem w))
| built_event w a r w' :
    built w ->
    add_event classes recursion_limit a w = (r, w') ->
    built w'
| built_rewrite w depth tp r c' :
    built w ->
    rewrite_type classes depth tp (mem w) = (r, c') ->
    built (mk_world (doc w) c').

End Reachable.

(** ** Concrete documents, classes and handlers *)

Module Examples.

Definition demo_doc : AsyncAPIDoc :=
  default_init "1.0.0" "Demo Chat API" "Demo Chat API"
               "http://localhost:5000" "BACKEND" "socketio".

(** The channel that [add_channel("chat")] creates. *)
Definition chat_channel : ChannelItem :=
  mk_ChannelItem (Some "chat") None (Some "Chat") None None None.

(** The document after [add_channel("chat")]. *)
Definition chat_doc : AsyncAPIDoc :=
  snd (add_channel "chat" None None None None None demo_doc).

(** Five dataclasses: [Point(x: int, y: int)],
    [Segment(start: Point, stop: Point, labels: List[str])], the
    self-referential [Node(value: int, next: Optional[Node])],
    [Priv(_x: int, y: int)], whose first field is named with an underscore,
    and [Shadow(json: str)], whose field has the name of a method of
    [BaseModel]. *)
Definition example_fields (cls : string) : list (string * ty) :=
  if String.eqb cls "Point" then [("x", Leaf "int"); ("y", Leaf "int")]
  else if String.eqb cls "Segment" then
    [("start", Dataclass "Point"); ("stop", Dataclass "Point");
     ("labels", Generic o_list [Leaf "str"])]
  else if String.eqb cls "Node" then
    [("value", Leaf "int"); ("next", Optional (Dataclass "Node"))]
  else if String.eqb cls "Priv" then
    [("_x", Leaf "int"); ("y", Leaf "int")]
  else if String.eqb cls "Shadow" then
    [("json", Leaf "str")]
  else [].

(** The attributes of [BaseModel] that a field name may not shadow
    (pydantic 1.10). *)
Definition BaseModel_attributes : list string :=
  ["Config"; "construct"; "copy"; "dict"; "from_orm"; "json"; "parse_file";
   "parse_obj"; "parse_raw"; "schema"; "schema_json"; "update_forward_refs";
   "validate"].

(** A type that mentions [Plain], a class of the application that is
    neither a dataclass nor a model ([class Plain: pass]): pydantic finds no
    validator for it. *)
Fixpoint mentions_Plain (t : ty) : bool :=
  match t with
  | Leaf name => String.eqb name "Plain"
  | Generic _ args => existsb mentions_Plain args
  | _ => false
  end.

(** pydantic 1.x on the fields of the examples: a name with a leading
    underscore is ignored, a name of [BaseModel_attributes] is refused with
    [NameError], a type that mentions [Plain] with [RuntimeError]. *)
Definition example_pydantic (name : string) (t : ty) : verdict :=
  if startswith "_" name && negb (String.eqb name "__root__") then Ignore
  else if bool_decide (name ∈ BaseModel_attributes) then Refuse NameError
  else if mentions_Plain t then Refuse RuntimeError
  else Take.

Definition example_classes : class_env :=
  mk_class_env example_fields example_pydantic.

Definition PointSchema : ty :=
  Model 0 "PointSchema" [("x", Leaf "int"); ("y", Leaf "int")].

Definition point_cached : caches :=
  mk_caches 1 ∅ {["Point" := PointSchema]}.

Definition SegmentSchema : ty :=
  Model 1 "SegmentSchema"
        [("start", PointSchema); ("stop", PointSchema);
         ("labels", Generic o_list [Leaf "str"])].

Definition segment_cached : caches :=
  mk_caches 2 ∅ (<["Segment" := SegmentSchema]> {["Point" := PointSchema]}).

(** The state after [default_init] and [add_channel("chat")], before any
    type was rewritten. *)
Definition chat_world : world := mk_world chat_doc no_caches.

Definition no_args (channel id : string) : add_event_args :=
  mk_args channel id None None None None None None None None "receive".

Definition with_handler (a : add_event_args) (h : Handler) : add_event_args :=
  mk_args (arg_channel a) (arg_id a) (Some h) (arg_title a) (arg_name a) (arg_summary a)
          (arg_description a) (arg_tags a) (arg_ack_data_model a) (arg_payload_model a)
          (arg_action a).

Definition with_ack (a : add_event_args) (m : model_arg) : add_event_args :=
  mk_args (arg_channel a) (arg_id a) (arg_handler a) (arg_title a) (arg_name a)
          (arg_summary a) (arg_description a) (arg_tags a) (Some m) (arg_payload_model a)
          (arg_action a).

(** [def on_message(text: str) -> bool] *)
Definition on_message : Handler :=
  mk_Handler "on_message" None [("text", Leaf "str")] (Some bool_).

(** [def on_message(text: str)], with no declared return type *)
Definition on_message_unannotated : Handler :=
  mk_Handler "on_message" None [("text", Leaf "str")] None.


(** [def on_message(text: str) -> Plain] *)
Definition on_message_Plain : Handler :=
  mk_Handler "on_message" None [("text", Leaf "str")] (Some (Leaf "Plain")).

(** [def on_message(json: str) -> bool], whose parameter has the name of a
    method of [BaseModel] *)
Definition on_message_json : Handler :=
  mk_Handler "on_message" None [("json", Leaf "str")] (Some bool_).

(** [def on_message(_x: int, y: int) -> bool], whose first parameter has a
    name with a leading underscore *)
Definition on_message_private : Handler :=
  mk_Handler "on_message" None [("_x", Leaf "int"); ("y", Leaf "int")] (Some bool_).

(** [add_event("chat", "on_message", handler=on_message)] *)
Definition message_event : add_event_args :=
  with_handler (no_args "chat" "on_message") on_message.

(** The state after that call. *)
Definition message_world : world :=
  snd (add_event example_classes 10 message_event chat_world).

(** A hand-written pydantic model [class Receipt(BaseModel): ok: bool]. *)
Definition Receipt : model_cls := mk_model 100 "Receipt" [("ok", bool_)].

End Examples.

Import Examples.

(** ** The other builder operations: [add_new_sender] *)

Module Legacy.


Section WithDedent.

(** [textwrap.dedent], of the Python standard library. *)
Variable dedent : string -> string.





End WithDedent.

End Legacy.

Import Legacy.

(** ** Notions used by the further properties *)

(** Whether the character [c] occurs in [s]. *)
Fixpoint has_char (c : ascii) (s : string) : bool :=
  match s with
  | EmptyString => false
  | String a s' => if Ascii.eqb a c then true else has_char c s'
  end.

(** The public methods of a Python [dict]. *)
Definition dict_methods : list string :=
  ["clear"; "copy"; "fromkeys"; "get"; "items"; "keys"; "pop"; "popitem";
   "setdefault"; "update"; "values"].

(** Whether [p] may name an attribute of a [dict]: one of its public
    methods, or a name with a leading underscore, as its special methods
    have. At any other name, [getattr] of a [dict] raises
    [AttributeError]. *)
Definition dict_attribute (p : string) : bool :=
  startswith "_" p || bool_decide (p ∈ dict_methods).

(** Whether two descriptors are the same: the same kind of leaf or class
    with the same name (and number, for a class made at run time), or
    generics of the same origin over the same arguments. *)
Definition origin_eqb (o o' : origin) : bool :=
  match o, o' with
  | o_list, o_list | o_set, o_set | o_dict, o_dict
  | o_tuple, o_tuple | o_Union, o_Union => true
  | o_other n, o_other n' => String.eqb n n'
  | _, _ => false
  end.

Fixpoint ty_eqb (t t' : ty) {struct t} : bool :=
  match t, t' with
  | Leaf n, Leaf n' => String.eqb n n'
  | NoneType, NoneType => true
  | Ellipsis_, Ellipsis_ => true
  | PeeweeModel c, PeeweeModel c' => String.eqb c c'
  | Dataclass c, Dataclass c' => String.eqb c c'
  | Generic o args, Generic o' args' =>
      origin_eqb o o' &&
      (fix all (l l' : list ty) : bool :=
         match l, l' with
         | [], [] => true
         | a :: l, a' :: l' => ty_eqb a a' && all l l'
         | _, _ => false
         end) args args'
  | UUIDRef i n, UUIDRef i' n' => Nat.eqb i i' && String.eqb n n'
  | Model i n fs, Model i' n' fs' =>
      Nat.eqb i i' && String.eqb n n' &&
      (fix all (l l' : list (string * ty)) : bool :=
         match l, l' with
         | [], [] => true
         | (k, a) :: l, (k', a') :: l' => String.eqb k k' && ty_eqb a a' && all l l'
         | _, _ => false
         end) fs fs'
  | _, _ => false
  end.

(** No descriptor stands twice in [l]. *)
Fixpoint distinct (l : list ty) : bool :=
  match l with
  | [] => true
  | t :: l' => negb (existsb (ty_eqb t) l') && distinct l'
  end.

Definition is_Union (t : ty) : bool :=
  match t with Generic o_Union _ => true | _ => false end.

(** A type as an annotation gives it, with no peewee model and no dataclass
    in it:
    - [list] and [set] have one argument and [dict] has two;
    - [tuple] has at least one argument (the bare [typing.Tuple] comes back
      as [Tuple[()]]), and [...] stands only as the second of two;
    - the members of a union are descriptors that differ from one another,
      none of them a union, as [typing.Union] makes its members (two
      spellings of one generic, [list[int]] and [List[int]], are one
      descriptor and would be merged once rewritten);
    - under any other origin ([Callable], [Literal], ...) the arguments are
      such types, or [...]. *)
Fixpoint plain (tp : ty) : bool :=
  match tp with
  | PeeweeModel _ | Dataclass _ | Ellipsis_ => false
  | Generic o args =>
      match o with
      | o_list | o_set => Nat.eqb (List.length args) 1 && forallb plain args
      | o_dict => Nat.eqb (List.length args) 2 && forallb plain args
      | o_tuple =>
          match args with
          | [] => false
          | [a0; Ellipsis_] => plain a0
          | _ => forallb plain args
          end
      | o_Union =>
          distinct args && forallb (fun a => negb (is_Union a)) args && forallb plain args
      | o_other _ => forallb (fun a => is_Ellipsis a || plain a) args
      end
  | _ => true
  end.

(** The nesting of generics in a type. *)
Fixpoint height (tp : ty) : nat :=
  match tp with
  | Generic _ args => S (list_max (map height args))
  | _ => 0
  end.

(** The attributes of a channel other than its messages. *)
Definition channel_meta (c : ChannelItem)
  : option string * option string * option string * option string * option (list Reference) :=
  (ch_address c, ch_title c, ch_summary c, ch_description c, ch_servers c).

(** [self'] differs from [self] at most in the schemas, in the messages
    [id] and [<id>Ack] of the channel [channel], and in the operation
    [<channel>/<id>]. *)
Definition same_outside (channel id : string) (self self' : AsyncAPIDoc) : Prop :=
  info self' = info self /\
  servers self' = servers self /\
  asyncapi self' = asyncapi self /\
  comp_messages (components self') = comp_messages (components self) /\
  (forall c, channel_meta <$> channels self' !! c = channel_meta <$> channels self !! c) /\
  (forall c i, (c, i) <> (channel, id) -> (c, i) <> (channel, id +:+ "Ack") ->
     message_at self' c i = message_at self c i) /\
  (forall k, k <> channel +:+ "/" +:+ id -> operations self' !! k = operations self !! k).

(** The operation [op], stored under [k], is the operation of a message
    that the document holds: [k] is [<channel>/<id>] for a channel key
    without slash and a message [id] of that channel, the pointers of [op]
    lead to that channel and to that message, the action is one that
    [Operation] accepts, and a reply points to the message [<id>Ack] of the
    same channel, which the document holds as well. *)
Definition operation_refers (self : AsyncAPIDoc) (k : string) (op : Operation) : Prop :=
  exists c i,
    k = c +:+ "/" +:+ i /\
    has_char "/" c = false /\
    is_Some (message_at self c i) /\
    op_channel op = make_ref ("/channels/" +:+ c) /\
    op_messages op = Some [make_ref ("/channels/" +:+ c +:+ "/messages/" +:+ i)] /\
    op_summary op = Some i /\
    valid_action (op_action op) = true /\
    match op_reply op with
    | None => True
    | Some reply =>
        reply_channel reply = Some (make_ref ("/channels/" +:+ c)) /\
        reply_messages reply =
          Some [make_ref ("/channels/" +:+ c +:+ "/messages/" +:+ (i +:+ "Ack"))] /\
        is_Some (message_at self c (i +:+ "Ack"))
    end.

(** The payload of the message [m], when it has one, is a pointer
    [#/components/schemas/<name>] to a schema that [components.schemas]
    holds. *)
Definition payload_registered (self : AsyncAPIDoc) (m : Message) : Prop :=
  forall r, msg_payload m = Some r ->
    exists name, r = make_ref (schema_path name) /\
                 is_Some (comp_schemas (components self) !! name).

(** No key of [channels] holds a slash, and every operation is the
    operation of a message of the document. *)
Definition well_keyed (self : AsyncAPIDoc) : Prop :=
  (forall c ch, channels self !! c = Some ch -> has_char "/" c = false) /\
  (forall k op, operations self !! k = Some op -> operation_refers self k op).

(** A document whose pointers lead somewhere. *)
Definition consistent (self : AsyncAPIDoc) : Prop :=
  well_keyed self /\
  (forall c i m, message_at self c i = Some m -> payload_registered self m).

(** [self'] has what [self] has, and what it has more is consistent: new
    channel keys hold no slash, no message and no schema went away, and a
    message or an operation that is new or changed leads somewhere in
    [self']. *)
Definition extends (self self' : AsyncAPIDoc) : Prop :=
  (forall c, is_Some (channels self' !! c) ->
     is_Some (channels self !! c) \/ has_char "/" c = false) /\
  (forall c i, is_Some (message_at self c i) -> is_Some (message_at self' c i)) /\
  (forall n, is_Some (comp_schemas (components self) !! n) ->
     is_Some (comp_schemas (components self') !! n)) /\
  (forall c i m, message_at self' c i = Some m ->
     message_at self c i = Some m \/ payload_registered self' m) /\
  (forall k op, operations self' !! k = Some op ->
     operations self !! k = Some op \/ operation_refers self' k op).

(** ** Two channels with an event of the same id *)

(** The document after [add_channel("chat")] and [add_channel("news")]. *)
Definition news_doc : AsyncAPIDoc :=
  snd (add_channel "news" None None None None None chat_doc).

(** [def on_message(count: int) -> bool] *)
Definition on_count : Handler :=
  mk_Handler "on_message" None [("count", Leaf "int")] (Some bool_).

(** [add_event("news", "on_message", handler=on_message)], for that second
    handler. *)
Definition count_event : add_event_args :=
  with_handler (no_args "news" "on_message") on_count.

(** The states after [add_event("chat", ...)] and then [add_event("news", ...)]. *)
Definition chat_message_world : world :=
  snd (add_event example_classes 10 message_event (mk_world news_doc no_caches)).

Definition news_message_world : world :=
  snd (add_event example_classes 10 count_event chat_message_world).

(** * Properties of the type rewriter *)

Section RewriterFacts.

Variable classes : class_env.

Local Abbreviation rw := (rewrite_type classes).
Local Abbreviation shape := (schema_shape classes).

Ltac inv_pair := simplify_eq.

(** ** What pydantic takes does not depend on the numbers of the classes *)

Lemma erase_idem : forall t, erase (erase t) = erase t.
Proof.
  fix IH 1. intros [name| | |cls|cls|o args|id name|id name fields]; simpl; try reflexivity.
  - f_equal. induction args as [|a args IHa]; simpl; [reflexivity|]. by rewrite IH, IHa.
  - f_equal. induction fields as [|[k v] fields IHf]; simpl; [reflexivity|].
    by rewrite IH, IHf.
Qed.

Lemma taken_erase fs :
  taken classes (erase_fields fs) =
  match taken classes fs with
  | Ok kept => Ok (erase_fields kept)
  | Raise e => Raise e
  end.
Proof.
  induction fs as [|[name t] fs IH]; simpl; [reflexivity|].
  rewrite erase_idem. destruct (pydantic_field classes name (erase t)); [|exact IH|reflexivity].
  rewrite IH. by destruct (taken classes fs).
Qed.

Lemma custom_root_mixed_erase kept :
  custom_root_mixed (erase_fields kept) = custom_root_mixed kept.
Proof.
  unfold custom_root_mixed, erase_fields. rewrite length_map. f_equal.
  induction kept as [|[k v] kept IH]; simpl; [reflexivity|]. by rewrite IH.
Qed.

Lemma pydantic_fields_erase fs :
  pydantic_fields classes (erase_fields fs) =
  match pydantic_fields classes fs with
  | Ok kept => Ok (erase_fields kept)
  | Raise e => Raise e
  end.
Proof.
  unfold pydantic_fields. rewrite taken_erase.
  destruct (taken classes fs) as [kept|e]; [|reflexivity].
  rewrite custom_root_mixed_erase. by destruct (custom_root_mixed kept).
Qed.

(** What pydantic keeps are fields that were given, in their order. *)
Lemma taken_sublist fs kept : taken classes fs = Ok kept -> sublist kept fs.
Proof.
  revert kept. induction fs as [|[name t] fs IH]; intros kept H; simpl in H.
  - injection H as <-. constructor.
  - destruct (pydantic_field classes name (erase t)); [| |discriminate].
    + destruct (taken classes fs) as [k|e]; [|discriminate]. injection H as <-.
      constructor. by apply IH.
    + constructor. by apply IH.
Qed.

(** Where pydantic ignores no name, the fields it keeps are all of them. *)
Lemma taken_all fs kept :
  Forall (fun name => forall t, pydantic_field classes name t <> Ignore) (map fst fs) ->
  taken classes fs = Ok kept -> kept = fs.
Proof.
  revert kept. induction fs as [|[name t] fs IH]; intros kept Hall H; simpl in H.
  - by injection H as <-.
  - simpl in Hall. apply Forall_cons in Hall as [Hf Hall].
    destruct (pydantic_field classes name (erase t)) eqn:E; [|by apply Hf in E|discriminate].
    destruct (taken classes fs) as [k|e]; [|discriminate]. injection H as <-.
    by rewrite (IH k Hall).
Qed.

Lemma pydantic_fields_taken fs kept :
  pydantic_fields classes fs = Ok kept -> taken classes fs = Ok kept.
Proof.
  unfold pydantic_fields. destruct (taken classes fs) as [k|e]; [|discriminate].
  destruct (custom_root_mixed k); [discriminate|]. by intros [= <-].
Qed.

(** Where pydantic takes every field, it keeps them all. *)
Lemma taken_take fs :
  Forall (fun f => pydantic_field classes (fst f) (erase (snd f)) = Take) fs ->
  taken classes fs = Ok fs.
Proof.
  induction 1 as [|[name t] fs Hf _ IH]; simpl; [reflexivity|].
  simpl in Hf. by rewrite Hf, IH.
Qed.

Lemma pydantic_fields_take fs :
  Forall (fun f => pydantic_field classes (fst f) (erase (snd f)) = Take) fs ->
  custom_root_mixed fs = false ->
  pydantic_fields classes fs = Ok fs.
Proof. intros Hall Hroot. unfold pydantic_fields. by rewrite (taken_take fs Hall), Hroot. Qed.

(** The dataclass branch of [rewrite_type], step by step. *)
Lemma rewrite_type_dataclass_eq d cls c :
  rw (S d) (Dataclass cls) c =
  match _dc_cache c !! cls with
  | Some M => (Ok M, c)
  | None =>
      match for_fields (rw d) (dataclass_fields classes cls) [] c with
      | (Ok fs, c1) =>
          match pydantic_fields classes fs with
          | Ok kept =>
              (Ok (Model (next_id c1) (cls +:+ "Schema") kept),
               mk_caches (S (next_id c1)) (_ref_cache c1)
                         (<[cls := Model (next_id c1) (cls +:+ "Schema") kept]> (_dc_cache c1)))
          | Raise e => (Raise e, c1)
          end
      | (Raise e, c1) => (Raise e, c1)
      end
  end.
Proof.
  simpl. destruct (_dc_cache c !! cls); [reflexivity|]. unfold bind.
  destruct (for_fields _ _ _ c) as [[fs|e] c1]; [|reflexivity].
  unfold create_model. by destruct (pydantic_fields classes fs).
Qed.

Lemma caches_le_refl c : caches_le c c.
Proof. repeat split; reflexivity. Qed.

Lemma caches_le_trans c1 c2 c3 : caches_le c1 c2 -> caches_le c2 c3 -> caches_le c1 c3.
Proof.
  intros (Hn & Hr & Hd) (Hn' & Hr' & Hd'). repeat split.
  - lia.
  - etrans; eassumption.
  - etrans; eassumption.
Qed.

Lemma mapM_grows (f : ty -> M caches ty) :
  (forall t c res c', f t c = (res, c') -> caches_le c c') ->
  forall l c res c', mapM f l c = (res, c') -> caches_le c c'.
Proof.
  intros Hf l. induction l as [|x l IH]; intros c res c' H; simpl in H.
  - unfold ret in H. inv_pair. apply caches_le_refl.
  - unfold bind in H. destruct (f x c) as [[y|e] c1] eqn:Hx.
    + destruct (mapM f l c1) as [[ys|e] c2] eqn:Hl.
      * unfold ret in H. inv_pair.
        eapply caches_le_trans; [eapply Hf|eapply IH]; eassumption.
      * inv_pair. eapply caches_le_trans; [eapply Hf|eapply IH]; eassumption.
    + inv_pair. eapply Hf; eassumption.
Qed.

Lemma for_fields_grows (f : ty -> M caches ty) :
  (forall t c res c', f t c = (res, c') -> caches_le c c') ->
  forall fs acc c res c', for_fields f fs acc c = (res, c') -> caches_le c c'.
Proof.
  intros Hf fs. induction fs as [|[name ann] fs IH]; intros acc c res c' H; simpl in H.
  - unfold ret in H. inv_pair. apply caches_le_refl.
  - unfold bind in H. destruct (f ann c) as [[t|e] c1] eqn:Hx.
    + eapply caches_le_trans; [eapply Hf|eapply IH]; eassumption.
    + inv_pair. eapply Hf; eassumption.
Qed.

(** A run of [rewrite_type], whatever its outcome, only adds to the caches. *)
Lemma rewrite_type_grows n :
  forall tp c res c', rw n tp c = (res, c') -> caches_le c c'.
Proof.
  induction n as [|d IH]; intros tp c res c' H; simpl in H.
  - unfold raise in H. inv_pair. apply caches_le_refl.
  - destruct tp; try (unfold ret in H; inv_pair; apply caches_le_refl).
    + unfold peewee_uuid_ref in H.
      destruct (_ref_cache c !! cls) eqn:Hc; inv_pair.
      * apply caches_le_refl.
      * repeat split; simpl; [lia| |reflexivity].
        by apply insert_subseteq.
    + destruct (_dc_cache c !! cls) eqn:Hc; inv_pair.
      * apply caches_le_refl.
      * unfold bind in H.
        destruct (for_fields (rw d) (dataclass_fields classes cls) [] c) as [[fs|e] c1] eqn:Hf.
        -- pose proof (for_fields_grows _ IH _ _ _ _ _ Hf) as (Hn & Hr & Hd).
           unfold create_model, modify, ret in H.
           destruct (pydantic_fields classes fs) as [kept|e0]; simpl in H; inv_pair.
           ++ repeat split; simpl; [lia|assumption|].
              by apply insert_subseteq_r.
           ++ by repeat split.
        -- inv_pair. eapply for_fields_grows; eassumption.
    + unfold bind in H.
      destruct (mapM (rw d) args c) as [[args'|e] c1] eqn:Hm.
      * pose proof (mapM_grows _ IH _ _ _ _ Hm) as Hle.
        destruct o; unfold ret, lift_result in H;
          try (destruct (rebuild_container _ args') as [[t|]|e]; inv_pair; exact Hle).
        inv_pair. exact Hle.
      * inv_pair. eapply mapM_grows; eassumption.
Qed.

Lemma mapM_again (f : ty -> M caches ty) :
  (forall t c res c', f t c = (res, c') -> caches_le c c') ->
  (forall t c r c' c'', f t c = (Ok r, c') -> caches_le c' c'' -> f t c'' = (Ok r, c'')) ->
  forall l c rs c' c'',
    mapM f l c = (Ok rs, c') -> caches_le c' c'' -> mapM f l c'' = (Ok rs, c'').
Proof.
  intros Hg Hf l. induction l as [|x l IH]; intros c rs c' c'' H Hle; simpl in *.
  - unfold ret in *. by inv_pair.
  - unfold bind in *. destruct (f x c) as [[y|e] c1] eqn:Hx; [|by inv_pair].
    destruct (mapM f l c1) as [[ys|e] c2] eqn:Hl; [|by inv_pair].
    unfold ret in H. inv_pair.
    assert (caches_le c1 c'') as Hle1.
    { eapply caches_le_trans; [|exact Hle]. eapply mapM_grows; eassumption. }
    rewrite (Hf _ _ _ _ _ Hx Hle1). by rewrite (IH _ _ _ _ Hl Hle).
Qed.

Lemma for_fields_again (f : ty -> M caches ty) :
  (forall t c res c', f t c = (res, c') -> caches_le c c') ->
  (forall t c r c' c'', f t c = (Ok r, c') -> caches_le c' c'' -> f t c'' = (Ok r, c'')) ->
  forall fs acc c out c' c'',
    for_fields f fs acc c = (Ok out, c') -> caches_le c' c'' ->
    for_fields f fs acc c'' = (Ok out, c'').
Proof.
  intros Hg Hf fs. induction fs as [|[name ann] fs IH]; intros acc c out c' c'' H Hle; simpl in *.
  - unfold ret in *. by inv_pair.
  - unfold bind in *. destruct (f ann c) as [[t|e] c1] eqn:Hx; [|by inv_pair].
    assert (caches_le c1 c'') as Hle1.
    { eapply caches_le_trans; [|exact Hle]. eapply for_fields_grows; eassumption. }
    rewrite (Hf _ _ _ _ _ Hx Hle1). eapply IH; eassumption.
Qed.

(** Once [rewrite_type] has answered [r] for [tp], it answers [r] again, and
    writes nothing, in every later state of the caches. *)
Lemma rewrite_type_again n :
  forall tp c r c' c'',
    rw n tp c = (Ok r, c') -> caches_le c' c'' -> rw n tp c'' = (Ok r, c'').
Proof.
  induction n as [|d IH]; intros tp c r c' c'' H Hle; simpl in *.
  - unfold raise in H. inv_pair.
  - destruct tp; try (unfold ret in *; by inv_pair).
    + unfold peewee_uuid_ref in *. destruct Hle as (_ & Hr & _).
      destruct (_ref_cache c !! cls) eqn:Hc; inv_pair.
      * by rewrite (lookup_weaken _ _ _ _ Hc Hr).
      * simpl in Hr.
        erewrite lookup_weaken; [reflexivity| |exact Hr]. apply lookup_insert_eq.
    + destruct Hle as (_ & _ & Hd).
      destruct (_dc_cache c !! cls) eqn:Hc; inv_pair.
      * by rewrite (lookup_weaken _ _ _ _ Hc Hd).
      * unfold bind in H.
        destruct (for_fields (rw d) (dataclass_fields classes cls) [] c) as [[fs|e] c1] eqn:Hf;
          [|by inv_pair].
        unfold create_model, modify, ret in H.
        destruct (pydantic_fields classes fs) as [kept|e0]; simpl in H; [|by inv_pair].
        inv_pair. simpl in Hd.
        erewrite lookup_weaken; [reflexivity| |exact Hd]. apply lookup_insert_eq.
    + unfold bind in *.
      destruct (mapM (rw d) args c) as [[args'|e] c1] eqn:Hm; [|by inv_pair].
      assert (c1 = c') as ->.
      { destruct o; unfold ret, lift_result in H;
          try (destruct (rebuild_container _ args') as [[t|]|e]; by inv_pair).
        by inv_pair. }
      rewrite (mapM_again _ (rewrite_type_grows d) IH _ _ _ _ _ Hm Hle).
      destruct o; unfold ret, lift_result in *;
        try (destruct (rebuild_container _ args') as [[t|]|e]; by inv_pair).
      by inv_pair.
Qed.

(** ** The shape of the result *)

Lemma erase_fields_dict_set acc k v :
  erase_fields (dict_set acc k v) = dict_set (erase_fields acc) k (erase v).
Proof.
  induction acc as [|[k' v'] acc IH]; simpl; [reflexivity|].
  destruct (String.eqb k' k); simpl; [reflexivity|]. by rewrite IH.
Qed.

Lemma shape_fields_mono (sh1 sh2 : ty -> option ty) :
  (forall t x, sh1 t = Some x -> sh2 t = Some x) ->
  forall fs acc out, shape_fields sh1 fs acc = Some out -> shape_fields sh2 fs acc = Some out.
Proof.
  intros Hsh fs. induction fs as [|[name ann] fs IH]; intros acc out H; simpl in *;
    [assumption|].
  destruct (sh1 ann) as [t|] eqn:Ht; [|discriminate].
  rewrite (Hsh _ _ Ht). by apply IH.
Qed.

Lemma shape_args_mono (sh1 sh2 : ty -> option ty) :
  (forall t x, sh1 t = Some x -> sh2 t = Some x) ->
  forall l out, shape_args sh1 l = Some out -> shape_args sh2 l = Some out.
Proof.
  intros Hsh l. induction l as [|x l IH]; intros out H; simpl in *; [assumption|].
  destruct (sh1 x) as [y|] eqn:Hx; [|discriminate].
  destruct (shape_args sh1 l) as [ys|] eqn:Hl; [|discriminate].
  by rewrite (Hsh _ _ Hx), (IH _ eq_refl).
Qed.

(** More levels never change a shape that was found. *)
Lemma schema_shape_mono n :
  forall m tp x, n <= m -> shape n tp = Some x -> shape m tp = Some x.
Proof.
  induction n as [|d IH]; intros m tp x Hle H; simpl in H; [discriminate|].
  destruct m as [|m]; [lia|]. simpl.
  assert (forall t y, shape d t = Some y -> shape m t = Some y) as Hd.
  { intros t y. apply IH. lia. }
  destruct tp; try assumption.
  - destruct (shape_fields (shape d) (dataclass_fields classes cls) []) as [fs|] eqn:Hf;
      [|discriminate].
    by rewrite (shape_fields_mono _ _ Hd _ _ _ Hf).
  - destruct (shape_args (shape d) args) as [args'|] eqn:Ha; [|discriminate].
    by rewrite (shape_args_mono _ _ Hd _ _ Ha).
Qed.

Lemma is_Ellipsis_erase t : is_Ellipsis (erase t) = is_Ellipsis t.
Proof. by destruct t. Qed.

Lemma rebuild_container_erase o args :
  rebuild_container o (map erase args) =
  match rebuild_container o args with
  | Ok (Some t) => Ok (Some (erase t))
  | Ok None => Ok None
  | Raise e => Raise e
  end.
Proof.
  destruct o; simpl; try reflexivity.
  - by destruct args.
  - by destruct args.
  - destruct args as [|a0 [|a1 args]]; reflexivity.
  - destruct args as [|a0 [|a1 [|a2 args]]]; simpl; try reflexivity.
    rewrite is_Ellipsis_erase. by destruct (is_Ellipsis a1).
Qed.

Lemma shapes_cached_empty : shapes_cached classes no_caches.
Proof. split; intros cls x H; simpl in H; by rewrite lookup_empty in H. Qed.

Local Abbreviation shaped c := (shapes_cached classes c).

Lemma mapM_shape (f : ty -> M caches ty) :
  (forall t c res c', shaped c -> f t c = (res, c') ->
     shaped c' /\ forall r, res = Ok r -> exists m, shape m t = Some (erase r)) ->
  forall l c res c', shaped c -> mapM f l c = (res, c') ->
    shaped c' /\
    forall rs, res = Ok rs -> exists m, shape_args (shape m) l = Some (map erase rs).
Proof.
  intros Hf l. induction l as [|x l IH]; intros c res c' Hwf H; simpl in H.
  - unfold ret in H. inv_pair. split; [assumption|]. intros rs [= <-]. by exists 0.
  - unfold bind in H. destruct (f x c) as [[y|e] c1] eqn:Hx.
    + destruct (Hf _ _ _ _ Hwf Hx) as [Hwf1 Hy]. destruct (Hy _ eq_refl) as [m1 Hm1].
      destruct (mapM f l c1) as [[ys|e] c2] eqn:Hl.
      * destruct (IH _ _ _ Hwf1 Hl) as [Hwf2 Hys]. destruct (Hys _ eq_refl) as [m2 Hm2].
        unfold ret in H. inv_pair. split; [assumption|]. intros rs [= <-].
        exists (Nat.max m1 m2). simpl.
        rewrite (schema_shape_mono m1 (Nat.max m1 m2) _ _ ltac:(lia) Hm1).
        by rewrite (shape_args_mono (shape m2) (shape (Nat.max m1 m2))
                      ltac:(intros; eapply schema_shape_mono; [|eassumption]; lia) _ _ Hm2).
      * destruct (IH _ _ _ Hwf1 Hl) as [Hwf2 _]. inv_pair. split; [assumption|]. by intros.
    + destruct (Hf _ _ _ _ Hwf Hx) as [Hwf1 _]. inv_pair. split; [assumption|]. by intros.
Qed.

Lemma for_fields_shape (f : ty -> M caches ty) :
  (forall t c res c', shaped c -> f t c = (res, c') ->
     shaped c' /\ forall r, res = Ok r -> exists m, shape m t = Some (erase r)) ->
  forall fs acc c res c', shaped c -> for_fields f fs acc c = (res, c') ->
    shaped c' /\
    forall out, res = Ok out ->
      exists m, shape_fields (shape m) fs (erase_fields acc) = Some (erase_fields out).
Proof.
  intros Hf fs. induction fs as [|[name ann] fs IH]; intros acc c res c' Hwf H; simpl in H.
  - unfold ret in H. inv_pair. split; [assumption|]. intros out [= <-]. by exists 0.
  - unfold bind in H. destruct (f ann c) as [[t|e] c1] eqn:Hx.
    + destruct (Hf _ _ _ _ Hwf Hx) as [Hwf1 Ht]. destruct (Ht _ eq_refl) as [m1 Hm1].
      destruct (IH _ _ _ _ Hwf1 H) as [Hwf2 Hout]. split; [assumption|].
      intros out ->. destruct (Hout _ eq_refl) as [m2 Hm2].
      exists (Nat.max m1 m2). simpl.
      rewrite (schema_shape_mono m1 (Nat.max m1 m2) _ _ ltac:(lia) Hm1).
      rewrite <- erase_fields_dict_set.
      by apply (shape_fields_mono (shape m2) (shape (Nat.max m1 m2))
                  ltac:(intros; eapply schema_shape_mono; [|eassumption]; lia)).
    + destruct (Hf _ _ _ _ Hwf Hx) as [Hwf1 _]. inv_pair. split; [assumption|]. by intros.
Qed.

(** A run of [rewrite_type] keeps the cached shapes right, whatever its
    outcome, and what it returns has the shape of the schema type of [tp]. *)
Lemma rewrite_type_shape n :
  forall tp c res c', shaped c -> rw n tp c = (res, c') ->
    shaped c' /\ forall r, res = Ok r -> exists m, shape m tp = Some (erase r).
Proof.
  induction n as [|d IH]; intros tp c res c' Hwf H; simpl in H.
  - unfold raise in H. inv_pair. split; [assumption|]. by intros.
  - destruct tp;
      try (unfold ret in H; inv_pair; split; [assumption|]; intros r [= <-]; by exists 1).
    + unfold peewee_uuid_ref in H. destruct (_ref_cache c !! cls) eqn:Hc; inv_pair.
      * split; [assumption|]. intros r [= <-]. exists 1. simpl.
        destruct Hwf as [Hr _]. by rewrite (Hr _ _ Hc).
      * split; [|intros r [= <-]; by exists 1].
        destruct Hwf as [Hr Hd]. split; simpl; [|assumption].
        intros k R. rewrite lookup_insert. case_decide as Hk.
        -- intros [= <-]. by subst.
        -- apply Hr.
    + destruct (_dc_cache c !! cls) eqn:Hc; inv_pair.
      * split; [assumption|]. intros r [= <-]. destruct Hwf as [_ Hd]. by apply Hd in Hc.
      * unfold bind in H.
        destruct (for_fields (rw d) (dataclass_fields classes cls) [] c) as [[fs|e] c1] eqn:Hf.
        -- destruct (for_fields_shape _ IH _ _ _ _ _ Hwf Hf) as [[Hr1 Hd1] Hout].
           destruct (Hout _ eq_refl) as [m Hm]. simpl in Hm.
           unfold create_model, modify, ret in H.
           destruct (pydantic_fields classes fs) as [kept|e0] eqn:Hpf; simpl in H; inv_pair;
             [|split; [by split|]; by intros].
           assert (shape (S m) (Dataclass cls) =
                   Some (erase (class_of (mk_model (next_id c1) (cls +:+ "Schema") kept)))) as Hs.
           { simpl. rewrite Hm.
             change (map (fun p => (p.1, erase p.2)) fs) with (erase_fields fs).
             by rewrite pydantic_fields_erase, Hpf. }
           split; [|intros r [= <-]; by exists (S m)].
           split; simpl; [assumption|].
           intros k M. rewrite lookup_insert. case_decide as Hk.
           ++ intros [= <-]. subst. by exists (S m).
           ++ apply Hd1.
        -- destruct (for_fields_shape _ IH _ _ _ _ _ Hwf Hf) as [Hwf1 _].
           inv_pair. split; [assumption|]. by intros.
    + unfold bind in H.
      destruct (mapM (rw d) args c) as [[args'|e] c1] eqn:Hm.
      * destruct (mapM_shape _ IH _ _ _ _ Hwf Hm) as [Hwf1 Hargs].
        destruct (Hargs _ eq_refl) as [m Hma].
        assert (c' = c1) as ->.
        { destruct o; unfold ret, lift_result in H;
            try (destruct (rebuild_container _ args') as [[t|]|e]; by inv_pair).
          by inv_pair. }
        split; [assumption|]. intros r ->. exists (S m). simpl. rewrite Hma.
        rewrite rebuild_container_erase.
        destruct o; unfold ret, lift_result in H;
          try (destruct (rebuild_container _ args') as [[t|]|e]; by inv_pair).
        by inv_pair.
      * destruct (mapM_shape _ IH _ _ _ _ Hwf Hm) as [Hwf1 _].
        inv_pair. split; [assumption|]. by intros.
Qed.

(** ** No cached model is ever overwritten *)

Lemma shape_args_head (sh : ty -> option ty) x l :
  is_Some (shape_args sh (x :: l)) -> is_Some (sh x) /\ is_Some (shape_args sh l).
Proof.
  simpl. destruct (sh x); [|by intros [? ?]].
  destruct (shape_args sh l); [|by intros [? ?]]. by split.
Qed.

Lemma shape_fields_head (sh : ty -> option ty) name ann fs acc :
  is_Some (shape_fields sh ((name, ann) :: fs) acc) ->
  exists t, sh ann = Some t /\ is_Some (shape_fields sh fs (dict_set acc name t)).
Proof. simpl. destruct (sh ann) as [t|]; [|by intros [? ?]]. by exists t. Qed.

Lemma schema_shape_is_Some_mono n m tp :
  n <= m -> is_Some (shape n tp) -> is_Some (shape m tp).
Proof. intros Hle [x Hx]. exists x. by eapply schema_shape_mono. Qed.

Section NewKeys.

Variable f : ty -> M caches ty.
Variable m : nat.
Hypothesis f_new : forall t c res c' k,
  f t c = (res, c') -> is_Some (shape m t) ->
  _dc_cache c !! k = None -> is_Some (_dc_cache c' !! k) ->
  is_Some (shape m (Dataclass k)).

Lemma mapM_new_keys l : forall c res c' k,
  mapM f l c = (res, c') -> is_Some (shape_args (shape m) l) ->
  _dc_cache c !! k = None -> is_Some (_dc_cache c' !! k) ->
  is_Some (shape m (Dataclass k)).
Proof.
  induction l as [|x l IH]; intros c res c' k H Hs Hk Hk'; simpl in H.
  - unfold ret in H. inv_pair. rewrite Hk in Hk'. by destruct Hk'.
  - apply shape_args_head in Hs as [Hx Hl]. unfold bind in H.
    destruct (f x c) as [[y|e] c1] eqn:Hfx.
    + destruct (_dc_cache c1 !! k) eqn:Hk1.
      * eapply f_new; [exact Hfx|assumption|assumption|by rewrite Hk1].
      * destruct (mapM f l c1) as [[ys|e] c2] eqn:Hml; unfold ret in H; inv_pair;
          eapply IH; eassumption.
    + inv_pair. eapply f_new; eassumption.
Qed.

Lemma for_fields_new_keys fs : forall acc acc' c res c' k,
  for_fields f fs acc c = (res, c') -> is_Some (shape_fields (shape m) fs acc') ->
  _dc_cache c !! k = None -> is_Some (_dc_cache c' !! k) ->
  is_Some (shape m (Dataclass k)).
Proof.
  induction fs as [|[name ann] fs IH]; intros acc acc' c res c' k H Hs Hk Hk'; simpl in H.
  - unfold ret in H. inv_pair. rewrite Hk in Hk'. by destruct Hk'.
  - apply shape_fields_head in Hs as (t' & Hann & Hfs). unfold bind in H.
    destruct (f ann c) as [[t|e] c1] eqn:Hfx.
    + destruct (_dc_cache c1 !! k) eqn:Hk1.
      * eapply f_new; [exact Hfx|by rewrite Hann|assumption|by rewrite Hk1].
      * eapply IH; eassumption.
    + inv_pair. eapply f_new; [exact Hfx|by rewrite Hann|assumption|assumption].
Qed.

End NewKeys.

(** A class that a run on [tp] adds to [_dc_cache] has a shape wherever
    [tp] has one. *)
Lemma rewrite_type_new_keys n :
  forall m tp c res c' k,
    rw n tp c = (res, c') -> is_Some (shape m tp) ->
    _dc_cache c !! k = None -> is_Some (_dc_cache c' !! k) ->
    is_Some (shape m (Dataclass k)).
Proof.
  induction n as [|d IH]; intros m tp c res c' k H Hs Hk Hk'; simpl in H.
  - unfold raise in H. inv_pair. rewrite Hk in Hk'. by destruct Hk'.
  - destruct m as [|m']; [by destruct Hs|].
    assert (forall t c res c' k, rw d t c = (res, c') -> is_Some (shape m' t) ->
              _dc_cache c !! k = None -> is_Some (_dc_cache c' !! k) ->
              is_Some (shape m' (Dataclass k))) as IH' by (intros; eapply IH; eassumption).
    destruct tp;
      try (unfold ret in H; inv_pair; rewrite Hk in Hk'; by destruct Hk').
    + unfold peewee_uuid_ref in H.
      destruct (_ref_cache c !! cls); inv_pair; simpl in Hk'; rewrite Hk in Hk'; by destruct Hk'.
    + destruct (_dc_cache c !! cls) eqn:Hc; inv_pair.
      * rewrite Hk in Hk'. by destruct Hk'.
      * simpl in Hs.
        destruct (shape_fields (shape m') (dataclass_fields classes cls) []) as [sfs|] eqn:Hsf;
          [|by destruct Hs].
        unfold bind in H.
        destruct (for_fields (rw d) (dataclass_fields classes cls) [] c) as [[fs|e] c1] eqn:Hf.
        -- unfold create_model, modify, ret in H.
           destruct (pydantic_fields classes fs) as [kept|e0]; simpl in H; inv_pair.
           ++ simpl in Hk'. destruct (decide (cls = k)) as [->|Hne].
              ** simpl. by rewrite Hsf.
              ** rewrite lookup_insert_ne in Hk' by assumption.
                 eapply (schema_shape_is_Some_mono m' (S m')); [lia|].
                 eapply (for_fields_new_keys _ m' IH'); [exact Hf|by rewrite Hsf|eassumption..].
           ++ eapply (schema_shape_is_Some_mono m' (S m')); [lia|].
              eapply (for_fields_new_keys _ m' IH'); [exact Hf|by rewrite Hsf|eassumption..].
        -- inv_pair. eapply (schema_shape_is_Some_mono m' (S m')); [lia|].
           eapply (for_fields_new_keys _ m' IH'); [exact Hf|by rewrite Hsf|eassumption..].
    + simpl in Hs.
      destruct (shape_args (shape m') args) as [sargs|] eqn:Hsa; [|by destruct Hs].
      unfold bind in H.
      destruct (mapM (rw d) args c) as [[args'|e] c1] eqn:Hm.
      * assert (c' = c1) as ->.
        { destruct o; unfold ret, lift_result in H;
            try (destruct (rebuild_container _ args') as [[t|]|e]; by inv_pair).
          by inv_pair. }
        eapply (schema_shape_is_Some_mono m' (S m')); [lia|].
        eapply (mapM_new_keys _ m' IH'); [exact Hm|by rewrite Hsa|eassumption..].
      * inv_pair. eapply (schema_shape_is_Some_mono m' (S m')); [lia|].
        eapply (mapM_new_keys _ m' IH'); [exact Hm|by rewrite Hsa|eassumption..].
Qed.

(** While the fields of an uncached dataclass are rewritten, the dataclass
    itself stays uncached: the insertion that ends the call overwrites
    nothing. *)
Lemma for_fields_keeps_uncached d cls c fs c1 :
  shaped c -> _dc_cache c !! cls = None ->
  for_fields (rw d) (dataclass_fields classes cls) [] c = (Ok fs, c1) ->
  _dc_cache c1 !! cls = None.
Proof.
  intros Hwf Hc Hf.
  destruct (for_fields_shape _ (rewrite_type_shape d) _ _ _ _ _ Hwf Hf) as [_ Hout].
  destruct (Hout _ eq_refl) as [m Hm]. simpl in Hm.
  assert (is_Some (shape_fields (shape m) (dataclass_fields classes cls) [])) as Hs by by eexists.
  clear Hm Hout. induction m as [|m IHm].
  - destruct (_dc_cache c1 !! cls) eqn:Hc1; [|reflexivity].
    assert (is_Some (shape 0 (Dataclass cls))) as [? ?]; [|discriminate].
    eapply (for_fields_new_keys _ 0 (rewrite_type_new_keys d 0));
      [exact Hf|exact Hs|assumption|by rewrite Hc1].
  - destruct (_dc_cache c1 !! cls) eqn:Hc1; [|reflexivity].
    assert (is_Some (shape (S m) (Dataclass cls))) as Hcls.
    { eapply (for_fields_new_keys _ (S m) (rewrite_type_new_keys d (S m)));
        [exact Hf|exact Hs|assumption|by rewrite Hc1]. }
    simpl in Hcls.
    destruct (shape_fields (shape m) (dataclass_fields classes cls) []) eqn:Hm; [|by destruct Hcls].
    apply IHm. by eexists.
Qed.

(** ** Cached models stay the models of their keys *)

Local Abbreviation sound c := (caches_sound classes c).

Lemma caches_sound_empty : sound no_caches.
Proof.
  split; [apply shapes_cached_empty|].
  intros cls M H. simpl in H. by rewrite lookup_empty in H.
Qed.

Lemma mapM_sound (f : ty -> M caches ty) :
  (forall t c res c', sound c -> f t c = (res, c') -> sound c') ->
  forall l c res c', sound c -> mapM f l c = (res, c') -> sound c'.
Proof.
  intros Hf l. induction l as [|x l IH]; intros c res c' Hs H; simpl in H.
  - unfold ret in H. by inv_pair.
  - unfold bind in H. destruct (f x c) as [[y|e] c1] eqn:Hx.
    + pose proof (Hf _ _ _ _ Hs Hx) as Hs1.
      destruct (mapM f l c1) as [[ys|e] c2] eqn:Hl; unfold ret in H; inv_pair;
        eapply IH; eassumption.
    + inv_pair. eapply Hf; eassumption.
Qed.

Lemma for_fields_sound (f : ty -> M caches ty) :
  (forall t c res c', sound c -> f t c = (res, c') -> sound c') ->
  forall fs acc c res c', sound c -> for_fields f fs acc c = (res, c') -> sound c'.
Proof.
  intros Hf fs. induction fs as [|[name ann] fs IH]; intros acc c res c' Hs H; simpl in H.
  - unfold ret in H. by inv_pair.
  - unfold bind in H. destruct (f ann c) as [[t|e] c1] eqn:Hx.
    + eapply IH; [|exact H]. eapply Hf; eassumption.
    + inv_pair. eapply Hf; eassumption.
Qed.

(** The field types that the loop collected are the answers of
    [rewrite_type], then and in every later state. *)
Lemma for_fields_types d : forall fs acc c out c1,
  for_fields (rw d) fs acc c = (Ok out, c1) ->
  exists types,
    out = dict_fill acc (map fst fs) types /\
    forall c'', caches_le c1 c'' ->
      Forall2 (fun f t => rw d (snd f) c'' = (Ok t, c'')) fs types.
Proof.
  induction fs as [|[name ann] fs IH]; intros acc c out c1 H; simpl in H.
  - unfold ret in H. inv_pair. exists []. split; [reflexivity|]. intros. constructor.
  - unfold bind in H. destruct (rw d ann c) as [[t|e] c2] eqn:Hx; [|by inv_pair].
    destruct (IH _ _ _ _ H) as (types & -> & Hall).
    exists (t :: types). split; [reflexivity|]. intros c'' Hle. constructor.
    + simpl. eapply rewrite_type_again; [exact Hx|].
      eapply caches_le_trans; [|exact Hle].
      eapply for_fields_grows; [apply rewrite_type_grows|exact H].
    + by apply Hall.
Qed.

Lemma models_cached_le c c' :
  models_cached classes c -> caches_le c c' ->
  (forall cls M, _dc_cache c' !! cls = Some M -> _dc_cache c !! cls = Some M) ->
  models_cached classes c'.
Proof.
  intros Hm Hle Hsame cls M HM.
  destruct (Hm _ _ (Hsame _ _ HM)) as (id & types & kept & Hpf & -> & Hall).
  exists id, types, kept. split; [exact Hpf|]. split; [reflexivity|].
  eapply Forall2_impl; [exact Hall|].
  intros f t [n Hn]. exists n. eapply rewrite_type_again; eassumption.
Qed.

(** A run of [rewrite_type], whatever its outcome, keeps the caches sound. *)
Lemma rewrite_type_sound n :
  forall tp c res c', sound c -> rw n tp c = (res, c') -> sound c'.
Proof.
  induction n as [|d IH]; intros tp c res c' Hs H.
  { simpl in H. unfold raise in H. by inv_pair. }
  split; [eapply rewrite_type_shape; [apply Hs|exact H]|].
  pose proof (rewrite_type_grows _ _ _ _ _ H) as Hle.
  simpl in H.
  destruct tp; try (unfold ret in H; inv_pair; apply Hs).
  - eapply models_cached_le; [apply Hs|exact Hle|].
    unfold peewee_uuid_ref in H. destruct (_ref_cache c !! cls); by inv_pair.
  - destruct (_dc_cache c !! cls) eqn:Hc; inv_pair; [apply Hs|].
    unfold bind in H.
    destruct (for_fields (rw d) (dataclass_fields classes cls) [] c) as [[fs|e] c1] eqn:Hf.
    + pose proof (for_fields_sound _ IH _ _ _ _ _ Hs Hf) as [_ Hm1].
      pose proof (for_fields_keeps_uncached _ _ _ _ _ (proj1 Hs) Hc Hf) as Hc1.
      destruct (for_fields_types _ _ _ _ _ _ Hf) as (types & -> & Hall).
      unfold create_model, modify, ret in H.
      destruct (pydantic_fields classes _) as [kept|e0] eqn:Hpf; simpl in H; inv_pair;
        [|exact Hm1].
      set (c' := mk_caches _ _ _) in *.
      assert (caches_le c1 c') as Hle1.
      { repeat split; simpl; [lia|reflexivity|]. by apply insert_subseteq. }
      intros k M. simpl. rewrite lookup_insert. case_decide as Hk.
      * intros [= <-]. subst k. exists (next_id c1), types, kept.
        split; [exact Hpf|]. split; [reflexivity|].
        eapply Forall2_impl; [exact (Hall _ Hle1)|].
        intros f t Hft. by exists d.
      * intros HM. destruct (Hm1 _ _ HM) as (id & types' & kept' & Hpf' & -> & Hall').
        exists id, types', kept'. split; [exact Hpf'|]. split; [reflexivity|].
        eapply Forall2_impl; [exact Hall'|].
        intros f t [n Hn]. exists n. eapply rewrite_type_again; eassumption.
    + inv_pair. eapply for_fields_sound; eassumption.
  - unfold bind in H.
    destruct (mapM (rw d) args c) as [[args'|e] c1] eqn:Hm.
    + assert (c' = c1) as ->.
      { destruct o; unfold ret, lift_result in H;
          try (destruct (rebuild_container _ args') as [[t|]|e]; by inv_pair).
        by inv_pair. }
      eapply mapM_sound; eassumption.
    + inv_pair. eapply mapM_sound; eassumption.
Qed.

(** ** Keyword arguments with distinct names *)

Lemma dict_set_fresh (acc : dict ty) k v :
  k ∉ map fst acc -> dict_set acc k v = acc ++ [(k, v)].
Proof.
  induction acc as [|[k' v'] acc IH]; intros Hk; simpl; [reflexivity|].
  simpl in Hk. apply not_elem_of_cons in Hk as [Hne Hk].
  destruct (String.eqb k' k) eqn:E.
  - apply String.eqb_eq in E. congruence.
  - by rewrite IH.
Qed.

Lemma dict_fill_fresh names : forall acc types,
  NoDup (map fst acc ++ names) -> List.length types = List.length names ->
  dict_fill acc names types = acc ++ zip names types.
Proof.
  induction names as [|k names IH]; intros acc types Hnd Hlen; simpl.
  - by rewrite app_nil_r.
  - destruct types as [|t types]; [discriminate|]. simpl in *.
    apply NoDup_app in Hnd as (Hacc & Hdis & Hnames).
    apply NoDup_cons in Hnames as [Hk Hnames].
    rewrite dict_set_fresh by (intros Hin; apply (Hdis _ Hin); left).
    rewrite IH.
    + by rewrite <- app_assoc.
    + rewrite map_app. simpl. rewrite <- app_assoc. simpl.
      apply NoDup_app. split; [assumption|]. split.
      * intros x Hx Hx'. apply (Hdis _ Hx). exact Hx'.
      * by apply NoDup_cons.
    + lia.
Qed.

Lemma zip_fields_types (P : string * ty -> ty -> Prop) (fs : list (string * ty)) types :
  Forall2 P fs types ->
  map fst (zip (map fst fs) types) = map fst fs /\
  Forall2 (fun f x => P f (snd x)) fs (zip (map fst fs) types).
Proof.
  induction 1 as [|f t fs types Hft Hall [IH1 IH2]]; simpl; [by split; constructor|].
  split; [by rewrite IH1|by constructor].
Qed.

Lemma rewrite_type_dataclass_cached n cls c r c' :
  rw n (Dataclass cls) c = (Ok r, c') -> _dc_cache c' !! cls = Some r.
Proof.
  destruct n as [|d]; simpl; intros H; [unfold raise in H; by inv_pair|].
  destruct (_dc_cache c !! cls) eqn:Hc; inv_pair; [assumption|].
  unfold bind in H.
  destruct (for_fields (rw d) (dataclass_fields classes cls) [] c) as [[fs|e] c1]; [|by inv_pair].
  unfold create_model, modify, ret in H.
  destruct (pydantic_fields classes fs) as [kept|e0]; simpl in H; [|by inv_pair].
  inv_pair. simpl. apply lookup_insert_eq.
Qed.

(** ** Where [rewrite_type] returns *)

Lemma shape_args_length (sh : ty -> option ty) l : forall out,
  shape_args sh l = Some out -> List.length out = List.length l.
Proof.
  induction l as [|x l IH]; intros out H; simpl in H; [by simplify_eq|].
  destruct (sh x); [|discriminate]. destruct (shape_args sh l) as [ys|]; [|discriminate].
  simplify_eq. simpl. by rewrite (IH _ eq_refl).
Qed.

Lemma mapM_length (f : ty -> M caches ty) l : forall c rs c',
  mapM f l c = (Ok rs, c') -> List.length rs = List.length l.
Proof.
  induction l as [|x l IH]; intros c rs c' H; simpl in H.
  - unfold ret in H. by simplify_eq.
  - unfold bind in H. destruct (f x c) as [[y|e] c1]; [|discriminate].
    destruct (mapM f l c1) as [[ys|e] c2] eqn:Hl; [|discriminate].
    unfold ret in H. simplify_eq. simpl. by rewrite (IH _ _ _ Hl).
Qed.

(** Whether [rebuild_container] raises depends on the number of arguments
    alone. *)
Lemma rebuild_container_raises o l1 l2 e :
  rebuild_container o l1 = Raise e -> List.length l2 = List.length l1 ->
  rebuild_container o l2 = Raise e.
Proof.
  destruct o; simpl; try discriminate.
  - destruct l1; [|discriminate]. by destruct l2.
  - destruct l1; [|discriminate]. by destruct l2.
  - destruct l1 as [|a0 [|a1 l1]]; try discriminate.
    + by destruct l2.
    + by destruct l2 as [|b0 [|b1 l2]].
  - destruct l1 as [|a0 [|a1 [|a2 l1]]]; try discriminate.
    by destruct (is_Ellipsis a1).
Qed.

Lemma mapM_returns (f : ty -> M caches ty) (sh : ty -> option ty) :
  (forall t y, sh t = Some y -> forall c, shaped c -> exists r c', f t c = (Ok r, c')) ->
  (forall t c res c', shaped c -> f t c = (res, c') -> shaped c') ->
  forall l out, shape_args sh l = Some out ->
  forall c, shaped c -> exists rs c', mapM f l c = (Ok rs, c').
Proof.
  intros Hf Hk l. induction l as [|x l IH]; intros out H c Hc; simpl in *.
  - by eexists _, _.
  - destruct (sh x) as [y|] eqn:Hx; [|discriminate].
    destruct (shape_args sh l) as [ys|] eqn:Hl; [|discriminate].
    destruct (Hf _ _ Hx c Hc) as (r & c1 & Hr).
    destruct (IH _ eq_refl c1 (Hk _ _ _ _ Hc Hr)) as (rs & c2 & Hrs).
    exists (r :: rs), c2. unfold bind, ret. by rewrite Hr, Hrs.
Qed.

Lemma for_fields_returns (f : ty -> M caches ty) (sh : ty -> option ty) :
  (forall t y, sh t = Some y -> forall c, shaped c -> exists r c', f t c = (Ok r, c')) ->
  (forall t c res c', shaped c -> f t c = (res, c') -> shaped c') ->
  forall fs acc out, shape_fields sh fs acc = Some out ->
  forall acc' c, shaped c -> exists out' c', for_fields f fs acc' c = (Ok out', c').
Proof.
  intros Hf Hk fs. induction fs as [|[name ann] fs IH]; intros acc out H acc' c Hc; simpl in *.
  - by eexists _, _.
  - destruct (sh ann) as [y|] eqn:Hx; [|discriminate].
    destruct (Hf _ _ Hx c Hc) as (r & c1 & Hr).
    destruct (IH _ _ H (dict_set acc' name r) c1 (Hk _ _ _ _ Hc Hr)) as (out' & c2 & Hout).
    exists out', c2. unfold bind. by rewrite Hr.
Qed.

(** A type that has a shape within [m] levels is rewritten, from any state
    of the caches whose shapes are right, as soon as the interpreter allows
    [m] nested calls: its containers have their arguments, its dataclasses
    do not refer to themselves, and pydantic refuses none of their
    fields. *)
Lemma rewrite_type_returns m :
  forall tp x, shape m tp = Some x ->
  forall n c, m <= n -> shaped c -> exists r c', rw n tp c = (Ok r, c').
Proof.
  induction m as [|m IH]; intros tp x H n c Hle Hc; simpl in H; [discriminate|].
  destruct n as [|n]; [lia|].
  assert (forall t y, shape m t = Some y ->
            forall c, shaped c -> exists r c', rw n t c = (Ok r, c')) as IH'.
  { intros t y Ht c0 Hc0. eapply IH; [exact Ht|lia|exact Hc0]. }
  assert (forall t c res c', shaped c -> rw n t c = (res, c') -> shaped c') as Hk.
  { intros t c0 res c0' Hs0 H0. exact (proj1 (rewrite_type_shape n _ _ _ _ Hs0 H0)). }
  destruct tp; try (simpl; by eexists _, _).
  - simpl. unfold peewee_uuid_ref. destruct (_ref_cache c !! cls); by eexists _, _.
  - rewrite rewrite_type_dataclass_eq. destruct (_dc_cache c !! cls); [by eexists _, _|].
    destruct (shape_fields (shape m) (dataclass_fields classes cls) []) as [sfs|] eqn:Hf;
      [|discriminate].
    destruct (pydantic_fields classes sfs) as [kept0|e0] eqn:Hp0; [|discriminate].
    destruct (for_fields_returns _ _ IH' Hk _ _ _ Hf [] c Hc) as (fs & c1 & Hfs).
    rewrite Hfs.
    destruct (for_fields_shape _ (rewrite_type_shape n) _ _ _ _ _ Hc Hfs) as [_ Hout].
    destruct (Hout _ eq_refl) as [m' Hm']. simpl in Hm'.
    assert (erase_fields fs = sfs) as E.
    { pose proof (shape_fields_mono (shape m) (shape (Nat.max m m'))
                    ltac:(intros; eapply schema_shape_mono; [|eassumption]; lia) _ _ _ Hf) as E1.
      pose proof (shape_fields_mono (shape m') (shape (Nat.max m m'))
                    ltac:(intros; eapply schema_shape_mono; [|eassumption]; lia) _ _ _ Hm') as E2.
      congruence. }
    pose proof (pydantic_fields_erase fs) as Hpe. rewrite E, Hp0 in Hpe.
    destruct (pydantic_fields classes fs) as [kept|e]; [by eexists _, _|discriminate].
  - simpl. destruct (shape_args (shape m) args) as [sargs|] eqn:Ha; [|discriminate].
    destruct (mapM_returns _ _ IH' Hk _ _ Ha c Hc) as (args' & c1 & Hargs).
    unfold bind. rewrite Hargs.
    assert (List.length args' = List.length sargs) as Hlen.
    { rewrite (mapM_length _ _ _ _ _ Hargs). symmetry. by eapply shape_args_length. }
    destruct o; unfold lift_result, ret; try (by eexists _, _);
      (destruct (rebuild_container _ args') as [[t|]|e] eqn:Hrb; try (by eexists _, _);
       rewrite (rebuild_container_raises _ _ sargs _ Hrb) in H by (by symmetry);
       discriminate).
Qed.

End RewriterFacts.

(** C5. Take a source type [tp] that has a schema shape [x] within [m]
    levels, an interpreter that allows [m] nested calls or more, and caches
    that are sound, as they are in every state the builder reaches. Then
    [rewrite_type] returns a schema type [r] for [tp], and every later call
    on [tp] returns the identical [r] (the same classes, by identity) and
    writes nothing more to the caches: this is what the two caches give.
    Moreover the shape of [r], its names, fields and field types, is [x],
    which [schema_shape] computes from [tp], the class declarations and
    pydantic's verdicts on the fields alone. *)
Theorem rewrite_type_stable classes m tp x n c :
  schema_shape classes m tp = Some x ->
  m <= n ->
  caches_sound classes c ->
  exists r c',
    rewrite_type classes n tp c = (Ok r, c') /\
    (forall c'', caches_le c' c'' ->
       rewrite_type classes n tp c'' = (Ok r, c'')) /\
    erase r = x.
Proof.
  intros Hx Hle Hs.
  destruct (rewrite_type_returns classes m tp x Hx n c Hle (proj1 Hs)) as (r & c' & H).
  exists r, c'. split; [exact H|]. split.
  - intros c'' Hle'. eapply rewrite_type_again; eassumption.
  - destruct (rewrite_type_shape _ _ _ _ _ _ (proj1 Hs) H) as [_ Hr].
    destruct (Hr _ eq_refl) as [m' Hm'].
    pose proof (schema_shape_mono classes m (Nat.max m m') _ _ ltac:(lia) Hx) as E1.
    pose proof (schema_shape_mono classes m' (Nat.max m m') _ _ ltac:(lia) Hm') as E2.
    congruence.
Qed.

(** C6, as the code has it. Take a dataclass with declared fields
    [f1: t1, ..., fn: tn] of distinct names, none of which pydantic ignores
    (it ignores a name that starts with an underscore), that has a schema
    shape within [m] levels (no field type is a bare container, the class
    does not refer to itself, pydantic refuses no field), caches that are
    sound, and an interpreter that allows [m] nested calls or more. Then
    [rewrite_type] returns a model named [<TypeName>Schema] whose fields are
    exactly [f1, ..., fn], in order and with no other field, the field [fi]
    being typed as [rewrite_type] types [ti]. *)
Theorem rewrite_type_dataclass classes m cls x n c :
  schema_shape classes m (Dataclass cls) = Some x ->
  m <= n ->
  caches_sound classes c ->
  NoDup (map fst (dataclass_fields classes cls)) ->
  Forall (fun name => forall t, pydantic_field classes name t <> Ignore)
         (map fst (dataclass_fields classes cls)) ->
  exists id fields c',
    rewrite_type classes n (Dataclass cls) c
      = (Ok (Model id (cls +:+ "Schema") fields), c') /\
    map fst fields = map fst (dataclass_fields classes cls) /\
    Forall2 (fun f x => exists n',
               rewrite_type classes n' (snd f) c' = (Ok (snd x), c'))
            (dataclass_fields classes cls) fields.
Proof.
  intros Hx Hle Hs Hnd Hig.
  destruct (rewrite_type_returns classes m _ x Hx n c Hle (proj1 Hs)) as (r & c' & H).
  pose proof (rewrite_type_sound _ _ _ _ _ _ Hs H) as [_ Hm].
  pose proof (rewrite_type_dataclass_cached _ _ _ _ _ _ H) as Hc.
  destruct (Hm _ _ Hc) as (id & types & kept & Hpf & -> & Hall).
  rewrite dict_fill_fresh in Hpf;
    [|assumption|symmetry; rewrite length_map; by eapply Forall2_length].
  simpl in Hpf. destruct (zip_fields_types _ _ _ Hall) as [Hk Hf].
  apply pydantic_fields_taken, taken_all in Hpf; [|by rewrite Hk]. subst kept.
  exists id, (zip (map fst (dataclass_fields classes cls)) types), c'. by repeat split.
Qed.

Lemma rewrite_type_stable_witness :
  exists r c',
    rewrite_type example_classes 3 (Generic o_list [Dataclass "Point"]) no_caches
      = (Ok r, c') /\
    (forall c'', caches_le c' c'' ->
       rewrite_type example_classes 3 (Generic o_list [Dataclass "Point"]) c'' = (Ok r, c'')) /\
    erase r = Generic o_list [PointSchema].
Proof.
  apply (rewrite_type_stable example_classes 3 (Generic o_list [Dataclass "Point"])
           (Generic o_list [PointSchema]) 3 no_caches).
  - vm_compute. reflexivity.
  - lia.
  - apply caches_sound_empty.
Defined.

Lemma rewrite_type_dataclass_witness :
  exists id fields c',
    rewrite_type example_classes 3 (Dataclass "Segment") no_caches
      = (Ok (Model id ("Segment" +:+ "Schema") fields), c') /\
    map fst fields = map fst (dataclass_fields example_classes "Segment") /\
    Forall2 (fun f x => exists n',
               rewrite_type example_classes n' (snd f) c' = (Ok (snd x), c'))
            (dataclass_fields example_classes "Segment") fields.
Proof.
  apply (rewrite_type_dataclass example_classes 3 "Segment" (erase SegmentSchema) 3 no_caches).
  - vm_compute. reflexivity.
  - lia.
  - apply caches_sound_empty.
  - apply (bool_decide_unpack _). vm_compute. exact I.
  - assert (forall name t, startswith "_" name = false ->
                           pydantic_field example_classes name t <> Ignore) as Hn.
    { intros name t E. simpl. unfold example_pydantic. rewrite E. simpl.
      case_bool_decide; [discriminate|]. destruct (mentions_Plain t); discriminate. }
    simpl. repeat apply Forall_cons_2; try apply Forall_nil_2; intros t; by apply Hn.
Defined.

(** C6 fails at a dataclass with a field whose name starts with an
    underscore, [Priv(_x: int, y: int)]: pydantic's [create_model] ignores
    the keyword [_x], and the model [PrivSchema] that [rewrite_type] returns
    and caches has the field [y] alone. *)
Lemma rewrite_type_drops_underscore_field :
  dataclass_fields example_classes "Priv" = [("_x", Leaf "int"); ("y", Leaf "int")] /\
  rewrite_type example_classes 3 (Dataclass "Priv") no_caches =
    (Ok (Model 0 "PrivSchema" [("y", Leaf "int")]),
     mk_caches 1 ∅ {["Priv" := Model 0 "PrivSchema" [("y", Leaf "int")]]}).
Proof. split; [reflexivity|]. vm_compute. reflexivity. Qed.

(** Where pydantic refuses a field, there is no schema type: for
    [Shadow(json: str)] its [create_model] raises [NameError], which
    [rewrite_type] lets through, and nothing is cached. *)
Lemma rewrite_type_refused_field :
  dataclass_fields example_classes "Shadow" = [("json", Leaf "str")] /\
  schema_shape example_classes 3 (Dataclass "Shadow") = None /\
  rewrite_type example_classes 3 (Dataclass "Shadow") no_caches
    = (Raise NameError, no_caches).
Proof. split; [reflexivity|]. split; vm_compute; reflexivity. Qed.

(** The run behind the witnesses above. *)
Lemma rewrite_type_Segment :
  rewrite_type example_classes 3 (Dataclass "Segment") no_caches
    = (Ok SegmentSchema, segment_cached).
Proof. vm_compute. reflexivity. Qed.

(** ** Where [rewrite_type] raises, and where it hands its input back *)

Lemma rewrite_type_generic_eq classes d o args c :
  rewrite_type classes (S d) (Generic o args) c =
  match mapM (rewrite_type classes d) args c with
  | (Ok args', c1) =>
      match o with
      | o_Union => (Ok (Generic o_Union args'), c1)
      | _ =>
          match rebuild_container o args' with
          | Ok (Some t) => (Ok t, c1)
          | Ok None => (Ok (Generic o args), c1)
          | Raise e => (Raise e, c1)
          end
      end
  | (Raise e, c1) => (Raise e, c1)
  end.
Proof.
  simpl. unfold bind. destruct (mapM _ args c) as [[args'|e] c1]; [|reflexivity].
  destruct o; unfold lift_result, ret; try reflexivity;
    by destruct (rebuild_container _ args') as [[t|]|e].
Qed.

(** A dataclass that refers to itself is not in [_dc_cache] while its
    fields are rewritten: [rewrite_type] recurses until the interpreter's
    limit, whatever the limit. *)
Lemma rewrite_type_self_reference_raises depth : forall c,
  _dc_cache c !! "Node" = None ->
  rewrite_type example_classes depth (Dataclass "Node") c = (Raise RecursionError, c).
Proof.
  induction depth as [depth IH] using lt_wf_ind. intros c Hc.
  destruct depth as [|[|[|d]]]; [reflexivity| | |].
  - simpl. by rewrite Hc.
  - simpl. by rewrite Hc.
  - pose proof (IH (S d) ltac:(lia) c Hc) as IH1.
    rewrite rewrite_type_dataclass_eq, Hc.
    change (dataclass_fields example_classes "Node")
      with [("value", Leaf "int"); ("next", Optional (Dataclass "Node"))].
    cbn [for_fields]. unfold bind at 1.
    change (rewrite_type example_classes (S (S d)) (Leaf "int") c) with (Ok (Leaf "int"), c).
    cbn iota beta. unfold bind at 1. unfold Optional.
    rewrite rewrite_type_generic_eq. cbn [mapM]. unfold bind at 1.
    by rewrite IH1.
Qed.

(** A generic of an origin that is neither a container nor a union comes
    back unchanged, when rewriting its arguments raised nothing. *)
Lemma rewrite_type_other_origin classes depth name args c r c' :
  rewrite_type classes depth (Generic (o_other name) args) c = (Ok r, c') ->
  r = Generic (o_other name) args.
Proof.
  destruct depth as [|d]; simpl; [discriminate|].
  unfold bind. destruct (mapM _ args c) as [[args'|e] c1]; [|discriminate].
  unfold lift_result, ret. simpl. by intros [= <- <-].
Qed.

(** C7, at three well-formed type descriptors on which [rewrite_type]
    raises. The bare generic [typing.List] ([get_origin] is [list],
    [get_args] is empty): [rebuild_container] reads [args[0]] and the call
    raises [IndexError]. [FrozenSet[List]], whose origin is not a recognized
    container: the call raises [IndexError] while rewriting the argument,
    and does not hand its input back. The dataclass [Node], which refers to
    itself: the call raises [RecursionError] whatever the interpreter's
    limit. *)
Theorem rewrite_type_raises :
  (forall classes depth c,
     rewrite_type classes (S depth) (Generic o_list []) c = (Raise IndexError, c)) /\
  (forall classes depth c,
     rewrite_type classes (S (S depth))
                  (Generic (o_other "frozenset") [Generic o_list []]) c
       = (Raise IndexError, c)) /\
  (forall depth,
     rewrite_type example_classes depth (Dataclass "Node") no_caches
       = (Raise RecursionError, no_caches)).
Proof.
  split; [|split].
  - reflexivity.
  - reflexivity.
  - intros depth. apply rewrite_type_self_reference_raises. apply lookup_empty.
Qed.

(** * Properties of the reference addressing

    The pointers are those of the model: a segment names a field or a key,
    no method and no special attribute (see [node]). *)

(** Where [resolve_ref] finds a node, it is the node at that path. *)
Lemma walk_follow : forall parts current n,
  walk current parts = Ok n -> follow current parts = Some n.
Proof.
  induction parts as [|p parts IH]; intros current n H; simpl in *; [congruence|].
  destruct current; simpl in *; try discriminate.
  destruct (dict_get attrs p) as [v|]; [|discriminate]. by apply IH.
Qed.

(** Where no node stands at the path, [resolve_ref] fails on the missing
    attribute. *)
Lemma walk_broken : forall parts current,
  follow current parts = None -> walk current parts = Raise AttributeError.
Proof.
  induction parts as [|p parts IH]; intros current H; simpl in *; [discriminate|].
  destruct current; simpl in *; try reflexivity.
  destruct (dict_get attrs p) as [v|]; [|reflexivity]. by apply IH.
Qed.

(** A table on the way stops the walk, whether the key is there or not. *)
Lemma walk_dict_fails d p parts : walk (NDict d) (p :: parts) = Raise AttributeError.
Proof. reflexivity. Qed.

(** Any other object goes through [resolve_ref] untouched. *)
Lemma resolve_ref_object {T} self (o : T) : resolve_ref self (ArgObj o) = Ok (Same o).
Proof. reflexivity. Qed.

Lemma resolve_ref_make_ref self path :
  resolve_ref (T := unit) self (ArgRef (make_ref path)) =
  if negb (startswith "/" path) then Raise (Exception_ ("Unsupported ref " +:+ "#" +:+ path))
  else match walk (node_of_doc self) (split "/" (slice_from 1 path)) with
       | Ok current => Ok (Target current)
       | Raise e => Raise e
       end.
Proof. reflexivity. Qed.

(** Whatever [resolve_ref] returns for [make_ref(path)] is the node at
    [path]. *)
Lemma resolve_ref_found self path n :
  resolve_ref (T := unit) self (ArgRef (make_ref path)) = Ok (Target n) ->
  node_at self path = Some n.
Proof.
  rewrite resolve_ref_make_ref. unfold node_at.
  destruct (startswith "/" path); simpl; [|discriminate].
  destruct (walk _ _) as [m|e] eqn:Hw; [|discriminate].
  intros [= <-]. by apply walk_follow.
Qed.

(** A pointer to a path where no node stands is a broken reference. *)
Lemma resolve_ref_broken self path :
  startswith "/" path = true -> node_at self path = None ->
  resolve_ref (T := unit) self (ArgRef (make_ref path)) = Raise AttributeError.
Proof.
  rewrite resolve_ref_make_ref. unfold node_at. intros ->. simpl.
  intros H. by rewrite (walk_broken _ _ H).
Qed.

(** A path made of attribute names resolves: [/info/title]. *)
Lemma resolve_ref_info_title :
  resolve_ref (T := unit) chat_doc (ArgRef (make_ref "/info/title")) =
    Ok (Target (NStr "Demo Chat API")) /\
  node_at chat_doc "/info/title" = Some (NStr "Demo Chat API").
Proof. split; vm_compute; reflexivity. Qed.

(** C1, at the pointer to a registered channel: after [add_channel("chat")]
    the path [/channels/chat] leads to the channel, and
    [resolve_ref(make_ref("/channels/chat"))] raises [AttributeError] at the
    table [channels] instead of returning it. *)
Theorem resolve_ref_channel_pointer_fails :
  node_at chat_doc "/channels/chat" = Some (node_of_ChannelItem chat_channel) /\
  resolve_ref (T := unit) chat_doc (ArgRef (make_ref "/channels/chat")) = Raise AttributeError.
Proof. split; vm_compute; reflexivity. Qed.

(** The same happens to the pointers into [components.schemas]: after the
    event [message] is registered, the pointer to its payload schema, given
    as a string, does not resolve. *)
Lemma resolve_ref_schema_pointer_fails :
  node_at (doc message_world) "/components/schemas/MessagePayload" =
    Some (NSchema (PydanticSchema
                     (mk_model 0 "MessagePayload" [("text", Leaf "str")])
                     "/components/schemas/MessagePayload")) /\
  resolve_ref (T := unit) (doc message_world)
              (ArgStr "#/components/schemas/MessagePayload") = Raise AttributeError.
Proof. split; vm_compute; reflexivity. Qed.

(** * Properties of the builder *)

(** ** [add_global_tag] *)

Section Tags.

Variable name : string.

Local Abbreviation named l := (filter (fun t => tag_name t = name) l).
Local Abbreviation others l := (filter (fun t => tag_name t <> name) l).

Lemma update_tag_found tags description tags' :
  update_tag tags name description = Some tags' ->
  named tags' = mk_Tag name description :: tail (named tags) /\
  named tags <> [] /\
  others tags' = others tags.
Proof.
  revert tags'. induction tags as [|t tags IH]; intros tags' H; simpl in H; [discriminate|].
  destruct (String.eqb (tag_name t) name) eqn:E.
  - apply String.eqb_eq in E. injection H as <-.
    rewrite !filter_cons. simpl. repeat case_decide; try congruence.
    rewrite E. by repeat split.
  - apply String.eqb_neq in E.
    destruct (update_tag tags name description) as [r|]; [|discriminate].
    injection H as <-. destruct (IH _ eq_refl) as (H1 & H2 & H3).
    rewrite !filter_cons. repeat case_decide; try congruence.
    by rewrite H3.
Qed.

Lemma update_tag_missing tags description :
  update_tag tags name description = None -> named tags = [].
Proof.
  induction tags as [|t tags IH]; intros H; simpl in H; [reflexivity|].
  destruct (String.eqb (tag_name t) name) eqn:E; [discriminate|].
  apply String.eqb_neq in E.
  destruct (update_tag tags name description); [discriminate|].
  rewrite filter_cons. case_decide; [congruence|]. by apply IH.
Qed.

Lemma add_global_tag_tags self description tags :
  info_tags (info self) = Some tags ->
  exists tags',
    add_global_tag name description self = (Ok tt, set_tags self tags') /\
    named tags' = mk_Tag name description :: tail (named tags) /\
    others tags' = others tags.
Proof.
  intros Ht. unfold add_global_tag. rewrite Ht.
  destruct (update_tag tags name description) as [tags'|] eqn:U.
  - exists tags'. split; [reflexivity|].
    destruct (update_tag_found _ _ _ U) as (H1 & _ & H3). by split.
  - exists (tags ++ [mk_Tag name description]). split; [reflexivity|].
    rewrite !filter_app, (update_tag_missing _ _ U). simpl.
    rewrite !filter_cons, !filter_nil. simpl.
    repeat case_decide; try congruence. by rewrite app_nil_r.
Qed.

End Tags.

(** The tag names of a document stay distinct under [add_global_tag]. *)
Lemma update_tag_names tags name description tags' :
  update_tag tags name description = Some tags' ->
  map tag_name tags' = map tag_name tags.
Proof.
  revert tags'. induction tags as [|t tags IH]; intros tags' H; simpl in H; [discriminate|].
  destruct (String.eqb (tag_name t) name).
  - by inversion H.
  - destruct (update_tag tags name description) as [r|]; [|discriminate].
    inversion H; subst. simpl. by rewrite (IH _ eq_refl).
Qed.

Lemma update_tag_absent tags name description :
  update_tag tags name description = None -> name ∉ map tag_name tags.
Proof.
  induction tags as [|t tags IH]; intros H; simpl in *; [apply not_elem_of_nil|].
  destruct (String.eqb (tag_name t) name) eqn:E; [discriminate|].
  apply String.eqb_neq in E.
  destruct (update_tag tags name description); [discriminate|].
  apply not_elem_of_cons. split; [congruence|]. by apply IH.
Qed.

Lemma add_global_tag_distinct self name description tags self' :
  info_tags (info self) = Some tags ->
  NoDup (map tag_name tags) ->
  add_global_tag name description self = (Ok tt, self') ->
  exists tags', info_tags (info self') = Some tags' /\ NoDup (map tag_name tags').
Proof.
  intros Ht Hnd. unfold add_global_tag. rewrite Ht.
  destruct (update_tag tags name description) as [tags'|] eqn:U; intros [= <-].
  - exists tags'. split; [reflexivity|]. by rewrite (update_tag_names _ _ _ _ U).
  - exists (tags ++ [mk_Tag name description]). split; [reflexivity|].
    rewrite map_app. simpl. apply NoDup_app. split; [assumption|]. split.
    + intros x Hx Hx'. apply list_elem_of_singleton in Hx'. subst.
      by apply (update_tag_absent _ _ _ U).
    + apply NoDup_singleton.
Qed.

Lemma named_at_most_one name (tags : list Tag) :
  NoDup (map tag_name tags) ->
  List.length (filter (fun t => tag_name t = name) tags) <= 1.
Proof.
  induction tags as [|t tags IH]; intros Hnd; [cbn; lia|].
  simpl in Hnd. apply NoDup_cons in Hnd as [Hnot Hnd].
  rewrite filter_cons. case_decide as E; [|by apply IH].
  assert (filter (fun t => tag_name t = name) tags = []) as ->; [|simpl; lia].
  destruct (filter (fun t => tag_name t = name) tags) as [|t' l] eqn:F; [reflexivity|].
  assert (t' ∈ filter (fun t => tag_name t = name) tags) as Hin by (rewrite F; left).
  apply list_elem_of_filter in Hin as [Ht' Hin]. exfalso. apply Hnot.
  rewrite E, <- Ht'. apply list_elem_of_fmap. by exists t'.
Qed.

(** C8. [add_global_tag] is an upsert by name: in a document whose tag list
    holds at most one tag named [name] (as the tag list of every document
    that the builder made does), [add_global_tag(name, d1)] followed by
    [add_global_tag(name, d2)] returns twice, and the tag list of the
    document they leave holds exactly one tag named [name], with description
    [d2], and the tags of other names that were there before. *)
Theorem add_global_tag_upsert self name d1 d2 tags :
  info_tags (info self) = Some tags ->
  List.length (filter (fun t => tag_name t = name) tags) <= 1 ->
  exists self1 self2 tags2,
    add_global_tag name d1 self = (Ok tt, self1) /\
    add_global_tag name d2 self1 = (Ok tt, self2) /\
    info_tags (info self2) = Some tags2 /\
    filter (fun t => tag_name t = name) tags2 = [mk_Tag name d2] /\
    filter (fun t => tag_name t <> name) tags2 = filter (fun t => tag_name t <> name) tags.
Proof.
  intros Ht Hone.
  destruct (add_global_tag_tags name self d1 tags Ht) as (tags1 & E1 & N1 & O1).
  destruct (add_global_tag_tags name (set_tags self tags1) d2 tags1 eq_refl)
    as (tags2 & E2 & N2 & O2).
  exists (set_tags self tags1), (set_tags (set_tags self tags1) tags2), tags2.
  split; [exact E1|]. split; [exact E2|]. split; [reflexivity|]. split.
  - rewrite N2, N1. simpl.
    destruct (filter (fun t => tag_name t = name) tags) as [|t [|t' l]]; simpl in *;
      [reflexivity..|lia].
  - by rewrite O2, O1.
Qed.

Lemma add_global_tag_upsert_witness :
  exists self1 self2 tags2,
    add_global_tag "x" (Some "d1") demo_doc = (Ok tt, self1) /\
    add_global_tag "x" (Some "d2") self1 = (Ok tt, self2) /\
    info_tags (info self2) = Some tags2 /\
    filter (fun t => tag_name t = "x") tags2 = [mk_Tag "x" (Some "d2")] /\
    filter (fun t => tag_name t <> "x") tags2 = filter (fun t => tag_name t <> "x") [].
Proof.
  apply (add_global_tag_upsert demo_doc "x" (Some "d1") (Some "d2") []).
  - reflexivity.
  - simpl. lia.
Defined.

(** ** [add_channel] *)

(** C9. After a successful [add_channel], a second [add_channel] whose id
    sanitizes to the same key raises the duplicate-channel exception and
    leaves the whole document, and so the first channel, as it was. *)
Theorem add_channel_duplicate self self1
    id1 address1 title1 summary1 description1 servers1
    id2 address2 title2 summary2 description2 servers2 :
  add_channel id1 address1 title1 summary1 description1 servers1 self = (Ok tt, self1) ->
  sanitize_id id2 = sanitize_id id1 ->
  add_channel id2 address2 title2 summary2 description2 servers2 self1 =
    (Raise (Exception_ ("Channel " +:+ sanitize_id id1 +:+ " already exists")), self1).
Proof.
  unfold add_channel. intros H E. rewrite E.
  destruct (channels self !! sanitize_id id1) eqn:Hc; [discriminate|].
  injection H as <-. simpl. by rewrite lookup_insert_eq.
Qed.

Lemma add_channel_duplicate_witness :
  add_channel "/chat" (Some "/other") None None None (Some ["BACKEND"]) chat_doc =
    (Raise (Exception_ ("Channel " +:+ sanitize_id "chat" +:+ " already exists")), chat_doc).
Proof.
  apply (add_channel_duplicate demo_doc chat_doc "chat" None None None None None).
  - reflexivity.
  - reflexivity.
Defined.

(** The channel that the first call stored is the one it built. *)
Lemma add_channel_stores self self1 id address title summary description servers :
  add_channel id address title summary description servers self = (Ok tt, self1) ->
  exists c, channels self1 !! sanitize_id id = Some c /\
    ch_address c = (if negb (str_truthy address) then Some id else address) /\
    ch_title c = (if str_truthy title then title else Some (Py.title (sanitize_id id))) /\
    ch_summary c = summary /\ ch_description c = description /\ ch_messages c = None.
Proof.
  unfold add_channel. intros H.
  destruct (channels self !! sanitize_id id) eqn:Hc; [discriminate|].
  injection H as <-. simpl. rewrite lookup_insert_eq. eexists. split; [reflexivity|].
  by repeat split.
Qed.

(** ** [add_event] *)

Section EventFacts.

Variable classes : class_env.
Variable recursion_limit : nat.

Local Abbreviation add_event' := (add_event classes recursion_limit).
Local Abbreviation register_event' := (register_event classes recursion_limit).

Lemma world_eta w : mk_world (doc w) (mem w) = w.
Proof. by destruct w. Qed.

Lemma message_at_with_messages_dict self channel c k :
  message_at (with_messages_dict channel self) c k = message_at self c k.
Proof.
  unfold with_messages_dict.
  destruct (channels self !! channel) as [ch|] eqn:Hch; [|reflexivity].
  destruct (messages_truthy (ch_messages ch)) eqn:Ht; [reflexivity|].
  unfold message_at. simpl. rewrite lookup_alter. case_decide as E.
  - subst c. rewrite Hch. simpl. rewrite lookup_empty.
    unfold messages_truthy in Ht. destruct (ch_messages ch) as [msgs|]; [|reflexivity].
    apply negb_false_iff, bool_decide_eq_true in Ht. subst. by rewrite lookup_empty.
  - reflexivity.
Qed.

(** The checks of [add_event]: a missing channel is a [KeyError], a known
    id is the duplicate-message exception and leaves everything as it was,
    and otherwise the registration runs. *)
Lemma add_event_eq a w :
  add_event' a w =
  let id := event_id (arg_id a) in
  let channel := sanitize_id (arg_channel a) in
  match channels (doc w) !! channel with
  | None => (Raise KeyError, w)
  | Some _ =>
      match message_at (doc w) channel id with
      | Some _ => (Raise (Exception_ ("Message " +:+ id +:+ " already in " +:+ channel)), w)
      | None => register_event' channel id a
                  (mk_world (with_messages_dict channel (doc w)) (mem w))
      end
  end.
Proof.
  unfold add_event, with_messages_dict, message_at.
  unfold bind, on_doc, get, lift_result, ret, raise, channels_getitem. simpl.
  destruct (channels (doc w) !! sanitize_id (arg_channel a)) as [ch|] eqn:Hch;
    [|by rewrite world_eta].
  simpl. destruct (messages_truthy (ch_messages ch)) eqn:Ht; simpl.
  - unfold channel_obj_messages. simpl. rewrite Hch.
    destruct (ch_messages ch) as [msgs|]; [|discriminate]. simpl.
    destruct (msgs !! event_id (arg_id a)) as [m|] eqn:Hm.
    + rewrite bool_decide_eq_true_2 by by eexists. by rewrite world_eta.
    + rewrite bool_decide_eq_false_2 by (by intros [? ?]). reflexivity.
  - unfold channel_obj_messages, channel_obj_set_messages. simpl.
    rewrite lookup_alter, decide_True by reflexivity. rewrite Hch. simpl.
    rewrite lookup_empty.
    rewrite bool_decide_eq_false_2 by (by intros [? ?]).
    destruct (ch_messages ch) as [msgs|]; [|reflexivity].
    unfold messages_truthy in Ht. apply negb_false_iff, bool_decide_eq_true in Ht.
    subst. by rewrite lookup_empty.
Qed.

(** *** The single writes *)

Lemma setitem_eq channel k m self :
  channel_obj_messages_setitem channel k m self =
  match channels self !! channel with
  | Some c =>
      match ch_messages c with
      | Some msgs =>
          (Ok tt, set_channels self
                    (alter (fun c => set_messages c (<[k := m]> msgs)) channel (channels self)))
      | None => (Raise TypeError, self)
      end
  | None => (Raise KeyError, self)
  end.
Proof.
  unfold channel_obj_messages_setitem, bind, channel_obj_messages, channel_obj_set_messages.
  destruct (channels self !! channel) as [c|]; [|reflexivity].
  by destruct (ch_messages c).
Qed.

Lemma setitem_ok channel k m self self' :
  channel_obj_messages_setitem channel k m self = (Ok tt, self') ->
  (forall c' k', message_at self' c' k' =
                 if decide (c' = channel /\ k' = k) then Some m else message_at self c' k') /\
  operations self' = operations self /\
  components self' = components self /\
  info self' = info self.
Proof.
  rewrite setitem_eq.
  destruct (channels self !! channel) as [c|] eqn:Hc; [|discriminate].
  destruct (ch_messages c) as [msgs|] eqn:Hm; [|discriminate].
  intros [= <-]. split; [|by repeat split].
  intros c' k'. unfold message_at. simpl. rewrite lookup_alter.
  destruct (decide (channel = c')) as [<-|Hne].
  - rewrite Hc. simpl. rewrite Hm. rewrite lookup_insert.
    destruct (decide (k = k')) as [<-|Hk].
    + by rewrite decide_True.
    + rewrite decide_False; [reflexivity|]. intros [_ ?]. congruence.
  - rewrite decide_False; [reflexivity|]. intros [? _]. congruence.
Qed.

Lemma setitem_raises channel k m self e self' :
  channel_obj_messages_setitem channel k m self = (Raise e, self') -> self' = self.
Proof.
  rewrite setitem_eq.
  destruct (channels self !! channel) as [c|]; [|by intros [= _ <-]].
  destruct (ch_messages c); [discriminate|by intros [= _ <-]].
Qed.

Lemma register_payload_eq pm self :
  register_payload pm self =
  match pm with
  | None => (Ok None, self)
  | Some NotProvided => (Raise AttributeError, self)
  | Some (ModelClass m) =>
      (Ok (Some (make_ref (schema_path (model_name m)))),
       snd (schemas_setitem (model_name m)
              (PydanticSchema m (schema_path (model_name m))) self))
  end.
Proof. by destruct pm as [[|m]|]. Qed.

Lemma register_payload_keeps pm self r self' :
  register_payload pm self = (r, self') ->
  channels self' = channels self /\ operations self' = operations self /\
  info self' = info self.
Proof.
  rewrite register_payload_eq. destruct pm as [[|m]|]; intros [= <- <-]; by repeat split.
Qed.

Lemma register_ack_eq channel id name channel_ref payload tags am ack_title self :
  register_ack channel id name channel_ref payload tags am ack_title self =
  register_ack_result channel id name channel_ref payload tags am ack_title self.
Proof.
  unfold register_ack_result.
  destruct am as [[|m]|]; try reflexivity.
  destruct ack_title as [t|]; [|reflexivity].
  unfold register_ack. simpl. unfold bind at 1. simpl. unfold bind at 1.
  by destruct (channel_obj_messages_setitem _ _ _ _) as [[[]|e] self2].
Qed.

(** *** The trace of a registration that returns *)

Lemma register_event_ok channel id a w0 w1 :
  register_event' channel id a w0 = (Ok tt, w1) ->
  exists l payload self1 reply self2 self3,
    event_locals classes recursion_limit id a (mem w0) = (Ok l, mem w1) /\
    register_payload (l_payload_model l) (doc w0) = (Ok payload, self1) /\
    register_ack channel id (event_name id l) (make_ref ("/channels/" +:+ channel))
                 payload (arg_tags a) (l_ack_data_model l) (l_ack_title l) self1
      = (Ok reply, self2) /\
    channel_obj_messages_setitem channel id (message_obj id a l payload) self2
      = (Ok tt, self3) /\
    valid_action (arg_action a) = true /\
    doc w1 = snd (operations_setitem (channel +:+ "/" +:+ id)
                    (operation_obj channel id a l reply) self3).
Proof.
  unfold register_event, bind, on_mem, on_doc, raise. simpl.
  destruct (event_locals _ _ id a (mem w0)) as [[l|e] m1] eqn:Hl; [|discriminate]. simpl.
  destruct (register_payload (l_payload_model l) (doc w0)) as [[payload|e] self1] eqn:Hp;
    [|discriminate]. simpl.
  destruct (register_ack _ _ _ _ _ _ _ _ self1) as [[reply|e] self2] eqn:Ha;
    [|discriminate]. simpl.
  destruct (channel_obj_messages_setitem _ _ _ self2) as [[[]|e] self3] eqn:Hs;
    [|discriminate]. simpl.
  destruct (valid_action (arg_action a)) eqn:Hv; [|discriminate]. simpl.
  intros [= <-]. simpl. by exists l, payload, self1, reply, self2, self3.
Qed.

(** A registration that returns has stored its message. *)
Lemma register_event_stores channel id a w0 w1 :
  register_event' channel id a w0 = (Ok tt, w1) ->
  is_Some (message_at (doc w1) channel id).
Proof.
  intros H. destruct (register_event_ok _ _ _ _ _ H)
    as (l & payload & self1 & reply & self2 & self3 & _ & _ & _ & Hs & _ & Hd).
  destruct (setitem_ok _ _ _ _ _ Hs) as (Hm & _).
  rewrite Hd.
  change (message_at (snd (operations_setitem _ _ self3)) channel id)
    with (message_at self3 channel id).
  rewrite Hm, decide_True by done. by eexists.
Qed.

End EventFacts.

(** C4. After an [add_event] that returned, a second [add_event] for the
    same channel (after [sanitize_id]) and the same event id (after the
    ["on_"] prefix is cut) raises the duplicate-message exception, and
    leaves the document and the caches exactly as the first call left
    them. *)
Theorem add_event_duplicate classes recursion_limit a1 a2 w w1 :
  add_event classes recursion_limit a1 w = (Ok tt, w1) ->
  sanitize_id (arg_channel a2) = sanitize_id (arg_channel a1) ->
  event_id (arg_id a2) = event_id (arg_id a1) ->
  add_event classes recursion_limit a2 w1 =
    (Raise (Exception_ ("Message " +:+ event_id (arg_id a1) +:+ " already in "
                        +:+ sanitize_id (arg_channel a1))), w1).
Proof.
  intros H Ec Ei. rewrite add_event_eq in H. simpl in H.
  destruct (channels (doc w) !! sanitize_id (arg_channel a1)) as [ch|] eqn:Hch;
    [|discriminate].
  destruct (message_at (doc w) (sanitize_id (arg_channel a1)) (event_id (arg_id a1)));
    [discriminate|].
  apply register_event_stores in H as [m Hm].
  rewrite add_event_eq. simpl. rewrite Ec, Ei, Hm.
  unfold message_at in Hm.
  by destruct (channels (doc w1) !! sanitize_id (arg_channel a1)).
Qed.

Lemma add_event_duplicate_witness :
  add_event example_classes 10 (no_args "/chat" "On_message") message_world =
    (Raise (Exception_ ("Message " +:+ event_id (arg_id message_event) +:+ " already in "
                        +:+ sanitize_id (arg_channel message_event))), message_world).
Proof.
  apply (add_event_duplicate example_classes 10 message_event
           (no_args "/chat" "On_message") chat_world message_world).
  - vm_compute. reflexivity.
  - reflexivity.
  - reflexivity.
Defined.

Section AckFacts.

Variable classes : class_env.
Variable recursion_limit : nat.

Lemma dict_get_middle (before after : dict ty) k t :
  k ∉ map fst before -> dict_get (before ++ (k, t) :: after) k = Some t.
Proof.
  induction before as [|[k' v'] before IH]; intros Hk; simpl.
  - by rewrite String.eqb_refl.
  - simpl in Hk. apply not_elem_of_cons in Hk as [Hne Hk].
    destruct (String.eqb k' k) eqn:E; [apply String.eqb_eq in E; congruence|].
    by apply IH.
Qed.

Lemma get_type_hints_return h rt :
  handler_return h = Some rt -> "return" ∉ map fst (handler_params h) ->
  dict_get (get_type_hints h) "return" = Some rt.
Proof. intros Hr Hp. unfold get_type_hints. rewrite Hr. by apply dict_get_middle. Qed.



Lemma with_messages_dict_channel channel self ch :
  channels self !! channel = Some ch ->
  exists ch' msgs,
    channels (with_messages_dict channel self) !! channel = Some ch' /\
    ch_messages ch' = Some msgs.
Proof.
  intros Hch. unfold with_messages_dict. rewrite Hch.
  destruct (messages_truthy (ch_messages ch)) eqn:Ht.
  - unfold messages_truthy in Ht. destruct (ch_messages ch) as [msgs|] eqn:Hm;
      [|discriminate]. by exists ch, msgs.
  - simpl. rewrite lookup_alter, decide_True, Hch by reflexivity. simpl. by eexists _, _.
Qed.

Lemma setitem_returns channel k m self ch msgs :
  channels self !! channel = Some ch -> ch_messages ch = Some msgs ->
  exists self',
    channel_obj_messages_setitem channel k m self = (Ok tt, self') /\
    exists ch' msgs', channels self' !! channel = Some ch' /\ ch_messages ch' = Some msgs'.
Proof.
  intros Hch Hm. rewrite setitem_eq, Hch, Hm. eexists. split; [reflexivity|].
  simpl. rewrite lookup_alter, decide_True, Hch by reflexivity. simpl. by eexists _, _.
Qed.


End AckFacts.





(** The same where [rewrite_type] returns and pydantic refuses a field: for
    [def on_message(text: str) -> Plain], with [Plain] a class that pydantic
    has no validator for, [rewrite_type] hands [Plain] back, [create_model]
    raises [RuntimeError] inside the same [try], and the call returns with no
    acknowledgement schema, message or reply. *)
Lemma add_event_return_Plain_no_ack :
  let a := with_handler (no_args "chat" "on_message") on_message_Plain in
  let r := add_event example_classes 10 a chat_world in
  (arg_handler a = Some on_message_Plain /\
   handler_return on_message_Plain = Some (Leaf "Plain") /\
   rewrite_type example_classes 10 (Leaf "Plain") (mk_caches 1 ∅ ∅)
     = (Ok (Leaf "Plain"), mk_caches 1 ∅ ∅) /\
   pydantic_field example_classes "data" (Leaf "Plain") = Refuse RuntimeError /\
   arg_ack_data_model a = None) /\
  fst r = Ok tt /\
  comp_schemas (components (doc (snd r))) !! "MessageAck" = None /\
  message_at (doc (snd r)) "chat" "messageAck" = None /\
  (op_reply <$> operations (doc (snd r)) !! "chat/message") = Some None.
Proof. vm_compute. repeat split; reflexivity. Qed.

(** ** An explicit acknowledgement model *)

Lemma operations_with_messages_dict channel self :
  operations (with_messages_dict channel self) = operations self.
Proof.
  unfold with_messages_dict. destruct (channels self !! channel) as [ch|]; [|reflexivity].
  by destruct (messages_truthy (ch_messages ch)).
Qed.




(** The acknowledgement block is reached in that call. *)
Lemma add_event_explicit_ack_reached :
  let a := with_ack (no_args "chat" "on_message") (ModelClass Receipt) in
  let r := add_event example_classes 10 a chat_world in
  fst r = Raise UnboundLocalError /\
  comp_schemas (components (doc (snd r))) !! "Receipt" =
    Some (PydanticSchema Receipt (schema_path "Receipt")) /\
  message_at (doc (snd r)) "chat" "message" = None /\
  message_at (doc (snd r)) "chat" "messageAck" = None /\
  operations (doc (snd r)) = ∅.
Proof. vm_compute. repeat split; reflexivity. Qed.


(** ** The payload model *)

Section PayloadFacts.

Variable classes : class_env.
Variable recursion_limit : nat.

(** Over distinct annotated names, the loop over the parameter names is the
    loop over the parameters. *)
Lemma for_params_fields params : forall before after acc c,
  NoDup (map fst before ++ map fst params) ->
  for_params classes recursion_limit (before ++ params ++ after)
             (map fst params) acc c =
  for_fields (rewrite_type classes recursion_limit) params acc c.
Proof.
  induction params as [|[k t] params IH]; intros before after acc c Hnd; [reflexivity|].
  simpl. rewrite dict_get_middle.
  - unfold bind, rewrite.
    destruct (rewrite_type classes recursion_limit t c) as [[t'|e] c1];
      [|reflexivity].
    replace (before ++ (k, t) :: params ++ after)
      with ((before ++ [(k, t)]) ++ params ++ after) by by rewrite <- app_assoc.
    apply IH. rewrite map_app, <- app_assoc. exact Hnd.
  - apply NoDup_app in Hnd as (_ & Hdis & _). intros Hin. apply (Hdis _ Hin). left.
Qed.

(** C2 holds for a handler that declares its return type: the fields handed
    to [create_model] are the declared parameters, in order, typed as
    [rewrite_type] types them. The payload model is what pydantic makes of
    them, named [<TitleizedEventId>Payload]; where pydantic refuses them,
    the [try] swallows the exception and there is no payload model. *)
Lemma handler_payload_annotated h rt id a c l c' :
  handler_return h = Some rt ->
  NoDup (map fst (handler_params h)) ->
  arg_payload_model a = None ->
  handler_payload classes recursion_limit h id a c = (Ok l, c') ->
  exists types,
    Forall2 (fun p t => rewrite_type classes recursion_limit (snd p) c' = (Ok t, c'))
            (handler_params h) types /\
    match pydantic_fields classes (zip (map fst (handler_params h)) types) with
    | Ok kept =>
        exists M, l_payload_model l = Some (ModelClass M) /\
                  model_name M = payload_prefix id +:+ "Payload" /\
                  model_fields M = kept
    | Raise _ => l_payload_model l = None
    end.
Proof.
  intros Hret Hnd Hpm. unfold handler_payload, get_type_hints, dict_keys.
  rewrite Hret, Hpm, map_app. simpl. rewrite removelast_last.
  unfold bind at 1.
  pose proof (for_params_fields (handler_params h) [] [("return", rt)] [] c Hnd) as E.
  simpl in E. rewrite E. clear E.
  destruct (for_fields _ (handler_params h) [] c) as [[fields|e] c1] eqn:Hf; [|discriminate].
  destruct (for_fields_types _ _ _ _ _ _ _ Hf) as (types & -> & Hall).
  assert (dict_fill [] (map fst (handler_params h)) types
          = zip (map fst (handler_params h)) types) as ->.
  { apply (dict_fill_fresh _ []); [exact Hnd|].
    symmetry. rewrite length_map. eapply Forall2_length. apply (Hall c1), caches_le_refl. }
  unfold bind, create_model, ret.
  destruct (pydantic_fields classes _) as [kept|e] eqn:E; simpl; intros [= <- <-];
    exists types; rewrite E; (split; [|try reflexivity]).
  - apply Hall. repeat split; simpl; [lia|reflexivity..].
  - eexists. split; [reflexivity|]. by split.
  - apply Hall. apply caches_le_refl.
Qed.

End PayloadFacts.

(** C2, at a handler with no declared return type:
    [def on_message(text: str)]. The slice [[:-1]] that is meant to drop the
    key ["return"] drops the parameter [text], the last key there is, and the
    payload model [MessagePayload] has no field. *)
Theorem add_event_unannotated_handler_drops_parameter :
  let a := with_handler (no_args "chat" "on_message") on_message_unannotated in
  let r := add_event example_classes 10 a chat_world in
  handler_params on_message_unannotated = [("text", Leaf "str")] /\
  arg_payload_model a = None /\
  fst r = Ok tt /\
  comp_schemas (components (doc (snd r))) !! "MessagePayload" =
    Some (PydanticSchema (mk_model 0 "MessagePayload" []) (schema_path "MessagePayload")).
Proof. vm_compute. repeat split; reflexivity. Qed.

(** * What holds in every state the builder reaches *)

Section BuiltFacts.

Variable classes : class_env.
Variable recursion_limit : nat.

Local Abbreviation sound c := (caches_sound classes c).

Lemma create_model_sound name fields c r c' :
  sound c -> create_model classes name fields c = (r, c') -> sound c'.
Proof.
  intros [Hs Hm]. unfold create_model.
  destruct (pydantic_fields classes fields); intros [= _ <-]; [|by split].
  split; [exact Hs|].
  eapply models_cached_le; [exact Hm| |by intros].
  repeat split; simpl; [lia|reflexivity..].
Qed.

Lemma for_params_sound type_hints : forall names acc c r c',
  sound c ->
  for_params classes recursion_limit type_hints names acc c = (r, c') ->
  sound c'.
Proof.
  induction names as [|k names IH]; intros acc c r c' Hs H; simpl in H.
  - unfold ret in H. by simplify_eq.
  - destruct (dict_get type_hints k) as [t|]; [|unfold raise in H; by simplify_eq].
    unfold bind, rewrite in H.
    destruct (rewrite_type classes recursion_limit t c) as [[t'|e] c1] eqn:Ht.
    + eapply IH; [|exact H]. eapply rewrite_type_sound; eassumption.
    + simplify_eq. eapply rewrite_type_sound; eassumption.
Qed.

Lemma event_locals_sound id a c r c' :
  sound c ->
  event_locals classes recursion_limit id a c = (r, c') ->
  sound c'.
Proof.
  intros Hs. unfold event_locals. destruct (arg_handler a) as [h|];
    [|unfold ret; by intros [= _ <-]].
  unfold handler_block, bind.
  destruct (handler_payload _ _ h id a c) as [[l|e] c1] eqn:Hp.
  - assert (sound c1) as Hs1.
    { revert Hp. unfold handler_payload, bind.
      destruct (for_params _ _ _ _ _ c) as [[fs|e] c0] eqn:Hf; [|discriminate].
      pose proof (for_params_sound _ _ _ _ _ _ Hs Hf) as Hs0.
      destruct (arg_payload_model a); [unfold ret; simpl; by intros [= _ <-]|].
      destruct (create_model classes _ fs c0) as [[M|e] c2] eqn:Hc; unfold ret; simpl;
        intros [= _ <-]; eapply create_model_sound; eassumption. }
    destruct (dict_get (get_type_hints h) "return") as [rt|];
      [|unfold ret; by intros [= _ <-]].
    destruct (arg_ack_data_model a); [unfold ret; by intros [= _ <-]|].
    unfold synthesize_ack. destruct (negb (is_NoneType rt));
      [|unfold ret; by intros [= _ <-]].
    unfold rewrite.
    destruct (rewrite_type classes recursion_limit rt c1) as [[rt'|e0] c2] eqn:Hr.
    + pose proof (rewrite_type_sound _ _ _ _ _ _ Hs1 Hr) as Hs2.
      destruct (create_model classes _ _ c2) as [[M|e0] c3] eqn:Hc; unfold ret; simpl;
        intros [= _ <-]; eapply create_model_sound; eassumption.
    + unfold ret; simpl; intros [= _ <-]. eapply rewrite_type_sound; eassumption.
  - intros [= _ <-]. revert Hp. unfold handler_payload, bind.
    destruct (for_params _ _ _ _ _ c) as [[fs|e0] c0] eqn:Hf.
    + destruct (arg_payload_model a); [unfold ret; simpl; discriminate|].
      destruct (create_model classes _ fs c0) as [[M|e0] c2]; unfold ret; simpl; discriminate.
    + intros [= _ <-]. eapply for_params_sound; eassumption.
Qed.

Lemma register_ack_keeps channel id name channel_ref payload tags am ack_title self r self' :
  register_ack channel id name channel_ref payload tags am ack_title self = (r, self') ->
  info self' = info self /\ operations self' = operations self.
Proof.
  rewrite register_ack_eq. unfold register_ack_result.
  destruct am as [[|m]|]; try (intros [= _ <-]; by split).
  simpl. destruct ack_title as [t|]; [|intros [= _ <-]; by split].
  destruct (channel_obj_messages_setitem _ _ _ _) as [[[]|e] self2] eqn:Hs.
  - intros [= _ <-]. destruct (setitem_ok _ _ _ _ _ Hs) as (_ & Ho & _ & Hi).
    by rewrite Hi, Ho.
  - intros [= _ <-]. by rewrite (setitem_raises _ _ _ _ _ _ Hs).
Qed.

Lemma info_with_messages_dict channel self :
  info (with_messages_dict channel self) = info self.
Proof.
  unfold with_messages_dict. destruct (channels self !! channel) as [ch|]; [|reflexivity].
  by destruct (messages_truthy (ch_messages ch)).
Qed.

(** [add_event] writes the caches through the handler block alone and
    never touches [info]. *)
Lemma add_event_frame a w r w' :
  add_event classes recursion_limit a w = (r, w') ->
  info (doc w') = info (doc w) /\
  (mem w' = mem w \/
   exists r', event_locals classes recursion_limit (event_id (arg_id a)) a (mem w)
              = (r', mem w')).
Proof.
  rewrite add_event_eq. simpl.
  destruct (channels (doc w) !! sanitize_id (arg_channel a)) as [ch|];
    [|intros [= _ <-]; split; [reflexivity|by left]].
  destruct (message_at (doc w) _ _); [intros [= _ <-]; split; [reflexivity|by left]|].
  unfold register_event, bind, on_mem, on_doc, raise. simpl.
  destruct (event_locals _ _ _ a (mem w)) as [[l|e] c1] eqn:Hl; simpl;
    [|intros [= _ <-]; simpl; split; [apply info_with_messages_dict|right; by eexists]].
  destruct (register_payload (l_payload_model l) _) as [[payload|e] self1] eqn:Hp; simpl;
    destruct (register_payload_keeps _ _ _ _ Hp) as (_ & _ & Hi1);
    [|intros [= _ <-]; simpl; split;
      [by rewrite Hi1, info_with_messages_dict|right; by eexists]].
  destruct (register_ack _ _ _ _ _ _ _ _ self1) as [[reply|e] self2] eqn:Ha; simpl;
    destruct (register_ack_keeps _ _ _ _ _ _ _ _ _ _ _ Ha) as (Hi2 & _);
    [|intros [= _ <-]; simpl; split;
      [by rewrite Hi2, Hi1, info_with_messages_dict|right; by eexists]].
  destruct (channel_obj_messages_setitem _ _ _ self2) as [[[]|e] self3] eqn:Hs; simpl.
  - destruct (setitem_ok _ _ _ _ _ Hs) as (_ & _ & _ & Hi3).
    destruct (valid_action (arg_action a)); simpl; intros [= _ <-]; simpl;
      (split; [by rewrite Hi3, Hi2, Hi1, info_with_messages_dict|right; by eexists]).
  - rewrite (setitem_raises _ _ _ _ _ _ Hs). intros [= _ <-]. simpl.
    split; [by rewrite Hi2, Hi1, info_with_messages_dict|right; by eexists].
Qed.

Lemma add_channel_info id address title summary description servers self r self' :
  add_channel id address title summary description servers self = (r, self') ->
  info self' = info self.
Proof.
  unfold add_channel. destruct (channels self !! sanitize_id id); by intros [= _ <-].
Qed.

(** In every state the builder reaches, the caches are sound and the tags
    of the document form a list with distinct names. *)
Lemma built_invariant w :
  built classes recursion_limit w ->
  sound (mem w) /\
  exists tags, info_tags (info (doc w)) = Some tags /\ NoDup (map tag_name tags).
Proof.
  induction 1 as [ | w name description r self' _ [Hs (tags & Ht & Hnd)] H
                   | w id address title summary description servers r self' _ [Hs Htags] H
                   | w a r w' _ [Hs Htags] H
                   | w depth tp r c' _ [Hs Htags] H ]; simpl.
  - split; [apply caches_sound_empty|]. exists []. split; [reflexivity|constructor].
  - split; [exact Hs|]. destruct r as [[]|e].
    + eapply add_global_tag_distinct; eassumption.
    + revert H. unfold add_global_tag. rewrite Ht.
      destruct (update_tag tags name description); discriminate.
  - split; [exact Hs|]. by rewrite (add_channel_info _ _ _ _ _ _ _ _ _ H).
  - destruct (add_event_frame _ _ _ _ H) as [Hi Hmem]. split.
    + destruct Hmem as [->|[r' Hl]]; [exact Hs|]. eapply event_locals_sound; eassumption.
    + by rewrite Hi.
  - split; [|exact Htags]. eapply rewrite_type_sound; eassumption.
Qed.

End BuiltFacts.

(** * Further properties *)

(** ** Ids *)

Lemma has_char_remove_char c s : has_char c (remove_char c s) = false.
Proof.
  induction s as [|a s IH]; simpl; [reflexivity|].
  destruct (Ascii.eqb a c) eqn:E; [exact IH|]. simpl. by rewrite E.
Qed.

Lemma remove_char_absent c s : has_char c s = false -> remove_char c s = s.
Proof.
  induction s as [|a s IH]; simpl; [reflexivity|].
  destruct (Ascii.eqb a c); [discriminate|]. intros H. by rewrite IH.
Qed.

Lemma remove_char_app c s t :
  remove_char c (s +:+ t) = remove_char c s +:+ remove_char c t.
Proof.
  induction s as [|a s IH]; simpl; [reflexivity|].
  destruct (Ascii.eqb a c); [exact IH|]. simpl. by rewrite IH.
Qed.

(** X1. [sanitize_id] removes every slash and nothing else: its result holds
    no slash, an id without a slash is its own key, sanitizing twice is
    sanitizing once, and the key of a concatenation is the concatenation of
    the keys, so that ids that differ in slashes only name one channel. *)
Theorem sanitize_id_key id1 id2 :
  has_char "/" (sanitize_id id1) = false /\
  (has_char "/" id1 = false -> sanitize_id id1 = id1) /\
  sanitize_id (sanitize_id id1) = sanitize_id id1 /\
  sanitize_id (id1 +:+ id2) = sanitize_id id1 +:+ sanitize_id id2 /\
  sanitize_id (id1 +:+ "/" +:+ id2) = sanitize_id (id1 +:+ id2).
Proof.
  unfold sanitize_id. split; [apply has_char_remove_char|].
  split; [apply remove_char_absent|].
  split; [apply remove_char_absent, has_char_remove_char|].
  split; [apply remove_char_app|]. by rewrite !remove_char_app.
Qed.

(** ** The type rewriter *)

Section RewriterMore.

Variable classes : class_env.

Local Abbreviation rw := (rewrite_type classes).

Local Abbreviation shaped c := (shapes_cached classes c).

Lemma cached_model_is_class c cls M :
  shaped c -> _dc_cache c !! cls = Some M -> exists id name fs, M = Model id name fs.
Proof.
  intros [_ Hd] Hc. destruct (Hd _ _ Hc) as [n Hn].
  destruct n as [|n]; simpl in Hn; [discriminate|].
  destruct (shape_fields _ _ _) as [fs|]; [|discriminate].
  destruct (pydantic_fields classes fs); [|discriminate].
  destruct M; simpl in Hn; try discriminate. by eexists _, _, _.
Qed.

Lemma cached_ref_is_class c cls R :
  shaped c -> _ref_cache c !! cls = Some R -> exists id name, R = UUIDRef id name.
Proof.
  intros [Hr _] Hc. pose proof (Hr _ _ Hc) as Hn.
  destruct R; simpl in Hn; try discriminate. by eexists _, _.
Qed.

(** The rewritten arguments of a generic are left alone by a second pass. *)
Lemma mapM_fixed d :
  (forall tp c r c' c'', shaped c -> rw d tp c = (Ok r, c') -> caches_le c' c'' ->
     rw d r c'' = (Ok r, c'')) ->
  forall args c args' c' c'',
    shaped c -> mapM (rw d) args c = (Ok args', c') -> caches_le c' c'' ->
    Forall (fun a' => rw d a' c'' = (Ok a', c'')) args'.
Proof.
  intros IH args. induction args as [|a args IHl]; intros c args' c' c'' Hs H Hle; simpl in H.
  - unfold ret in H. simplify_eq. constructor.
  - unfold bind in H. destruct (rw d a c) as [[y|e] c1] eqn:Ha; [|discriminate].
    destruct (mapM (rw d) args c1) as [[ys|e] c2] eqn:Hl; [|discriminate].
    unfold ret in H. simplify_eq.
    assert (caches_le c1 c'') as Hle1.
    { eapply caches_le_trans; [|exact Hle].
      eapply mapM_grows; [apply rewrite_type_grows|exact Hl]. }
    constructor; [by eapply IH|].
    eapply IHl; [|exact Hl|exact Hle].
    by eapply rewrite_type_shape.
Qed.

Lemma mapM_of_fixed d l c :
  Forall (fun a => rw d a c = (Ok a, c)) l -> mapM (rw d) l c = (Ok l, c).
Proof.
  induction 1 as [|a l Ha _ IH]; simpl; [reflexivity|].
  unfold bind, ret. by rewrite Ha, IH.
Qed.

Lemma rewrite_type_fixed n :
  forall tp c r c' c'',
    shaped c -> rw n tp c = (Ok r, c') -> caches_le c' c'' -> rw n r c'' = (Ok r, c'').
Proof.
  induction n as [|d IH]; intros tp c r c' c'' Hs H Hle.
  { simpl in H. unfold raise in H. discriminate. }
  destruct tp; try (simpl in H; unfold ret in H; by simplify_eq).
  - simpl in H. unfold peewee_uuid_ref in H.
    destruct (_ref_cache c !! cls) as [R|] eqn:Hc; [|by simplify_eq].
    simplify_eq. by destruct (cached_ref_is_class _ _ _ Hs Hc) as (id & name & ->).
  - rewrite rewrite_type_dataclass_eq in H.
    destruct (_dc_cache c !! cls) as [M|] eqn:Hc.
    + simplify_eq. by destruct (cached_model_is_class _ _ _ Hs Hc) as (id & name & fs & ->).
    + destruct (for_fields _ _ _ c) as [[fs|e] c1]; [|by simplify_eq].
      destruct (pydantic_fields classes fs); by simplify_eq.
  - pose proof H as Hrun. rewrite rewrite_type_generic_eq in H.
    destruct (mapM (rw d) args c) as [[args'|e] c1] eqn:Hm; [|discriminate].
    assert (c1 = c') as ->.
    { destruct o; try (destruct (rebuild_container _ args') as [[t|]|e]); by simplify_eq. }
    pose proof (mapM_fixed d IH _ _ _ _ _ Hs Hm Hle) as Hfix.
    assert (forall l, Forall (fun a' => rw d a' c'' = (Ok a', c'')) l ->
              forall o', rw (S d) (Generic o' l) c'' =
                match o' with
                | o_Union => (Ok (Generic o_Union l), c'')
                | _ => match rebuild_container o' l with
                       | Ok (Some t) => (Ok t, c'')
                       | Ok None => (Ok (Generic o' l), c'')
                       | Raise e => (Raise e, c'')
                       end
                end) as Hgen.
    { intros l Hl o'. rewrite rewrite_type_generic_eq. by rewrite (mapM_of_fixed _ _ _ Hl). }
    destruct o.
    + simpl in H. destruct args' as [|a0 rest]; [discriminate|]. simplify_eq.
      rewrite Hgen; [reflexivity|]. constructor; [by inversion Hfix|constructor].
    + simpl in H. destruct args' as [|a0 rest]; [discriminate|]. simplify_eq.
      rewrite Hgen; [reflexivity|]. constructor; [by inversion Hfix|constructor].
    + simpl in H. destruct args' as [|a0 [|a1 rest]]; try discriminate. simplify_eq.
      rewrite Hgen; [reflexivity|].
      inversion Hfix as [|? ? H0 H1]; subst. inversion H1; subst.
      by repeat constructor.
    + simpl in H. destruct args' as [|a0 [|a1 [|a2 rest]]]; simplify_eq;
        try (rewrite Hgen; [reflexivity|assumption]).
      destruct (is_Ellipsis a1) eqn:E; simplify_eq.
      * destruct a1; try discriminate. rewrite Hgen; [reflexivity|assumption].
      * rewrite Hgen; [|assumption]. simpl. by rewrite E.
    + simplify_eq. by rewrite Hgen.
    + simpl in H. simplify_eq. eapply rewrite_type_again; eassumption.
Qed.

End RewriterMore.

(** X2. Rewriting is idempotent: in caches that are sound, what
    [rewrite_type] returned is a type that [rewrite_type] hands back
    unchanged, in the state the call left and in every later state, and
    without writing to the caches. *)
Theorem rewrite_type_idempotent classes n tp c r c' c'' :
  caches_sound classes c ->
  rewrite_type classes n tp c = (Ok r, c') ->
  caches_le c' c'' ->
  rewrite_type classes n r c'' = (Ok r, c'').
Proof. intros [Hs _]. by apply rewrite_type_fixed. Qed.

Lemma rewrite_type_idempotent_witness :
  rewrite_type example_classes 3 SegmentSchema segment_cached = (Ok SegmentSchema, segment_cached).
Proof.
  apply (rewrite_type_idempotent example_classes 3 (Dataclass "Segment") no_caches
           SegmentSchema segment_cached segment_cached).
  - apply caches_sound_empty.
  - vm_compute. reflexivity.
  - apply caches_le_refl.
Defined.

Lemma height_arg a args : a ∈ args -> height a <= list_max (map height args).
Proof.
  unfold list_max. induction 1 as [a l|a b l _ IH]; simpl.
  - apply Nat.le_max_l.
  - etrans; [exact IH|apply Nat.le_max_r].
Qed.

Lemma plain_arg_fixed classes d (IH : forall tp c, plain tp = true -> height tp < d ->
                                     rewrite_type classes d tp c = (Ok tp, c)) args c :
  forallb (fun a => is_Ellipsis a || plain a) args = true ->
  list_max (map height args) < d ->
  Forall (fun a => rewrite_type classes d a c = (Ok a, c)) args.
Proof.
  intros Ha Hh. apply Forall_forall. intros a Hin.
  rewrite forallb_forall in Ha. pose proof (Ha a ltac:(by apply list_elem_of_In)) as Hpa.
  pose proof (height_arg _ _ Hin) as Hle.
  apply orb_true_iff in Hpa as [He|Hpa].
  - destruct a; try discriminate. destruct d; [lia|reflexivity].
  - apply IH; [exact Hpa|lia].
Qed.

Lemma forallb_weaken {A} (f g : A -> bool) l :
  (forall a, f a = true -> g a = true) -> forallb f l = true -> forallb g l = true.
Proof.
  intros Hfg. induction l as [|a l IH]; simpl; [done|].
  intros H. apply andb_true_iff in H as [Ha Hl]. by rewrite (Hfg _ Ha), IH.
Qed.

Lemma plain_type_fixed classes n : forall tp c,
  plain tp = true -> height tp < n -> rewrite_type classes n tp c = (Ok tp, c).
Proof.
  induction n as [|d IH]; intros tp c Hp Hh; [lia|].
  destruct tp; try discriminate; try reflexivity.
  rewrite rewrite_type_generic_eq.
  simpl in Hh. apply Nat.succ_lt_mono in Hh.
  assert (forallb (fun a => is_Ellipsis a || plain a) args = true ->
          mapM (rewrite_type classes d) args c = (Ok args, c)) as Hmap.
  { intros Ha. apply mapM_of_fixed. by apply plain_arg_fixed. }
  assert (forallb plain args = true ->
          mapM (rewrite_type classes d) args c = (Ok args, c)) as Hmap'.
  { intros Ha. apply Hmap. revert Ha. apply forallb_weaken. intros a ->. apply orb_true_r. }
  destruct o; simpl in Hp.
  - apply andb_true_iff in Hp as [Ho Ha]. rewrite (Hmap' Ha).
    destruct args as [|a0 [|a1 rest]]; try discriminate. reflexivity.
  - apply andb_true_iff in Hp as [Ho Ha]. rewrite (Hmap' Ha).
    destruct args as [|a0 [|a1 rest]]; try discriminate. reflexivity.
  - apply andb_true_iff in Hp as [Ho Ha]. rewrite (Hmap' Ha).
    destruct args as [|a0 [|a1 [|a2 rest]]]; try discriminate. reflexivity.
  - destruct args as [|a0 [|a1 [|a2 rest]]]; [discriminate| | |].
    + by rewrite (Hmap' Hp).
    + destruct (is_Ellipsis a1) eqn:E.
      * destruct a1; try discriminate. rewrite Hmap; [reflexivity|].
        simpl. by rewrite Hp, orb_true_r.
      * assert (forallb plain [a0; a1] = true) as Ha by (by destruct a1).
        rewrite (Hmap' Ha). simpl. by rewrite E.
    + assert (forallb plain (a0 :: a1 :: a2 :: rest) = true) as Ha by (by destruct a1).
      by rewrite (Hmap' Ha).
  - apply andb_true_iff in Hp as [_ Ha]. by rewrite (Hmap' Ha).
  - by rewrite (Hmap Hp).
Qed.

(** [plain] asks what it says of the members of a union: a descriptor is
    the same as itself, so that distinct members are pairwise different. *)
Lemma ty_eqb_refl : forall t, ty_eqb t t = true.
Proof.
  assert (forall o, origin_eqb o o = true) as Ho
    by (intros []; simpl; try reflexivity; apply String.eqb_refl).
  fix IH 1. intros [n| | |c|c|o args|i n|i n fs]; simpl;
    rewrite ?String.eqb_refl, ?Nat.eqb_refl, ?Ho; try reflexivity; simpl.
  - induction args as [|a args IHargs]; [reflexivity|]. by rewrite IH, IHargs.
  - induction fs as [|[k a] fs IHfs]; [reflexivity|].
    by rewrite String.eqb_refl, IH, IHfs.
Qed.

Lemma distinct_NoDup l : distinct l = true -> NoDup l.
Proof.
  induction l as [|t l IH]; simpl; [constructor|].
  intros H. apply andb_true_iff in H as [Hn Hd]. constructor; [|by apply IH].
  intros Hin. apply negb_true_iff in Hn.
  assert (existsb (ty_eqb t) l = true) as E; [|congruence].
  apply existsb_exists. exists t. split; [by apply list_elem_of_In|apply ty_eqb_refl].
Qed.

(** X3. A type as an annotation gives it, without peewee model and without
    dataclass in it, whose [list] and [set] have one argument, whose [dict]
    has two, whose [tuple] has at least one and whose unions have members
    that differ, is its own schema type: within the recursion limit, and for
    every state of the caches, [rewrite_type] returns a type of the same
    origin over the same arguments, at every level (a container in the
    spelling of [typing]: [List[int]] for [list[int]]), and writes
    nothing. *)
Theorem rewrite_type_plain classes n tp c :
  plain tp = true -> height tp < n ->
  rewrite_type classes n tp c = (Ok tp, c).
Proof. apply plain_type_fixed. Qed.

Lemma rewrite_type_plain_witness :
  rewrite_type example_classes 4
    (Generic o_dict [Leaf "str"; Generic o_tuple [Optional (Leaf "int"); Ellipsis_]])
    segment_cached =
  (Ok (Generic o_dict [Leaf "str"; Generic o_tuple [Optional (Leaf "int"); Ellipsis_]]),
   segment_cached).
Proof.
  apply (rewrite_type_plain example_classes 4
           (Generic o_dict [Leaf "str"; Generic o_tuple [Optional (Leaf "int"); Ellipsis_]])
           segment_cached).
  - reflexivity.
  - vm_compute. lia.
Defined.

(** X4. Whatever [rewrite_type] does, and also when it raises, the caches
    stay sound, no entry is dropped or replaced, and every type that the
    caches already answered without a write is answered as before. *)
Theorem rewrite_type_keeps_results classes n tp c res c' :
  caches_sound classes c ->
  rewrite_type classes n tp c = (res, c') ->
  caches_sound classes c' /\
  caches_le c c' /\
  forall m t r, rewrite_type classes m t c = (Ok r, c) ->
                rewrite_type classes m t c' = (Ok r, c').
Proof.
  intros Hs H. split; [by eapply rewrite_type_sound|].
  pose proof (rewrite_type_grows _ _ _ _ _ _ H) as Hle. split; [exact Hle|].
  intros m t r Ht. by eapply rewrite_type_again.
Qed.

Lemma rewrite_type_keeps_results_witness :
  caches_sound example_classes point_cached /\
  caches_le no_caches point_cached /\
  forall m t r, rewrite_type example_classes m t no_caches = (Ok r, no_caches) ->
                rewrite_type example_classes m t point_cached = (Ok r, point_cached).
Proof.
  apply (rewrite_type_keeps_results example_classes 3
           (Generic o_tuple [Dataclass "Point"; Generic o_list []]) no_caches
           (Raise IndexError) point_cached).
  - apply caches_sound_empty.
  - vm_compute. reflexivity.
Defined.

Lemma mapM_limit (f g : ty -> M caches ty) :
  (forall t c r c', f t c = (Ok r, c') -> g t c = (Ok r, c')) ->
  forall l c rs c', mapM f l c = (Ok rs, c') -> mapM g l c = (Ok rs, c').
Proof.
  intros Hfg l. induction l as [|x l IH]; intros c rs c' H; simpl in *; [exact H|].
  unfold bind in *. destruct (f x c) as [[y|e] c1] eqn:Hx; [|discriminate].
  rewrite (Hfg _ _ _ _ Hx).
  destruct (mapM f l c1) as [[ys|e] c2] eqn:Hl; [|discriminate].
  by rewrite (IH _ _ _ Hl).
Qed.

Lemma for_fields_limit (f g : ty -> M caches ty) :
  (forall t c r c', f t c = (Ok r, c') -> g t c = (Ok r, c')) ->
  forall fs acc c r c', for_fields f fs acc c = (Ok r, c') -> for_fields g fs acc c = (Ok r, c').
Proof.
  intros Hfg fs. induction fs as [|[k t] fs IH]; intros acc c r c' H; simpl in *; [exact H|].
  unfold bind in *. destruct (f t c) as [[y|e] c1] eqn:Hx; [|discriminate].
  rewrite (Hfg _ _ _ _ Hx). by apply IH.
Qed.

Lemma rewrite_type_deeper classes n : forall m tp c r c',
  rewrite_type classes n tp c = (Ok r, c') -> n <= m ->
  rewrite_type classes m tp c = (Ok r, c').
Proof.
  induction n as [|d IH]; intros m tp c r c' H Hle; [discriminate|].
  destruct m as [|m]; [lia|].
  assert (forall t c r c', rewrite_type classes d t c = (Ok r, c') ->
                           rewrite_type classes m t c = (Ok r, c')) as Hd
    by (intros; apply (IH m); [done|lia]).
  destruct tp; try exact H.
  - rewrite rewrite_type_dataclass_eq in *.
    destruct (_dc_cache c !! cls); [exact H|].
    destruct (for_fields _ (dataclass_fields classes cls) [] c) as [[fs|e] c1] eqn:Hf; [|discriminate].
    by rewrite (for_fields_limit _ _ Hd _ _ _ _ _ Hf).
  - rewrite rewrite_type_generic_eq in *.
    destruct (mapM _ args c) as [[args'|e] c1] eqn:Hm; [|discriminate].
    by rewrite (mapM_limit _ _ Hd _ _ _ _ Hm).
Qed.

(** X5. The recursion limit decides only whether [rewrite_type] gets
    through: what it returns under one limit, and what it writes to the
    caches, it returns and writes under every higher limit. *)
Theorem rewrite_type_limit classes n m tp c r c' :
  rewrite_type classes n tp c = (Ok r, c') -> n <= m ->
  rewrite_type classes m tp c = (Ok r, c').
Proof. apply rewrite_type_deeper. Qed.

Lemma rewrite_type_limit_witness :
  rewrite_type example_classes 1000 (Dataclass "Segment") no_caches =
    (Ok SegmentSchema, segment_cached).
Proof.
  apply (rewrite_type_limit example_classes 3 1000 (Dataclass "Segment") no_caches).
  - vm_compute. reflexivity.
  - lia.
Defined.

(** ** What [add_event] writes to the document, and what it leaves *)

Lemma same_outside_refl channel id self : same_outside channel id self self.
Proof. unfold same_outside. by split_and!. Qed.

Lemma same_outside_trans channel id s1 s2 s3 :
  same_outside channel id s1 s2 -> same_outside channel id s2 s3 ->
  same_outside channel id s1 s3.
Proof.
  intros (A1 & A2 & A3 & A4 & A5 & A6 & A7) (B1 & B2 & B3 & B4 & B5 & B6 & B7).
  unfold same_outside. split_and!.
  - by rewrite B1.
  - by rewrite B2.
  - by rewrite B3.
  - by rewrite B4.
  - intros c. by rewrite B5, A5.
  - intros c i H1 H2. by rewrite B6, A6.
  - intros k H. by rewrite B7, A7.
Qed.

Lemma same_outside_with_messages_dict channel id c self :
  same_outside channel id self (with_messages_dict c self).
Proof.
  unfold same_outside. split_and!.
  - apply info_with_messages_dict.
  - unfold with_messages_dict. destruct (channels self !! c) as [ch|]; [|reflexivity].
    by destruct (messages_truthy _).
  - unfold with_messages_dict. destruct (channels self !! c) as [ch|]; [|reflexivity].
    by destruct (messages_truthy _).
  - unfold with_messages_dict. destruct (channels self !! c) as [ch|]; [|reflexivity].
    by destruct (messages_truthy _).
  - intros c0. unfold with_messages_dict.
    destruct (channels self !! c) as [ch|] eqn:Hc; [|reflexivity].
    destruct (messages_truthy _); [reflexivity|]. simpl.
    rewrite lookup_alter. case_decide; [|reflexivity]. subst c0. by rewrite Hc.
  - intros c0 i _ _. apply message_at_with_messages_dict.
  - intros k _. by rewrite operations_with_messages_dict.
Qed.

Lemma same_outside_schemas channel id n s self :
  same_outside channel id self (snd (schemas_setitem n s self)).
Proof. unfold same_outside. by split_and!. Qed.

Lemma same_outside_setitem channel id k m self self' :
  k = id \/ k = id +:+ "Ack" ->
  channel_obj_messages_setitem channel k m self = (Ok tt, self') ->
  same_outside channel id self self'.
Proof.
  intros Hk H. destruct (setitem_ok _ _ _ _ _ H) as (Hm & Ho & Hc & Hi).
  revert H. rewrite setitem_eq.
  destruct (channels self !! channel) as [ch|] eqn:Hch; [|discriminate].
  destruct (ch_messages ch) as [msgs|]; [|discriminate]. intros [= <-].
  unfold same_outside. split_and!; try reflexivity.
  - intros c. simpl. rewrite lookup_alter. case_decide; [|reflexivity].
    subst c. by rewrite Hch.
  - intros c i H1 H2. rewrite Hm. rewrite decide_False; [reflexivity|].
    intros [-> ->]. by destruct Hk as [->| ->].
Qed.

Lemma same_outside_operations channel id op self :
  same_outside channel id self
    (snd (operations_setitem (channel +:+ "/" +:+ id) op self)).
Proof.
  unfold same_outside. split_and!; try reflexivity.
  intros k Hk. simpl. by rewrite lookup_insert_ne.
Qed.

Lemma extends_refl self : extends self self.
Proof. unfold extends. split_and!; intros; by left || done. Qed.

Lemma operation_refers_mono self self' k op :
  (forall c i, is_Some (message_at self c i) -> is_Some (message_at self' c i)) ->
  operation_refers self k op -> operation_refers self' k op.
Proof.
  intros Hm (c & i & Hk & Hc & Hi & H1 & H2 & H3 & H4 & H5).
  exists c, i. split_and!; try done; [by apply Hm|].
  destruct (op_reply op) as [reply|]; [|done].
  destruct H5 as (? & ? & ?). split_and!; try done. by apply Hm.
Qed.

Lemma payload_registered_mono self self' m :
  (forall n, is_Some (comp_schemas (components self) !! n) ->
             is_Some (comp_schemas (components self') !! n)) ->
  payload_registered self m -> payload_registered self' m.
Proof.
  intros Hs H r Hr. destruct (H r Hr) as (name & -> & Hn). exists name. split; [done|].
  by apply Hs.
Qed.

Lemma extends_trans s1 s2 s3 : extends s1 s2 -> extends s2 s3 -> extends s1 s3.
Proof.
  intros (A1 & A2 & A3 & A4 & A5) (B1 & B2 & B3 & B4 & B5).
  unfold extends. split_and!.
  - intros c H. destruct (B1 c H) as [H'|H']; [by apply A1|by right].
  - intros c i H. by apply B2, A2.
  - intros n H. by apply B3, A3.
  - intros c i m H. destruct (B4 c i m H) as [H'|H']; [|by right].
    destruct (A4 c i m H') as [H''|H'']; [by left|right].
    by eapply payload_registered_mono.
  - intros k op H. destruct (B5 k op H) as [H'|H']; [|by right].
    destruct (A5 k op H') as [H''|H'']; [by left|right].
    by eapply operation_refers_mono.
Qed.

Lemma extends_consistent self self' : consistent self -> extends self self' -> consistent self'.
Proof.
  intros [[Hc Ho] Hp] (A1 & A2 & A3 & A4 & A5). split; [split|].
  - intros c ch H. destruct (A1 c) as [[ch' H']|H']; [by eexists|by eapply Hc|done].
  - intros k op H. destruct (A5 k op H) as [H'|H']; [|done].
    eapply operation_refers_mono; [exact A2|by apply Ho].
  - intros c i m H. destruct (A4 c i m H) as [H'|H']; [|done].
    eapply payload_registered_mono; [exact A3|by eapply Hp].
Qed.

(** A write that leaves the messages, the operations and the keys of the
    channels as they are, and drops no schema. *)
Lemma extends_same self self' :
  (forall c, is_Some (channels self' !! c) -> is_Some (channels self !! c)) ->
  (forall c i, message_at self' c i = message_at self c i) ->
  operations self' = operations self ->
  (forall n, is_Some (comp_schemas (components self) !! n) ->
             is_Some (comp_schemas (components self') !! n)) ->
  extends self self'.
Proof.
  intros Hc Hm Ho Hs. unfold extends. split_and!.
  - intros c H. left. by apply Hc.
  - intros c i. by rewrite Hm.
  - exact Hs.
  - intros c i m. rewrite Hm. by left.
  - intros k op. rewrite Ho. by left.
Qed.

Lemma extends_with_messages_dict c self : extends self (with_messages_dict c self).
Proof.
  destruct (same_outside_with_messages_dict c EmptyString c self)
    as (_ & _ & _ & _ & Hch & _ & _).
  apply extends_same.
  - intros c0 [ch H]. specialize (Hch c0). rewrite H in Hch.
    destruct (channels self !! c0); [by eexists|discriminate].
  - intros. apply message_at_with_messages_dict.
  - apply operations_with_messages_dict.
  - unfold with_messages_dict. destruct (channels self !! c) as [ch|]; [|done].
    by destruct (messages_truthy _).
Qed.

Lemma extends_schemas n s self : extends self (snd (schemas_setitem n s self)).
Proof.
  apply extends_same; try done.
  intros n0 H. simpl. rewrite lookup_insert. by case_decide.
Qed.

Lemma extends_setitem channel k m self self' :
  channel_obj_messages_setitem channel k m self = (Ok tt, self') ->
  payload_registered self m ->
  extends self self'.
Proof.
  intros H Hp. destruct (setitem_ok _ _ _ _ _ H) as (Hm & Ho & Hc & Hi).
  revert H. rewrite setitem_eq.
  destruct (channels self !! channel) as [ch|] eqn:Hch; [|discriminate].
  destruct (ch_messages ch) as [msgs|]; [|discriminate]. intros [= E].
  unfold extends. split_and!.
  - intros c [ch' H]. left. rewrite <- E in H. simpl in H.
    rewrite lookup_alter in H. case_decide; [subst; by eexists|by eexists].
  - intros c i H. rewrite Hm. by case_decide.
  - by rewrite Hc.
  - intros c i m0. rewrite Hm. case_decide as Hd; [|by left].
    intros [= <-]. right. intros r Hr. destruct (Hp r Hr) as (name & -> & Hn).
    exists name. by rewrite Hc.
  - intros k0 op. rewrite Ho. by left.
Qed.

Lemma extends_operations k op self :
  operation_refers self k op -> extends self (snd (operations_setitem k op self)).
Proof.
  intros Hr. unfold extends. split_and!; try (intros; by left || done).
  intros k0 op0. simpl. rewrite lookup_insert. case_decide; [|by left].
  intros [= <-]. subst k0. by right.
Qed.

Section EventEffect.

Variable classes : class_env.
Variable recursion_limit : nat.
Variables channel id : string.

Local Abbreviation effect self self' :=
  (same_outside channel id self self' /\ extends self self').

Lemma effect_trans s1 s2 s3 : effect s1 s2 -> effect s2 s3 -> effect s1 s3.
Proof.
  intros [A1 A2] [B1 B2]. split; [by eapply same_outside_trans|by eapply extends_trans].
Qed.

Lemma register_payload_effect pm self r self' :
  register_payload pm self = (r, self') ->
  effect self self' /\
  forall payload m, r = Ok payload -> msg_payload m = payload -> payload_registered self' m.
Proof.
  rewrite register_payload_eq. destruct pm as [[|m]|]; intros [= <- <-].
  - split; [split; [apply same_outside_refl|apply extends_refl]|]. discriminate.
  - split; [split; [apply same_outside_schemas|apply extends_schemas]|].
    intros payload m0 [= <-] Hm r Hr. rewrite Hm in Hr. injection Hr as <-.
    exists (model_name m). split; [reflexivity|]. simpl. by rewrite lookup_insert_eq.
  - split; [split; [apply same_outside_refl|apply extends_refl]|].
    intros payload m0 [= <-] Hm r Hr. congruence.
Qed.

Lemma register_ack_effect name payload tags am ack_title self r self' :
  register_ack channel id name (make_ref ("/channels/" +:+ channel)) payload tags
               am ack_title self = (r, self') ->
  effect self self' /\
  forall reply, r = Ok (Some reply) ->
    reply_channel reply = Some (make_ref ("/channels/" +:+ channel)) /\
    reply_messages reply =
      Some [make_ref ("/channels/" +:+ channel +:+ "/messages/" +:+ (id +:+ "Ack"))] /\
    is_Some (message_at self' channel (id +:+ "Ack")).
Proof.
  rewrite register_ack_eq. unfold register_ack_result.
  destruct am as [[|m]|].
  - intros [= <- <-]. split; [split; [apply same_outside_refl|apply extends_refl]|].
    discriminate.
  - cbn zeta.
    assert (effect self (snd (schemas_setitem (model_name m)
              (PydanticSchema m (schema_path (model_name m))) self))) as Hs
      by (split; [apply same_outside_schemas|apply extends_schemas]).
    destruct ack_title as [t|]; [|intros [= <- <-]; split; [exact Hs|discriminate]].
    destruct (channel_obj_messages_setitem _ _ _ _) as [[[]|e] self2] eqn:Hset.
    + intros [= <- <-]. split.
      * eapply effect_trans; [exact Hs|]. split.
        -- eapply same_outside_setitem; [by right|exact Hset].
        -- eapply extends_setitem; [exact Hset|].
           intros r Hr. simpl in Hr. exists (model_name m).
           split; [by destruct payload; simplify_eq|]. simpl. by rewrite lookup_insert_eq.
      * intros reply [= <-]. simpl. split_and!; try reflexivity.
        destruct (setitem_ok _ _ _ _ _ Hset) as (Hm & _). rewrite Hm.
        rewrite decide_True by done. by eexists.
    + intros [= <- <-]. rewrite (setitem_raises _ _ _ _ _ _ Hset).
      split; [exact Hs|discriminate].
  - intros [= <- <-]. split; [split; [apply same_outside_refl|apply extends_refl]|].
    discriminate.
Qed.

Lemma register_event_effect a w0 r w1 :
  has_char "/" channel = false ->
  register_event classes recursion_limit channel id a w0 = (r, w1) ->
  effect (doc w0) (doc w1).
Proof.
  intros Hch. unfold register_event, bind, on_mem, on_doc, raise. simpl.
  destruct (event_locals _ _ id a (mem w0)) as [[l|e] c1] eqn:Hl; simpl;
    [|intros [= _ <-]; split; [apply same_outside_refl|apply extends_refl]].
  destruct (register_payload (l_payload_model l) (doc w0)) as [[payload|e] self1] eqn:Hp;
    simpl; destruct (register_payload_effect _ _ _ _ Hp) as [E1 Hreg];
    [|by intros [= _ <-]].
  destruct (register_ack _ _ _ _ _ _ _ _ self1) as [[reply|e] self2] eqn:Ha; simpl;
    destruct (register_ack_effect _ _ _ _ _ _ _ _ Ha) as [E2 Hrep];
    [|intros [= _ <-]; by eapply effect_trans].
  pose proof (effect_trans _ _ _ E1 E2) as E12.
  destruct (channel_obj_messages_setitem _ _ _ self2) as [[[]|e] self3] eqn:Hs; simpl;
    [|rewrite (setitem_raises _ _ _ _ _ _ Hs); by intros [= _ <-]].
  assert (effect self2 self3) as E3.
  { split; [eapply same_outside_setitem; [by left|exact Hs]|].
    eapply extends_setitem; [exact Hs|].
    eapply payload_registered_mono; [apply E2|]. by eapply Hreg. }
  pose proof (effect_trans _ _ _ E12 E3) as E123.
  destruct (valid_action (arg_action a)) eqn:Hv; simpl; intros [= _ <-]; simpl;
    [|exact E123].
  eapply effect_trans; [exact E123|]. split; [apply same_outside_operations|].
  apply extends_operations. exists channel, id.
  destruct (setitem_ok _ _ _ _ _ Hs) as (Hm & _).
  split_and!; try done.
  - rewrite Hm, decide_True by done. by eexists.
  - simpl. destruct reply as [reply|]; [|done].
    destruct (Hrep reply eq_refl) as (H1 & H2 & H3). split_and!; try done.
    rewrite Hm. by case_decide.
Qed.

End EventEffect.

Lemma add_event_effect classes recursion_limit a w r w' :
  add_event classes recursion_limit a w = (r, w') ->
  same_outside (sanitize_id (arg_channel a)) (event_id (arg_id a)) (doc w) (doc w') /\
  extends (doc w) (doc w').
Proof.
  rewrite add_event_eq. simpl.
  destruct (channels (doc w) !! sanitize_id (arg_channel a)) as [ch|];
    [|intros [= _ <-]; split; [apply same_outside_refl|apply extends_refl]].
  destruct (message_at (doc w) _ _);
    [intros [= _ <-]; split; [apply same_outside_refl|apply extends_refl]|].
  intros H. apply register_event_effect in H; [|apply has_char_remove_char].
  simpl in H. eapply effect_trans; [|exact H].
  split; [apply same_outside_with_messages_dict|apply extends_with_messages_dict].
Qed.

Lemma add_channel_extends id address title summary description servers self r self' :
  add_channel id address title summary description servers self = (r, self') ->
  extends self self'.
Proof.
  unfold add_channel. destruct (channels self !! sanitize_id id) as [ch|] eqn:Hc;
    intros [= _ <-]; [apply extends_refl|].
  unfold extends. split_and!.
  - intros c [ch H]. simpl in H. rewrite lookup_insert in H. case_decide.
    + right. subst c. apply has_char_remove_char.
    + left. by eexists.
  - intros c i H. unfold message_at in *. simpl. rewrite lookup_insert. case_decide.
    + subst c. rewrite Hc in H. by destruct H.
    + exact H.
  - done.
  - intros c i m. unfold message_at. simpl. rewrite lookup_insert.
    case_decide; [discriminate|by left].
  - intros k op H. by left.
Qed.

Lemma add_global_tag_extends name description self r self' :
  add_global_tag name description self = (r, self') -> extends self self'.
Proof.
  unfold add_global_tag. destruct (info_tags (info self)) as [tags|];
    [|intros [= _ <-]; apply extends_refl].
  destruct (update_tag tags name description); intros [= _ <-]; by apply extends_same.
Qed.

Lemma default_init_consistent version title description server_url server_name
    server_protocol :
  consistent (default_init version title description server_url server_name
                           server_protocol).
Proof.
  split; [split|].
  - intros c ch H. simpl in H. by rewrite lookup_empty in H.
  - intros k op H. simpl in H. by rewrite lookup_empty in H.
  - intros c i m H. unfold message_at in H. simpl in H. by rewrite lookup_empty in H.
Qed.

Lemma built_consistent classes recursion_limit w :
  built classes recursion_limit w -> consistent (doc w).
Proof.
  induction 1 as [ | w name description r self' _ IH H
                   | w id address title summary description servers r self' _ IH H
                   | w a r w' _ IH H
                   | w depth tp r c' _ IH H ]; simpl.
  - apply default_init_consistent.
  - eapply extends_consistent; [exact IH|]. by eapply add_global_tag_extends.
  - eapply extends_consistent; [exact IH|]. by eapply add_channel_extends.
  - eapply extends_consistent; [exact IH|]. by eapply add_event_effect.
  - exact IH.
Qed.

Lemma key_inj c c' i i' :
  has_char "/" c = false -> has_char "/" c' = false ->
  c +:+ "/" +:+ i = c' +:+ "/" +:+ i' -> c = c' /\ i = i'.
Proof.
  revert c'. induction c as [|a c IH]; intros [|b c']; cbn.
  - intros _ _ H. by simplify_eq.
  - destruct (Ascii.eqb b "/") eqn:E; [discriminate|]. intros _ _ H.
    injection H as <- _. by rewrite Ascii.eqb_refl in E.
  - destruct (Ascii.eqb a "/") eqn:E; [discriminate|]. intros _ _ H.
    injection H as -> _. by rewrite Ascii.eqb_refl in E.
  - destruct (Ascii.eqb a "/"); [discriminate|].
    destruct (Ascii.eqb b "/"); [discriminate|].
    intros Hc Hc' H. injection H as -> H. destruct (IH c' Hc Hc' H) as [-> ->]. done.
Qed.

Lemma for_params_grows classes recursion_limit type_hints : forall names acc c r c',
  for_params classes recursion_limit type_hints names acc c = (r, c') ->
  caches_le c c'.
Proof.
  induction names as [|k names IH]; intros acc c r c' H; simpl in H.
  - unfold ret in H. simplify_eq. apply caches_le_refl.
  - destruct (dict_get type_hints k) as [t|];
      [|unfold raise in H; simplify_eq; apply caches_le_refl].
    unfold bind, rewrite in H.
    destruct (rewrite_type classes recursion_limit t c) as [[t'|e] c1] eqn:Ht.
    + eapply caches_le_trans; [by eapply rewrite_type_grows|by eapply IH].
    + simplify_eq. by eapply rewrite_type_grows.
Qed.

Lemma create_model_grows classes name fields c r c' :
  create_model classes name fields c = (r, c') -> caches_le c c'.
Proof.
  unfold create_model. destruct (pydantic_fields classes fields); intros [= _ <-];
    [|apply caches_le_refl].
  repeat split; simpl; [lia|done..].
Qed.

Lemma event_locals_grows classes recursion_limit id a c r c' :
  event_locals classes recursion_limit id a c = (r, c') -> caches_le c c'.
Proof.
  unfold event_locals. destruct (arg_handler a) as [h|];
    [|unfold ret; intros [= _ <-]; apply caches_le_refl].
  unfold handler_block, bind.
  destruct (handler_payload _ _ h id a c) as [[l|e] c1] eqn:Hp.
  - assert (caches_le c c1) as Hle.
    { revert Hp. unfold handler_payload, bind.
      destruct (for_params _ _ _ _ _ c) as [[fs|e] c0] eqn:Hf; [|discriminate].
      pose proof (for_params_grows _ _ _ _ _ _ _ _ Hf) as Hle0.
      destruct (arg_payload_model a); [unfold ret; simpl; by intros [= _ <-]|].
      destruct (create_model classes _ fs c0) as [[M|e] c2] eqn:Hc; unfold ret; simpl;
        intros [= _ <-]; (eapply caches_le_trans; [exact Hle0|]);
        eapply create_model_grows; exact Hc. }
    destruct (dict_get (get_type_hints h) "return") as [rt|];
      [|unfold ret; by intros [= _ <-]].
    destruct (arg_ack_data_model a); [unfold ret; by intros [= _ <-]|].
    unfold synthesize_ack. destruct (negb (is_NoneType rt));
      [|unfold ret; by intros [= _ <-]].
    unfold rewrite.
    destruct (rewrite_type classes recursion_limit rt c1) as [[rt'|e] c2] eqn:Hr.
    + destruct (create_model classes _ _ c2) as [[M|e] c3] eqn:Hc; unfold ret; simpl;
        intros [= _ <-]; (eapply caches_le_trans; [exact Hle|]);
        (eapply caches_le_trans; [by eapply rewrite_type_grows|]);
        eapply create_model_grows; exact Hc.
    + unfold ret; simpl; intros [= _ <-].
      eapply caches_le_trans; [exact Hle|]. by eapply rewrite_type_grows.
  - intros [= _ <-]. revert Hp. unfold handler_payload, bind.
    destruct (for_params _ _ _ _ _ c) as [[fs|e0] c0] eqn:Hf.
    + destruct (arg_payload_model a); [unfold ret; simpl; discriminate|].
      destruct (create_model classes _ fs c0) as [[M|e0] c2]; unfold ret; simpl; discriminate.
    + intros [= _ <-]. by eapply for_params_grows.
Qed.

Lemma built_message_world : built example_classes 10 message_world.
Proof.
  eapply (built_event _ _ chat_world message_event
            (fst (add_event example_classes 10 message_event chat_world))).
  - eapply (built_channel _ _ (mk_world demo_doc no_caches) "chat" None None None None None
              (Ok tt) chat_doc); [apply built_init|reflexivity].
  - unfold message_world. by destruct (add_event _ _ _ _).
Qed.

(** X6. In every document the builder reaches, every operation leads
    somewhere: it is stored under [<channel>/<id>] for a channel key without
    slash, its pointers are [#/channels/<channel>] and
    [#/channels/<channel>/messages/<id>], that message is in the channel,
    its action is ["send"] or ["receive"], and its reply, when it has one,
    points to the message [<id>Ack], which is in the channel as well. *)
Theorem built_operations_refer classes recursion_limit w k op :
  built classes recursion_limit w ->
  operations (doc w) !! k = Some op ->
  operation_refers (doc w) k op.
Proof. intros Hb. by apply (built_consistent _ _ _ Hb). Qed.

Lemma built_operations_refer_witness :
  exists op, operations (doc message_world) !! "chat/message" = Some op /\
             operation_refers (doc message_world) "chat/message" op.
Proof.
  destruct (operations (doc message_world) !! "chat/message") as [op|] eqn:H;
    [|vm_compute in H; discriminate].
  exists op. split; [reflexivity|].
  apply (built_operations_refer example_classes 10 message_world "chat/message" op).
  - apply built_message_world.
  - exact H.
Defined.

(** X7. In every document the builder reaches, the payload of every message
    of every channel is a pointer [#/components/schemas/<name>] whose schema
    is in [components.schemas]: no payload pointer dangles. *)
Theorem built_payloads_registered classes recursion_limit w c i m r :
  built classes recursion_limit w ->
  message_at (doc w) c i = Some m ->
  msg_payload m = Some r ->
  exists name, r = make_ref (schema_path name) /\
               is_Some (comp_schemas (components (doc w)) !! name).
Proof.
  intros Hb Hm. destruct (built_consistent _ _ _ Hb) as [_ Hp]. by apply (Hp c i m).
Qed.

Lemma built_payloads_registered_witness :
  exists name, make_ref "/components/schemas/MessagePayload" = make_ref (schema_path name) /\
               is_Some (comp_schemas (components (doc message_world)) !! name).
Proof.
  destruct (message_at (doc message_world) "chat" "message") as [m|] eqn:H;
    [|vm_compute in H; discriminate].
  apply (built_payloads_registered example_classes 10 message_world "chat" "message" m
           (make_ref "/components/schemas/MessagePayload")).
  - apply built_message_world.
  - exact H.
  - vm_compute in H. injection H as <-. reflexivity.
Defined.

Lemma add_event_operations classes recursion_limit a w w' :
  add_event classes recursion_limit a w = (Ok tt, w') ->
  message_at (doc w) (sanitize_id (arg_channel a)) (event_id (arg_id a)) = None /\
  exists op,
    operations (doc w') =
      <[sanitize_id (arg_channel a) +:+ "/" +:+ event_id (arg_id a) := op]>
        (operations (doc w)) /\
    op_action op = arg_action a.
Proof.
  rewrite add_event_eq. simpl.
  destruct (channels (doc w) !! sanitize_id (arg_channel a)) as [ch|]; [|discriminate].
  destruct (message_at (doc w) _ _) eqn:Hm; [discriminate|].
  intros H. split; [reflexivity|].
  destruct (register_event_ok _ _ _ _ _ _ _ H)
    as (l & payload & self1 & reply & self2 & self3 & _ & Hp & Ha & Hs & _ & Hd).
  destruct (register_payload_keeps _ _ _ _ Hp) as (_ & Ho1 & _).
  destruct (register_ack_keeps _ _ _ _ _ _ _ _ _ _ _ Ha) as (_ & Ho2).
  destruct (setitem_ok _ _ _ _ _ Hs) as (_ & Ho3 & _).
  eexists. rewrite Hd. simpl. rewrite Ho3, Ho2, Ho1. simpl.
  rewrite operations_with_messages_dict. split; reflexivity.
Qed.

(** X8. In every state the builder reaches, an [add_event] that returns
    creates an operation and replaces none: the key [<channel>/<id>] was free,
    and the table of operations is the former one with the new operation
    added under that key, one entry longer. *)
Theorem add_event_new_operation classes recursion_limit a w w' :
  let key := sanitize_id (arg_channel a) +:+ "/" +:+ event_id (arg_id a) in
  built classes recursion_limit w ->
  add_event classes recursion_limit a w = (Ok tt, w') ->
  operations (doc w) !! key = None /\
  exists op,
    operations (doc w') = <[key := op]> (operations (doc w)) /\
    op_action op = arg_action a /\
    size (operations (doc w')) = S (size (operations (doc w))).
Proof.
  intros key Hb H. destruct (add_event_operations _ _ _ _ _ H) as (Hm & op & Ho & Hact).
  assert (operations (doc w) !! key = None) as Hfree.
  { destruct (operations (doc w) !! key) as [op0|] eqn:Hk; [|reflexivity].
    destruct (built_consistent _ _ _ Hb) as [[_ Hops] _].
    destruct (Hops _ _ Hk) as (c & i & Hkey & Hc & Hi & _).
    apply key_inj in Hkey as [<- <-]; [|apply has_char_remove_char|exact Hc].
    rewrite Hm in Hi. by destruct Hi. }
  split; [exact Hfree|]. exists op. split; [exact Ho|]. split; [exact Hact|].
  rewrite Ho. by apply map_size_insert_None.
Qed.

Lemma add_event_new_operation_witness :
  operations (doc chat_world) !! "chat/message" = None /\
  exists op,
    operations (doc message_world) = <["chat/message" := op]> (operations (doc chat_world)) /\
    op_action op = "receive" /\
    size (operations (doc message_world)) = S (size (operations (doc chat_world))).
Proof.
  apply (add_event_new_operation example_classes 10 message_event chat_world message_world).
  - eapply (built_channel _ _ (mk_world demo_doc no_caches) "chat" None None None None None
              (Ok tt) chat_doc); [apply built_init|reflexivity].
  - vm_compute. reflexivity.
Defined.

(** X9. Whether it returns or raises, [add_event] touches nothing but the
    schemas, the messages [<id>] and [<id>Ack] of its channel and the operation
    [<channel>/<id>]: [info], [servers], [components.messages], the attributes
    of every channel, every other message and every other operation are as
    before; no message and no schema is removed; the caches only grow. *)
Theorem add_event_touches classes recursion_limit a w r w' :
  add_event classes recursion_limit a w = (r, w') ->
  same_outside (sanitize_id (arg_channel a)) (event_id (arg_id a)) (doc w) (doc w') /\
  (forall c i, is_Some (message_at (doc w) c i) -> is_Some (message_at (doc w') c i)) /\
  (forall n, is_Some (comp_schemas (components (doc w)) !! n) ->
             is_Some (comp_schemas (components (doc w')) !! n)) /\
  caches_le (mem w) (mem w').
Proof.
  intros H. destruct (add_event_effect _ _ _ _ _ _ H) as [Hs (_ & Hm & Hn & _)].
  split; [exact Hs|]. split; [exact Hm|]. split; [exact Hn|].
  destruct (add_event_frame _ _ _ _ _ _ H) as [_ [->|[r' Hl]]];
    [apply caches_le_refl|by eapply event_locals_grows].
Qed.

Lemma add_event_touches_witness :
  same_outside "chat" "message" (doc chat_world) (doc message_world) /\
  (forall c i, is_Some (message_at (doc chat_world) c i) ->
               is_Some (message_at (doc message_world) c i)) /\
  (forall n, is_Some (comp_schemas (components (doc chat_world)) !! n) ->
             is_Some (comp_schemas (components (doc message_world)) !! n)) /\
  caches_le (mem chat_world) (mem message_world).
Proof.
  apply (add_event_touches example_classes 10 message_event chat_world (Ok tt) message_world).
  vm_compute. reflexivity.
Defined.

(** ** Calls that fail half-way *)

Section Failures.

Variable classes : class_env.
Variable recursion_limit : nat.

(** The registration up to the message: what [add_event] has written when
    [Operation.parse_obj] is reached. *)
Lemma register_event_message channel id a w0 l c' ch msgs :
  event_locals classes recursion_limit id a (mem w0) = (Ok l, c') ->
  l_payload_model l <> Some NotProvided ->
  (l_ack_data_model l = None \/
   exists M t, l_ack_data_model l = Some (ModelClass M) /\ l_ack_title l = Some t) ->
  channels (doc w0) !! channel = Some ch -> ch_messages ch = Some msgs ->
  exists payload reply self3,
    register_event classes recursion_limit channel id a w0 =
      (if valid_action (arg_action a)
       then (Ok tt, mk_world (snd (operations_setitem (channel +:+ "/" +:+ id)
                                     (operation_obj channel id a l reply) self3)) c')
       else (Raise (Exception_ "ValidationError"), mk_world self3 c')) /\
    message_at self3 channel id = Some (message_obj id a l payload) /\
    payload = match l_payload_model l with
              | Some (ModelClass m) => Some (make_ref (schema_path (model_name m)))
              | _ => None
              end /\
    reply = match l_ack_data_model l with
            | Some _ =>
                Some (mk_OperationReply
                        (Some (make_ref ("/channels/" +:+ channel)))
                        (Some [make_ref ("/channels/" +:+ channel +:+ "/messages/"
                                         +:+ (id +:+ "Ack"))]))
            | None => None
            end /\
    operations self3 = operations (doc w0) /\
    (l_payload_model l = None -> l_ack_data_model l = None ->
     components self3 = components (doc w0)).
Proof.
  intros Hl Hnp Hack Hch Hm. unfold register_event, bind, on_mem, on_doc, raise.
  rewrite Hl. simpl. rewrite register_payload_eq.
  assert (exists payload self1 ch1 msgs1,
            match l_payload_model l with
            | None => (Ok None, doc w0)
            | Some NotProvided => (Raise AttributeError, doc w0)
            | Some (ModelClass m) =>
                (Ok (Some (make_ref (schema_path (model_name m)))),
                 snd (schemas_setitem (model_name m)
                        (PydanticSchema m (schema_path (model_name m))) (doc w0)))
            end = (Ok payload, self1) /\
            channels self1 !! channel = Some ch1 /\ ch_messages ch1 = Some msgs1 /\
            operations self1 = operations (doc w0) /\
            payload = match l_payload_model l with
                      | Some (ModelClass m) => Some (make_ref (schema_path (model_name m)))
                      | _ => None
                      end /\
            (l_payload_model l = None -> components self1 = components (doc w0)))
    as (payload & self1 & ch1 & msgs1 & -> & Hch1 & Hm1 & Ho1 & Hpay & Hc1).
  { destruct (l_payload_model l) as [[|pm]|]; [congruence| |]; by eexists _, _, ch, msgs. }
  simpl. rewrite register_ack_eq.
  assert (exists reply self2 ch2 msgs2,
            register_ack_result channel id (event_name id l)
              (make_ref ("/channels/" +:+ channel)) payload (arg_tags a)
              (l_ack_data_model l) (l_ack_title l) self1 = (Ok reply, self2) /\
            channels self2 !! channel = Some ch2 /\ ch_messages ch2 = Some msgs2 /\
            operations self2 = operations self1 /\
            reply = match l_ack_data_model l with
                    | Some _ =>
                        Some (mk_OperationReply
                                (Some (make_ref ("/channels/" +:+ channel)))
                                (Some [make_ref ("/channels/" +:+ channel +:+ "/messages/"
                                                 +:+ (id +:+ "Ack"))]))
                    | None => None
                    end /\
            (l_ack_data_model l = None -> components self2 = components self1))
    as (reply & self2 & ch2 & msgs2 & Hr & Hch2 & Hm2 & Ho2 & Hrep & Hc2).
  { unfold register_ack_result. destruct Hack as [->|(M & t & -> & ->)].
    - by eexists _, _, ch1, msgs1.
    - simpl.
      match goal with
      | |- context [channel_obj_messages_setitem ?c ?k ?m ?s] =>
          destruct (setitem_returns c k m s ch1 msgs1 Hch1 Hm1)
            as (self2 & Hset & ch2 & msgs2 & Hch2 & Hm2)
      end.
      rewrite Hset. destruct (setitem_ok _ _ _ _ _ Hset) as (_ & Ho & _).
      by eexists _, _, ch2, msgs2. }
  rewrite Hr. simpl.
  destruct (setitem_returns channel id (message_obj id a l payload) self2 ch2 msgs2 Hch2 Hm2)
    as (self3 & Hset & _). rewrite Hset. simpl.
  destruct (setitem_ok _ _ _ _ _ Hset) as (Hmsg & Ho3 & Hc3 & _).
  exists payload, reply, self3. split_and!; try done.
  - by destruct (valid_action (arg_action a)).
  - rewrite Hmsg. by rewrite decide_True.
  - by rewrite Ho3, Ho2.
  - intros H1 H2. by rewrite Hc3, Hc2, Hc1.
Qed.

End Failures.



(** ** [add_channel], then [add_event] *)

(** X11. The first event of a new channel is always registered: after an
    [add_channel] that returned, an [add_event] for that channel (the same
    id up to slashes) with a valid action, without handler and without
    models returns. The message is stored under the id after the ["on_"]
    cut, with [name] defaulting to that id and [title] to the name, without
    payload; the operation is stored under [<channel>/<id>] with the id as
    summary and no reply; the caches are not touched. *)
Theorem add_channel_then_add_event classes recursion_limit
    cid address ctitle csummary cdescription cservers self self1 a c :
  let id := event_id (arg_id a) in
  let channel := sanitize_id cid in
  let name := or_else (arg_name a) id in
  let title := or_else (arg_title a) name in
  add_channel cid address ctitle csummary cdescription cservers self = (Ok tt, self1) ->
  sanitize_id (arg_channel a) = channel ->
  arg_handler a = None -> arg_ack_data_model a = None -> arg_payload_model a = None ->
  valid_action (arg_action a) = true ->
  exists w2,
    add_event classes recursion_limit a (mk_world self1 c) = (Ok tt, w2) /\
    mem w2 = c /\
    message_at (doc w2) channel id =
      Some (mk_Message (Some name) (Some title) (arg_summary a) (arg_description a)
                       None (tags_of (arg_tags a))) /\
    operations (doc w2) =
      <[channel +:+ "/" +:+ id :=
          mk_Operation (arg_action a) (make_ref ("/channels/" +:+ channel))
            (Some title) (Some id)
            (Some [make_ref ("/channels/" +:+ channel +:+ "/messages/" +:+ id)])
            None (tags_of (arg_tags a))]> (operations self) /\
    components (doc w2) = components self.
Proof.
  intros id channel name title Hadd Hc Hh Hack Hpm Hv.
  destruct (add_channel_stores _ _ _ _ _ _ _ _ Hadd) as (ch & Hch & _ & _ & _ & _ & Hnone).
  assert (operations self1 = operations self /\ components self1 = components self)
    as [Hops Hcomp].
  { revert Hadd. unfold add_channel.
    destruct (channels self !! sanitize_id cid); [discriminate|]. by intros [= <-]. }
  assert (message_at self1 channel id = None) as Hm.
  { unfold message_at. fold channel in Hch. by rewrite Hch, Hnone. }
  fold channel in Hch.
  destruct (with_messages_dict_channel _ _ _ Hch) as (ch' & msgs & Hch' & Hmsgs).
  set (l := mk_locals (arg_name a) (arg_description a) None None None).
  assert (event_locals classes recursion_limit id a c = (Ok l, c)) as Hl.
  { unfold event_locals. rewrite Hh, Hack, Hpm. reflexivity. }
  destruct (register_event_message classes recursion_limit channel id a
              (mk_world (with_messages_dict channel self1) c) l c ch' msgs
              Hl ltac:(discriminate) ltac:(by left) Hch' Hmsgs)
    as (payload & reply & self3 & Hreg & Hmsg & -> & -> & Ho & Hc3).
  rewrite Hv in Hreg. eexists. split_and!.
  - rewrite add_event_eq, Hc. fold id. cbn zeta. simpl. rewrite Hch, Hm. exact Hreg.
  - reflexivity.
  - simpl. exact Hmsg.
  - simpl. rewrite Ho. simpl. by rewrite operations_with_messages_dict, Hops.
  - simpl. rewrite Hc3 by reflexivity. simpl. rewrite <- Hcomp.
    unfold with_messages_dict. rewrite Hch. by destruct (messages_truthy _).
Qed.

Lemma add_channel_then_add_event_witness :
  exists w2,
    add_event example_classes 10 (no_args "/chat/" "On_Message") (mk_world chat_doc no_caches)
      = (Ok tt, w2) /\
    mem w2 = no_caches /\
    message_at (doc w2) "chat" "Message" =
      Some (mk_Message (Some "Message") (Some "Message") None None None None) /\
    operations (doc w2) =
      <["chat/Message" :=
          mk_Operation "receive" (make_ref "/channels/chat") (Some "Message") (Some "Message")
            (Some [make_ref "/channels/chat/messages/Message"]) None None]>
        (operations demo_doc) /\
    components (doc w2) = components demo_doc.
Proof.
  apply (add_channel_then_add_event example_classes 10 "chat" None None None None None
           demo_doc chat_doc (no_args "/chat/" "On_Message") no_caches);
    reflexivity.
Defined.

(** ** Tags *)

Lemma update_tag_positions tags name description tags' :
  update_tag tags name description = Some tags' ->
  name ∈ map tag_name tags /\
  mk_Tag name description ∈ tags' /\
  forall i t, tags !! i = Some t -> tag_name t <> name -> tags' !! i = Some t.
Proof.
  revert tags'. induction tags as [|t0 tags IH]; intros tags' H; simpl in H; [discriminate|].
  destruct (String.eqb (tag_name t0) name) eqn:E.
  - apply String.eqb_eq in E. injection H as <-. rewrite E. split_and!.
    + simpl. rewrite E. apply list_elem_of_here.
    + apply list_elem_of_here.
    + intros [|i] t Ht Hne; simpl in *; [congruence|exact Ht].
  - destruct (update_tag tags name description) as [r|]; [|discriminate].
    injection H as <-. destruct (IH r eq_refl) as (H1 & H2 & H3). split_and!.
    + simpl. by apply list_elem_of_further.
    + by apply list_elem_of_further.
    + intros [|i] t Ht Hne; simpl in *; [exact Ht|by apply H3].
Qed.

(** X12. [add_global_tag] keeps the tags in their order: in the list of
    tags that the returned call leaves in the document, a name that was
    there keeps its place and only its tag changes (also to no description,
    when none is given); a new name stands at the end; every other tag
    stands where it stood; and the title, the version and the description of
    [info], the servers, the channels, the operations and the components are
    what they were. Without a list of tags ([info.tags] is [None]) the call
    raises [TypeError] and leaves the document as it is. *)
Theorem add_global_tag_order self name description :
  match info_tags (info self) with
  | None => add_global_tag name description self = (Raise TypeError, self)
  | Some tags =>
      exists self' tags',
        add_global_tag name description self = (Ok tt, self') /\
        info_tags (info self') = Some tags' /\
        map tag_name tags' =
          (if bool_decide (name ∈ map tag_name tags) then map tag_name tags
           else map tag_name tags ++ [name]) /\
        mk_Tag name description ∈ tags' /\
        (forall i t, tags !! i = Some t -> tag_name t <> name -> tags' !! i = Some t) /\
        info_title (info self') = info_title (info self) /\
        info_version (info self') = info_version (info self) /\
        info_description (info self') = info_description (info self) /\
        servers self' = servers self /\
        asyncapi self' = asyncapi self /\
        channels self' = channels self /\
        operations self' = operations self /\
        components self' = components self
  end.
Proof.
  unfold add_global_tag. destruct (info_tags (info self)) as [tags|]; [|reflexivity].
  destruct (update_tag tags name description) as [tags'|] eqn:Hu.
  - exists (set_tags self tags'), tags'.
    destruct (update_tag_positions _ _ _ _ Hu) as (Hin & Hnew & Hpos).
    split_and!; try done.
    rewrite bool_decide_eq_true_2 by done. by eapply update_tag_names.
  - exists (set_tags self (tags ++ [mk_Tag name description])),
           (tags ++ [mk_Tag name description]).
    split_and!; try done.
    + rewrite bool_decide_eq_false_2 by by eapply update_tag_absent.
      by rewrite map_app.
    + apply elem_of_app. right. apply list_elem_of_here.
    + intros i t Ht _. by apply lookup_app_l_Some.
Qed.

(** ** Pointers *)

Lemma split_cons sep s : exists p ps, split sep s = p :: ps.
Proof.
  induction s as [|a s (p & ps & IH)]; simpl; [by eexists _, _|].
  destruct (Ascii.eqb a sep); [by eexists _, _|]. rewrite IH. by eexists _, _.
Qed.

Lemma split_absent sep s : has_char sep s = false -> split sep s = [s].
Proof.
  induction s as [|a s IH]; simpl; [reflexivity|].
  destruct (Ascii.eqb a sep); [discriminate|]. intros H. by rewrite IH.
Qed.

Lemma walk_table self table rest :
  table ∈ ["channels"; "operations"; "servers"] ->
  walk (node_of_doc self) (table :: split "/" rest) = Raise AttributeError.
Proof.
  intros H. destruct (split_cons "/" rest) as (p & ps & ->).
  repeat (apply elem_of_cons in H as [->|H]); [reflexivity..|].
  by apply elem_of_nil in H.
Qed.

Lemma walk_components_table self table rest :
  table ∈ ["schemas"; "messages"] ->
  walk (node_of_doc self) ("components" :: table :: split "/" rest) = Raise AttributeError.
Proof.
  intros H. destruct (split_cons "/" rest) as (p & ps & ->).
  repeat (apply elem_of_cons in H as [->|H]); [reflexivity..|].
  by apply elem_of_nil in H.
Qed.

Lemma resolve_ref_walk self s :
  resolve_ref (T := unit) self (ArgStr ("#/" +:+ s)) =
  match walk (node_of_doc self) (split "/" s) with
  | Ok current => Ok (Target current)
  | Raise e => Raise e
  end.
Proof. reflexivity. Qed.

(** X13. [resolve_ref] resolves no pointer to an entry of a table. Take a
    pointer below [channels], [operations], [servers], [components.schemas]
    or [components.messages] whose next segment, the key, is no attribute
    name of a [dict] (it starts with no underscore and is none of [clear],
    [copy], [fromkeys], [get], [items], [keys], [pop], [popitem],
    [setdefault], [update], [values]): whatever the document holds, and
    whether the key is in the table or not, [resolve_ref] raises
    [AttributeError], for the entries of a [dict] are no attributes. *)
Theorem resolve_ref_below_table self rest key below :
  split "/" rest = key :: below ->
  dict_attribute key = false ->
  resolve_ref (T := unit) self (ArgStr ("#/channels/" +:+ rest)) = Raise AttributeError /\
  resolve_ref (T := unit) self (ArgStr ("#/operations/" +:+ rest)) = Raise AttributeError /\
  resolve_ref (T := unit) self (ArgStr ("#/servers/" +:+ rest)) = Raise AttributeError /\
  resolve_ref (T := unit) self (ArgStr ("#/components/schemas/" +:+ rest))
    = Raise AttributeError /\
  resolve_ref (T := unit) self (ArgStr ("#/components/messages/" +:+ rest))
    = Raise AttributeError.
Proof.
  intros _ _. split_and!.
  - change ("#/channels/" +:+ rest) with ("#/" +:+ "channels/" +:+ rest).
    rewrite resolve_ref_walk.
    change (split "/" ("channels/" +:+ rest)) with ("channels" :: split "/" rest).
    rewrite walk_table; [reflexivity|set_solver].
  - change ("#/operations/" +:+ rest) with ("#/" +:+ "operations/" +:+ rest).
    rewrite resolve_ref_walk.
    change (split "/" ("operations/" +:+ rest)) with ("operations" :: split "/" rest).
    rewrite walk_table; [reflexivity|set_solver].
  - change ("#/servers/" +:+ rest) with ("#/" +:+ "servers/" +:+ rest).
    rewrite resolve_ref_walk.
    change (split "/" ("servers/" +:+ rest)) with ("servers" :: split "/" rest).
    rewrite walk_table; [reflexivity|set_solver].
  - change ("#/components/schemas/" +:+ rest)
      with ("#/" +:+ "components/schemas/" +:+ rest).
    rewrite resolve_ref_walk.
    change (split "/" ("components/schemas/" +:+ rest))
      with ("components" :: "schemas" :: split "/" rest).
    rewrite walk_components_table; [reflexivity|set_solver].
  - change ("#/components/messages/" +:+ rest)
      with ("#/" +:+ "components/messages/" +:+ rest).
    rewrite resolve_ref_walk.
    change (split "/" ("components/messages/" +:+ rest))
      with ("components" :: "messages" :: split "/" rest).
    rewrite walk_components_table; [reflexivity|set_solver].
Qed.

Lemma resolve_ref_below_table_witness :
  resolve_ref (T := unit) (doc message_world) (ArgStr "#/channels/chat/messages/message")
    = Raise AttributeError /\
  resolve_ref (T := unit) (doc message_world) (ArgStr "#/operations/chat/messages/message")
    = Raise AttributeError /\
  resolve_ref (T := unit) (doc message_world) (ArgStr "#/servers/chat/messages/message")
    = Raise AttributeError /\
  resolve_ref (T := unit) (doc message_world)
              (ArgStr "#/components/schemas/chat/messages/message") = Raise AttributeError /\
  resolve_ref (T := unit) (doc message_world)
              (ArgStr "#/components/messages/chat/messages/message") = Raise AttributeError.
Proof.
  apply (resolve_ref_below_table (doc message_world) "chat/messages/message"
           "chat" ["messages"; "message"]).
  - reflexivity.
  - reflexivity.
Defined.

(** ** [add_new_sender] *)




(** ** The payload schema of a handler *)

Lemma Payload_not_Ack p : p +:+ "Payload" <> p +:+ "Ack".
Proof. induction p as [|a p IH]; cbn; [discriminate|]. intros H. by simplify_eq. Qed.

Section PayloadSchema.

Variable classes : class_env.
Variable recursion_limit : nat.

(** The local variables after the handler block, from those after its
    first half. *)
Lemma handler_block_locals h id a c l c' :
  handler_block classes recursion_limit h id a c = (Ok l, c') ->
  exists l0 c1,
    handler_payload classes recursion_limit h id a c = (Ok l0, c1) /\
    caches_le c1 c' /\
    l_payload_model l = l_payload_model l0 /\
    (l_ack_data_model l = arg_ack_data_model a /\ l_ack_title l = None \/
     l_ack_data_model l = None \/
     exists M, l_ack_data_model l = Some (ModelClass M) /\
               model_name M = payload_prefix id +:+ "Ack").
Proof.
  unfold handler_block, bind.
  destruct (handler_payload _ _ h id a c) as [[l0|e] c1] eqn:Hp; [|discriminate].
  assert (l_ack_data_model l0 = arg_ack_data_model a /\ l_ack_title l0 = None) as Hl0.
  { revert Hp. unfold handler_payload, bind.
    destruct (for_params _ _ _ _ _ c) as [[fs|e] c0]; [|discriminate].
    destruct (arg_payload_model a); unfold ret; simpl.
    - by intros [= <- _].
    - destruct (create_model classes _ fs c0) as [[M|e] c2]; by intros [= <- _]. }
  destruct (dict_get (get_type_hints h) "return") as [rt|].
  2: { unfold ret. intros [= <- <-]. exists l0, c1.
       split_and!; [done|apply caches_le_refl|done|by left]. }
  destruct (arg_ack_data_model a) as [am|] eqn:Hack.
  { unfold ret. intros [= <- <-]. exists l0, c1.
    split_and!; [done|apply caches_le_refl|done|by left]. }
  unfold synthesize_ack. destruct (negb (is_NoneType rt)).
  2: { unfold ret. simpl. intros [= <- <-]. exists l0, c1.
       split_and!; [done|apply caches_le_refl|done|]. right. by left. }
  unfold rewrite.
  destruct (rewrite_type classes recursion_limit rt c1) as [[rt'|e] c2] eqn:Hr.
  - pose proof (rewrite_type_grows _ _ _ _ _ _ Hr) as Hle2.
    destruct (create_model classes _ _ c2) as [[M|e] c3] eqn:Hc;
      pose proof (create_model_grows _ _ _ _ _ _ Hc) as Hle3;
      unfold ret; simpl; intros [= <- <-]; exists l0, c1;
      (split_and!; [done|by eapply caches_le_trans|done|]).
    + right. right. exists M. split; [reflexivity|].
      revert Hc. unfold create_model. destruct (pydantic_fields classes _); [|discriminate].
      by intros [= <- _].
    + right. by left.
  - unfold ret; simpl; intros [= <- <-]; exists l0, c1.
    split_and!; [done|by eapply rewrite_type_grows|done|]. right. by left.
Qed.

Lemma register_ack_schemas channel id name channel_ref payload tags am ack_title
    self reply self' n :
  register_ack channel id name channel_ref payload tags am ack_title self
    = (Ok reply, self') ->
  (forall M, am = Some (ModelClass M) -> model_name M <> n) ->
  comp_schemas (components self') !! n = comp_schemas (components self) !! n.
Proof.
  rewrite register_ack_eq. unfold register_ack_result.
  destruct am as [[|M]|]; [discriminate| |by intros [= _ <-]].
  cbn zeta. destruct ack_title as [t|]; [|discriminate].
  destruct (channel_obj_messages_setitem _ _ _ _) as [[[]|e] self2] eqn:Hs; [|discriminate].
  intros [= _ <-] Hn. destruct (setitem_ok _ _ _ _ _ Hs) as (_ & _ & -> & _).
  simpl. rewrite lookup_insert_ne; [reflexivity|]. by apply Hn.
Qed.

Lemma components_with_messages_dict channel self :
  components (with_messages_dict channel self) = components self.
Proof.
  unfold with_messages_dict. destruct (channels self !! channel) as [ch|]; [|reflexivity].
  by destruct (messages_truthy _).
Qed.

Lemma add_event_payload_registered a w w1 h rt :
  let id := event_id (arg_id a) in
  let channel := sanitize_id (arg_channel a) in
  let schema_name := payload_prefix id +:+ "Payload" in
  arg_handler a = Some h ->
  handler_return h = Some rt ->
  NoDup (map fst (handler_params h)) ->
  arg_payload_model a = None ->
  add_event classes recursion_limit a w = (Ok tt, w1) ->
  exists types m,
    Forall2 (fun p t => rewrite_type classes recursion_limit (snd p) (mem w1)
                        = (Ok t, mem w1))
            (handler_params h) types /\
    message_at (doc w1) channel id = Some m /\
    match pydantic_fields classes (zip (map fst (handler_params h)) types) with
    | Ok kept =>
        exists M,
          model_name M = schema_name /\
          model_fields M = kept /\
          comp_schemas (components (doc w1)) !! schema_name =
            Some (PydanticSchema M (schema_path schema_name)) /\
          msg_payload m = Some (make_ref (schema_path schema_name))
    | Raise _ =>
        msg_payload m = None /\
        comp_schemas (components (doc w1)) !! schema_name =
          comp_schemas (components (doc w)) !! schema_name
    end.
Proof.
  intros id channel schema_name Hh Hret Hnd Hpm H.
  rewrite add_event_eq in H. simpl in H. fold id channel in H.
  destruct (channels (doc w) !! channel) as [ch|]; [|discriminate].
  destruct (message_at (doc w) channel id); [discriminate|].
  destruct (register_event_ok _ _ _ _ _ _ _ H)
    as (l & payload & self1 & reply & self2 & self3 & Hl & Hp & Ha & Hs & _ & Hd).
  simpl in Hl. unfold event_locals in Hl. rewrite Hh in Hl.
  destruct (handler_block_locals _ _ _ _ _ _ Hl) as (l0 & c1 & Hl0 & Hle & Hpl & Hack).
  destruct (handler_payload_annotated _ _ _ _ _ _ _ _ _ Hret Hnd Hpm Hl0)
    as (types & Hall & Hmodel).
  destruct (setitem_ok _ _ _ _ _ Hs) as (Hm & _ & Hc & _).
  assert (forall M', l_ack_data_model l = Some (ModelClass M') -> model_name M' <> schema_name)
    as Hother.
  { intros M' HM'. destruct Hack as [[H1 H2]|[H1|(M2 & H1 & H2)]].
    - exfalso. revert Ha. rewrite register_ack_eq. unfold register_ack_result.
      rewrite HM', H2. discriminate.
    - congruence.
    - rewrite H1 in HM'. injection HM' as <-. rewrite H2.
      unfold schema_name. intros E. by apply (Payload_not_Ack (payload_prefix id)). }
  exists types, (message_obj id a l payload). split_and!.
  - eapply Forall2_impl; [exact Hall|]. intros p t Hpt. simpl in Hpt.
    by eapply rewrite_type_again.
  - rewrite Hd.
    change (message_at (snd (operations_setitem _ _ self3)) channel id)
      with (message_at self3 channel id).
    rewrite Hm. by rewrite decide_True.
  - rewrite Hd.
    change (components (snd (operations_setitem _ _ self3))) with (components self3).
    rewrite Hc, (register_ack_schemas _ _ _ _ _ _ _ _ _ _ _ schema_name Ha Hother).
    destruct (pydantic_fields classes _) as [kept|e].
    + destruct Hmodel as (M & HM & Hname & Hfields).
      rewrite Hpl, HM in Hp. rewrite register_payload_eq in Hp. injection Hp as <- <-.
      exists M. split_and!; [exact Hname|exact Hfields| |].
      * simpl. unfold schema_name. rewrite <- Hname. apply lookup_insert_eq.
      * simpl. unfold schema_name. by rewrite Hname.
    + rewrite Hpl, Hmodel in Hp. rewrite register_payload_eq in Hp. injection Hp as <- <-.
      split; [reflexivity|]. simpl. by rewrite components_with_messages_dict.
Qed.

End PayloadSchema.

(** X16. A returning [add_event] with a handler that declares its return
    type, and no explicit payload model, has stored the message of the
    event, and handed to pydantic one field per declared parameter, in
    order, typed as [rewrite_type] types the parameter. Where pydantic makes
    a model of them, [components.schemas] holds under
    [<TitleizedEventId>Payload] the schema of that model, named so, with the
    fields that pydantic kept, and the message points to it; the name is
    made from the event id alone, and the schema replaces whatever was
    stored under it. Where pydantic raises, the message has no payload and
    what [components.schemas] holds under that name is what it held. *)
Theorem add_event_payload_schema classes recursion_limit a w w1 h rt :
  let id := event_id (arg_id a) in
  let channel := sanitize_id (arg_channel a) in
  let schema_name := payload_prefix id +:+ "Payload" in
  arg_handler a = Some h ->
  handler_return h = Some rt ->
  NoDup (map fst (handler_params h)) ->
  arg_payload_model a = None ->
  add_event classes recursion_limit a w = (Ok tt, w1) ->
  exists types m,
    Forall2 (fun p t => rewrite_type classes recursion_limit (snd p) (mem w1)
                        = (Ok t, mem w1))
            (handler_params h) types /\
    message_at (doc w1) channel id = Some m /\
    match pydantic_fields classes (zip (map fst (handler_params h)) types) with
    | Ok kept =>
        exists M,
          model_name M = schema_name /\
          model_fields M = kept /\
          comp_schemas (components (doc w1)) !! schema_name =
            Some (PydanticSchema M (schema_path schema_name)) /\
          msg_payload m = Some (make_ref (schema_path schema_name))
    | Raise _ =>
        msg_payload m = None /\
        comp_schemas (components (doc w1)) !! schema_name =
          comp_schemas (components (doc w)) !! schema_name
    end.
Proof. apply add_event_payload_registered. Qed.

Lemma add_event_payload_schema_witness :
  exists types m,
    Forall2 (fun p t => rewrite_type example_classes 10 (snd p) (mem message_world)
                        = (Ok t, mem message_world))
            [("text", Leaf "str")] types /\
    message_at (doc message_world) "chat" "message" = Some m /\
    match pydantic_fields example_classes (zip ["text"] types) with
    | Ok kept =>
        exists M,
          model_name M = "MessagePayload" /\
          model_fields M = kept /\
          comp_schemas (components (doc message_world)) !! "MessagePayload" =
            Some (PydanticSchema M (schema_path "MessagePayload")) /\
          msg_payload m = Some (make_ref (schema_path "MessagePayload"))
    | Raise _ =>
        msg_payload m = None /\
        comp_schemas (components (doc message_world)) !! "MessagePayload" =
          comp_schemas (components (doc chat_world)) !! "MessagePayload"
    end.
Proof.
  apply (add_event_payload_schema example_classes 10 message_event chat_world message_world
           on_message bool_).
  - reflexivity.
  - reflexivity.
  - apply (bool_decide_unpack _). vm_compute. exact I.
  - reflexivity.
  - vm_compute. reflexivity.
Defined.

(** The two other outcomes, run. For [def on_message(json: str) -> bool]
    pydantic raises [NameError], as [json] is an attribute of [BaseModel]:
    the call returns, the message has no payload and there is no schema
    [MessagePayload]. For [def on_message(_x: int, y: int) -> bool] pydantic
    ignores [_x]: the schema [MessagePayload] has the field [y] alone. *)
Lemma add_event_payload_refused :
  let a := with_handler (no_args "chat" "on_message") on_message_json in
  let r := add_event example_classes 10 a chat_world in
  handler_params on_message_json = [("json", Leaf "str")] /\
  fst r = Ok tt /\
  (msg_payload <$> message_at (doc (snd r)) "chat" "message") = Some None /\
  comp_schemas (components (doc (snd r))) !! "MessagePayload" = None.
Proof. vm_compute. repeat split; reflexivity. Qed.

Lemma add_event_payload_ignored :
  let a := with_handler (no_args "chat" "on_message") on_message_private in
  let r := add_event example_classes 10 a chat_world in
  handler_params on_message_private = [("_x", Leaf "int"); ("y", Leaf "int")] /\
  fst r = Ok tt /\
  comp_schemas (components (doc (snd r))) !! "MessagePayload" =
    Some (PydanticSchema (mk_model 0 "MessagePayload" [("y", Leaf "int")])
                         (schema_path "MessagePayload")).
Proof. vm_compute. repeat split; reflexivity. Qed.

(** ** The checks of [add_event] and the ["NotProvided"] payload *)

Lemma event_locals_payload classes recursion_limit id a pm c l c' :
  arg_payload_model a = Some pm ->
  event_locals classes recursion_limit id a c = (Ok l, c') ->
  l_payload_model l = Some pm.
Proof.
  intros Hpm. unfold event_locals. destruct (arg_handler a) as [h|].
  - intros H. destruct (handler_block_locals _ _ _ _ _ _ _ _ H) as (l0 & c1 & Hl0 & _ & -> & _).
    revert Hl0. unfold handler_payload, bind.
    destruct (for_params _ _ _ _ _ c) as [[fs|e] c0]; [|discriminate].
    rewrite Hpm. unfold ret. by intros [= <- _].
  - unfold ret. by intros [= <- _].
Qed.

(** X17. [add_event] accepts the string ["NotProvided"] as [payload_model]
    by its signature, and fails on it: every such call raises, and leaves
    the operations, every message and the components as they were. A call
    that gets through the checks and the handler block raises
    [AttributeError], at [payload_model.__name__]. *)
Theorem add_event_NotProvided_payload classes recursion_limit a w :
  let id := event_id (arg_id a) in
  let channel := sanitize_id (arg_channel a) in
  arg_payload_model a = Some NotProvided ->
  exists e w',
    add_event classes recursion_limit a w = (Raise e, w') /\
    operations (doc w') = operations (doc w) /\
    (forall c k, message_at (doc w') c k = message_at (doc w) c k) /\
    components (doc w') = components (doc w) /\
    (forall ch l c',
       channels (doc w) !! channel = Some ch ->
       message_at (doc w) channel id = None ->
       event_locals classes recursion_limit id a (mem w) = (Ok l, c') ->
       e = AttributeError).
Proof.
  intros id channel Hpm. rewrite add_event_eq. fold id channel. cbn zeta.
  destruct (channels (doc w) !! channel) as [ch|] eqn:Hch.
  2: { eexists _, _. split; [reflexivity|]. split_and!; try done. }
  destruct (message_at (doc w) channel id) eqn:Hm.
  { eexists _, _. split; [reflexivity|]. split_and!; try done. }
  unfold register_event, bind, on_mem, on_doc, raise. simpl.
  destruct (event_locals _ _ id a (mem w)) as [[l|e] c1] eqn:Hl; simpl.
  - rewrite (event_locals_payload _ _ _ _ _ _ _ _ Hpm Hl), register_payload_eq. simpl.
    eexists _, _. split; [reflexivity|]. simpl. split_and!.
    + apply operations_with_messages_dict.
    + intros. apply message_at_with_messages_dict.
    + apply components_with_messages_dict.
    + done.
  - eexists _, _. split; [reflexivity|]. simpl. split_and!.
    + apply operations_with_messages_dict.
    + intros. apply message_at_with_messages_dict.
    + apply components_with_messages_dict.
    + intros. discriminate.
Qed.

Lemma add_event_NotProvided_payload_witness :
  let a := mk_args "chat" "on_message" (Some on_message) None None None None None None
                   (Some NotProvided) "receive" in
  exists e w',
    add_event example_classes 10 a chat_world = (Raise e, w') /\
    operations (doc w') = operations (doc chat_world) /\
    (forall c k, message_at (doc w') c k = message_at (doc chat_world) c k) /\
    components (doc w') = components (doc chat_world) /\
    (forall ch l c',
       channels (doc chat_world) !! "chat" = Some ch ->
       message_at (doc chat_world) "chat" "message" = None ->
       event_locals example_classes 10 "message" a (mem chat_world) = (Ok l, c') ->
       e = AttributeError).
Proof.
  apply (add_event_NotProvided_payload example_classes 10
           (mk_args "chat" "on_message" (Some on_message) None None None None None None
                    (Some NotProvided) "receive") chat_world).
  reflexivity.
Defined.

Lemma register_event_refers classes recursion_limit channel id a w0 w1 :
  has_char "/" channel = false ->
  register_event classes recursion_limit channel id a w0 = (Ok tt, w1) ->
  exists op, operations (doc w1) !! (channel +:+ "/" +:+ id) = Some op /\
             op_action op = arg_action a /\
             operation_refers (doc w1) (channel +:+ "/" +:+ id) op.
Proof.
  intros Hc H. destruct (register_event_ok _ _ _ _ _ _ _ H)
    as (l & payload & self1 & reply & self2 & self3 & _ & _ & Ha & Hs & Hv & Hd).
  destruct (register_ack_effect _ _ _ _ _ _ _ _ _ _ Ha) as [_ Hrep].
  destruct (setitem_ok _ _ _ _ _ Hs) as (Hm & _).
  exists (operation_obj channel id a l reply). rewrite Hd. split_and!.
  - simpl. apply lookup_insert_eq.
  - reflexivity.
  - exists channel, id.
    change (message_at (snd (operations_setitem ?k ?o self3))) with (message_at self3).
    split_and!; try done.
    + rewrite Hm, decide_True by done. by eexists.
    + simpl. destruct reply as [reply|]; [|done].
      destruct (Hrep reply eq_refl) as (H1 & H2 & H3). split_and!; try done.
      rewrite Hm. by case_decide.
Qed.

(** X18. What a returning [add_event] tells: the channel was there and did
    not hold the id, the action is one that [Operation] accepts, and now
    the channel holds the message and the document the operation
    [<channel>/<id>], whose pointers lead to both. Without the channel the
    call raises [KeyError] and writes nothing. *)
Theorem add_event_returns_registered classes recursion_limit a w :
  let id := event_id (arg_id a) in
  let channel := sanitize_id (arg_channel a) in
  (channels (doc w) !! channel = None ->
   add_event classes recursion_limit a w = (Raise KeyError, w)) /\
  (forall w', add_event classes recursion_limit a w = (Ok tt, w') ->
     is_Some (channels (doc w) !! channel) /\
     message_at (doc w) channel id = None /\
     valid_action (arg_action a) = true /\
     is_Some (message_at (doc w') channel id) /\
     exists op, operations (doc w') !! (channel +:+ "/" +:+ id) = Some op /\
                op_action op = arg_action a /\
                operation_refers (doc w') (channel +:+ "/" +:+ id) op).
Proof.
  intros id channel. split.
  - intros Hch. rewrite add_event_eq. fold channel. cbn zeta. by rewrite Hch.
  - intros w' H. rewrite add_event_eq in H. fold id channel in H. cbn zeta in H.
    destruct (channels (doc w) !! channel) as [ch|] eqn:Hch; [|discriminate].
    destruct (message_at (doc w) channel id) eqn:Hm; [discriminate|].
    destruct (register_event_ok _ _ _ _ _ _ _ H)
      as (l & payload & self1 & reply & self2 & self3 & _ & _ & _ & _ & Hv & _).
    split_and!; try done.
    + by eapply register_event_stores.
    + eapply register_event_refers; [apply has_char_remove_char|exact H].
Qed.

(** X19. The name of a payload schema is made from the event id alone, and
    [components.schemas] has one entry per name. Let a message of one
    channel point to the payload schema [<TitleizedEventId>Payload], and let
    [add_event] register, in another channel, an event whose id has the same
    titleized form, with a handler of its own: when the call returns, the
    message of the first channel is what it was and points where it
    pointed, and where pydantic makes a model of the parameters of the
    second handler, the schema under that name is now the schema of that
    model. *)
Theorem shared_payload_schema_name classes recursion_limit a w w' h rt c1 i1 m1 :
  let schema_name := payload_prefix (event_id (arg_id a)) +:+ "Payload" in
  arg_handler a = Some h -> handler_return h = Some rt ->
  NoDup (map fst (handler_params h)) -> arg_payload_model a = None ->
  message_at (doc w) c1 i1 = Some m1 ->
  msg_payload m1 = Some (make_ref (schema_path schema_name)) ->
  c1 <> sanitize_id (arg_channel a) ->
  add_event classes recursion_limit a w = (Ok tt, w') ->
  message_at (doc w') c1 i1 = Some m1 /\
  exists types,
    Forall2 (fun p t => rewrite_type classes recursion_limit (snd p) (mem w')
                        = (Ok t, mem w'))
            (handler_params h) types /\
    forall kept,
      pydantic_fields classes (zip (map fst (handler_params h)) types) = Ok kept ->
      exists M,
        model_fields M = kept /\
        comp_schemas (components (doc w')) !! schema_name =
          Some (PydanticSchema M (schema_path schema_name)).
Proof.
  intros schema_name Hh Hr Hn Hp Hm1 Hpay1 Hch H.
  destruct (add_event_payload_registered _ _ _ _ _ _ _ Hh Hr Hn Hp H)
    as (types & m & Hall & _ & Hmodel).
  destruct (add_event_effect _ _ _ _ _ _ H) as [(_ & _ & _ & _ & _ & Hmsg & _) _].
  split.
  - rewrite Hmsg; [exact Hm1| |]; intros [= E _]; by apply Hch.
  - exists types. split; [exact Hall|]. intros kept E. rewrite E in Hmodel.
    destruct Hmodel as (M & _ & Hf & Hs & _). by exists M.
Qed.

Lemma shared_payload_schema_name_witness :
  message_at (doc news_message_world) "chat" "message" =
    Some (mk_Message (Some "on_message") (Some "on_message") None None
                     (Some (make_ref (schema_path "MessagePayload"))) None) /\
  exists types,
    Forall2 (fun p t => rewrite_type example_classes 10 (snd p) (mem news_message_world)
                        = (Ok t, mem news_message_world))
            [("count", Leaf "int")] types /\
    forall kept,
      pydantic_fields example_classes (zip ["count"] types) = Ok kept ->
      exists M,
        model_fields M = kept /\
        comp_schemas (components (doc news_message_world)) !! "MessagePayload" =
          Some (PydanticSchema M (schema_path "MessagePayload")).
Proof.
  apply (shared_payload_schema_name example_classes 10 count_event
           chat_message_world news_message_world on_count bool_ "chat" "message").
  - reflexivity.
  - reflexivity.
  - apply (bool_decide_unpack _). vm_compute. exact I.
  - reflexivity.
  - vm_compute. reflexivity.
  - reflexivity.
  - discriminate.
  - vm_compute. reflexivity.
Defined.

(** The run behind it: after both calls the schema [MessagePayload] is the
    one of the second handler. *)
Lemma shared_payload_schema_run :
  comp_schemas (components (doc chat_message_world)) !! "MessagePayload" =
    Some (PydanticSchema (mk_model 0 "MessagePayload" [("text", Leaf "str")])
                         (schema_path "MessagePayload")) /\
  comp_schemas (components (doc news_message_world)) !! "MessagePayload" =
    Some (PydanticSchema (mk_model 2 "MessagePayload" [("count", Leaf "int")])
                         (schema_path "MessagePayload")).
Proof. vm_compute. split; reflexivity. Qed.

(** ** The acknowledgement message *)

Lemma append_not_self s t : t <> EmptyString -> s +:+ t <> s.
Proof.
  intros Ht. induction s as [|a s IH]; cbn; [exact Ht|]. intros H.
  injection H as H. by apply IH.
Qed.

(** X20. The acknowledgement message that a returning [add_event] makes for
    a handler with a declared return type that [rewrite_type] rewrites,
    where pydantic takes the three fields of the acknowledgement model: it
    is stored under [<id>Ack], named [<name>_ack] and titled
    [<TitleizedEventId>Ack], and points to the acknowledgement schema when
    the event has a payload. The check for a known id does not look at
    [<id>Ack]: the message replaces whatever the channel held under that
    key. *)
Theorem add_event_ack_message classes recursion_limit
    a w w1 h return_type l0 c1 return_type' c2 :
  let id := event_id (arg_id a) in
  let channel := sanitize_id (arg_channel a) in
  let ack_name := payload_prefix id +:+ "Ack" in
  arg_handler a = Some h ->
  handler_return h = Some return_type ->
  "return" ∉ map fst (handler_params h) ->
  is_NoneType return_type = false ->
  arg_ack_data_model a = None ->
  handler_payload classes recursion_limit h id a (mem w) = (Ok l0, c1) ->
  rewrite_type classes recursion_limit return_type c1 = (Ok return_type', c2) ->
  Forall (fun f => pydantic_field classes (fst f) (erase (snd f)) = Take)
         [("success", bool_); ("error", Optional Any); ("data", return_type')] ->
  add_event classes recursion_limit a w = (Ok tt, w1) ->
  message_at (doc w1) channel (id +:+ "Ack") =
    Some (mk_Message (Some (event_name id l0 +:+ "_ack")) (Some ack_name) None None
            (match l_payload_model l0 with
             | Some _ => Some (make_ref (schema_path ack_name))
             | None => None
             end)
            (tags_of (arg_tags a))).
Proof.
  intros id channel ack_name Hh Hret Hkw Hnone Hack Hpay Hrw Htake H.
  pose proof (pydantic_fields_take classes _ Htake eq_refl) as Hpyd.
  rewrite add_event_eq in H. simpl in H. fold id channel in H.
  destruct (channels (doc w) !! channel) as [ch|]; [|discriminate].
  destruct (message_at (doc w) channel id); [discriminate|].
  destruct (register_event_ok _ _ _ _ _ _ _ H)
    as (l & payload & self1 & reply & self2 & self3 & Hl & Hp & Ha & Hs & _ & Hd).
  simpl in Hl. unfold event_locals in Hl. rewrite Hh in Hl.
  unfold handler_block, bind in Hl. rewrite Hpay in Hl.
  rewrite (get_type_hints_return _ _ Hret Hkw), Hack in Hl.
  unfold synthesize_ack in Hl. rewrite Hnone in Hl. simpl in Hl.
  unfold rewrite in Hl. rewrite Hrw in Hl. unfold create_model, ret in Hl.
  rewrite Hpyd in Hl. simpl in Hl.
  injection Hl as <- Hmem.
  rewrite register_payload_eq in Hp. cbn [l_payload_model] in Hp.
  rewrite register_ack_eq in Ha. unfold register_ack_result in Ha.
  cbn beta iota zeta delta [l_ack_data_model l_ack_title] in Ha.
  match type of Ha with
  | context [channel_obj_messages_setitem ?c ?k ?m ?s] =>
      destruct (channel_obj_messages_setitem c k m s) as [[[]|e] self2'] eqn:Hsa;
        [|discriminate]
  end.
  injection Ha as <- <-.
  destruct (setitem_ok _ _ _ _ _ Hsa) as (Hma & _).
  destruct (setitem_ok _ _ _ _ _ Hs) as (Hm & _).
  rewrite Hd.
  change (message_at (snd (operations_setitem _ _ self3)) channel (id +:+ "Ack"))
    with (message_at self3 channel (id +:+ "Ack")).
  rewrite Hm, decide_False
    by (intros [_ E]; exact (append_not_self _ "Ack" ltac:(discriminate) E)).
  rewrite Hma, decide_True by done.
  unfold event_name. cbn [l_name model_name]. fold ack_name.
  destruct (l_payload_model l0) as [[|pm]|]; simplify_eq; reflexivity.
Qed.

Lemma add_event_ack_message_witness :
  message_at (doc message_world) "chat" ("message" +:+ "Ack") =
    Some (mk_Message (Some ("on_message" +:+ "_ack")) (Some "MessageAck") None None
            (Some (make_ref (schema_path "MessageAck"))) None).
Proof.
  apply (add_event_ack_message example_classes 10 message_event chat_world message_world
           on_message bool_
           (mk_locals (Some "on_message") None
              (Some (ModelClass (mk_model 0 "MessagePayload" [("text", Leaf "str")])))
              None None)
           (mk_caches 1 ∅ ∅) bool_ (mk_caches 1 ∅ ∅)).
  - reflexivity.
  - reflexivity.
  - apply (bool_decide_unpack _). vm_compute. exact I.
  - reflexivity.
  - reflexivity.
  - vm_compute. reflexivity.
  - vm_compute. reflexivity.
  - repeat apply Forall_cons_2; try apply Forall_nil_2; vm_compute; reflexivity.
  - vm_compute. reflexivity.
Defined.
